(** * OpenTTD, network/core/tcp_connect.cpp: creating connections without blocking

    A shallow embedding of [TCPConnecter] and of the list of connecters that
    are currently being created, with the properties of [CheckCallbacks],
    [KillAll], [Connect] and the constructor.

    Modelling choices.
    - A [TCPConnecter *] is the allocation serial number of the object, so a
      pointer names one object for a whole run; the heap maps live pointers
      to objects, and [delete] removes the pointer from the heap.
    - [_tcp_connecters] is the list of the items of the [SmallVector].
      [SmallVector::Erase] and the other functions this file calls and
      does not define are the fields of the class [Collaborators]; the
      theorems about [CheckCallbacks] hold for every erase that meets
      [Erase_spec], the one of [SmallVector] and an order-preserving one
      included.
    - The threads and the iterator are modelled twice.  In the first
      model the worker threads take no step while a function of the main
      thread runs: [run_thread] is [Connect] as one step,
      [CheckCallbacks_loop] reads a connecter once in its turn, and the
      iterator is an index into the list of items.  This is the code as
      long as no thread takes a step during a call of [CheckCallbacks] and
      the connecters that a handler constructs fit the buffer of the
      vector.  The second model ([thread_step], [CheckCallbacks_fine],
      [fstep]) follows the code statement by statement: [Connect] stores
      [sock] and then the flag, the threads take their steps before the
      reads of the main thread as a schedule says, and the iterator is a
      pointer into the buffer, which is of no use once [Append] has
      reallocated the buffer.  Under the empty schedule the second model
      is the first ([CheckCallbacks_fine_quiet], [thread_steps_run_thread]).
    - A thread that has been started and has not yet run is an entry of
      [threads].  [Connect] sets its flag last and the thread does nothing
      after it, so a connecter that has a flag set is not written by its
      thread any more.
    - The calls of the virtual handlers [OnConnect] and [OnFailure], of
      [closesocket] and of [delete] are recorded in the trace of the state,
      a handler call together with the registry as the handler finds it.
      A handler may call back by constructing further connecters; it is
      given as the list of addresses it asks connections for.
      [CheckCallbacks_loop] is the loop for any such handlers,
      [CheckCallbacks] the function with handlers that construct nothing. *)

From stdpp Require Import base list gmap strings pretty.
From Stdlib Require Import ZArith.

Local Open Scope Z_scope.
Local Open Scope nat_scope.

(** ** Collaborators

    Declared in headers that are not part of the sources at hand. *)

Abbreviation SOCKET := Z (only parsing).
Abbreviation TCPConnecter_ptr := nat (only parsing).

Class Collaborators := {
  (** [NetworkAddress], network/core/address.h *)
  NetworkAddress : Type;
  (** [INVALID_SOCKET], the value of a socket that is not open *)
  INVALID_SOCKET : SOCKET;
  (** [NetworkAddress::Connect()]: resolves and connects, blocking; returns
      the connected socket or [INVALID_SOCKET] *)
  NetworkAddress_Connect : NetworkAddress → SOCKET;
  (** [ThreadObject::New(proc, param, &thread)] for the object [param]:
      whether a thread could be started *)
  ThreadObject_New : TCPConnecter_ptr → bool;
  (** [SmallVector::Erase(item)] on the items of the vector *)
  Erase : nat → list TCPConnecter_ptr → list TCPConnecter_ptr
}.

(** What [CheckCallbacks] relies on when it erases the item under the
    iterator and goes on without advancing: the items before the iterator
    stay, the erased item is gone, the items behind it are all kept, in
    some order. *)
Definition Erase_spec `{Collaborators} : Prop :=
  ∀ (pre : list TCPConnecter_ptr) x post,
    ∃ post', Erase (length pre) (pre ++ x :: post) = pre ++ post' ∧ post' ≡ₚ post.

(** Modelled from the spec: [SmallVector::Erase] (core/smallvec_type.hpp is
    not among the sources).  The registry's Erase removes the entry under
    the iterator and moves an element into the vacated slot; OpenTTD's
    [SmallVector] does it with [*item = this->data[--this->items];]: the
    last item is stored over the erased one and the vector shrinks by
    one. *)
Definition SmallVector_Erase {T} (item : nat) (data : list T) : list T :=
  let items := length data - 1 in
  match data !! items with
  | Some x => take items (<[item := x]> data)
  | None => data
  end.

(** An erase that closes the gap by moving the items behind it one slot
    down; the items keep their order. *)
Definition Erase_preserving_order {T} (item : nat) (data : list T) : list T :=
  take item data ++ drop (S item) data.

(** [x] comes before [y] in [l]. *)
Definition before {A} (x y : A) (l : list A) : Prop :=
  ∃ i j, i < j ∧ l !! i = Some x ∧ l !! j = Some y.

Section TCPConnect.
Context `{Collaborators}.

(** ** Data *)

(** The fields of [TCPConnecter] (tcp.h); the thread handle is left out, the
    functions below never read it. *)
Record TCPConnecter := mkTCPConnecter {
  connected : bool;
  aborted : bool;
  killed : bool;
  sock : SOCKET;
  address : NetworkAddress
}.

(** The completion record of the specification, read off the two flags in
    the order [CheckCallbacks] tests them. *)
Inductive Outcome := Pending | Connected | Aborted.

Definition outcome (c : TCPConnecter) : Outcome :=
  if connected c then Connected else if aborted c then Aborted else Pending.

Definition terminal (c : TCPConnecter) : bool := connected c || aborted c.

(** What the main thread does to the world outside; [cur] is the connecter
    on whose behalf it is done, [seen] the registry at the time of the
    call. *)
Inductive Event :=
| EvOnConnect (cur : TCPConnecter_ptr) (s : SOCKET) (seen : list TCPConnecter_ptr)
| EvOnFailure (cur : TCPConnecter_ptr) (seen : list TCPConnecter_ptr)
| EvClosesocket (cur : TCPConnecter_ptr) (s : SOCKET)
| EvDelete (cur : TCPConnecter_ptr).

Record State := mkState {
  _tcp_connecters : list TCPConnecter_ptr;
  heap : gmap TCPConnecter_ptr TCPConnecter;
  threads : list TCPConnecter_ptr;
  next_ptr : TCPConnecter_ptr;
  trace : list Event
}.

Definition set_connecters (f : list TCPConnecter_ptr → list TCPConnecter_ptr) (st : State) : State :=
  mkState (f (_tcp_connecters st)) (heap st) (threads st) (next_ptr st) (trace st).

Definition set_heap (f : gmap TCPConnecter_ptr TCPConnecter → gmap TCPConnecter_ptr TCPConnecter)
    (st : State) : State :=
  mkState (_tcp_connecters st) (f (heap st)) (threads st) (next_ptr st) (trace st).

Definition set_threads (f : list TCPConnecter_ptr → list TCPConnecter_ptr) (st : State) : State :=
  mkState (_tcp_connecters st) (heap st) (f (threads st)) (next_ptr st) (trace st).

Definition emit (e : Event) (st : State) : State :=
  mkState (_tcp_connecters st) (heap st) (threads st) (next_ptr st) (trace st ++ [e]).

(** The object an event is about. *)
Definition subject (e : Event) : TCPConnecter_ptr :=
  match e with
  | EvOnConnect cur _ _ | EvOnFailure cur _ | EvClosesocket cur _ | EvDelete cur => cur
  end.

Definition about (p : TCPConnecter_ptr) (tr : list Event) : list Event :=
  filter (λ e, subject e = p) tr.

Definition is_handler (e : Event) : bool :=
  match e with EvOnConnect _ _ _ | EvOnFailure _ _ => true | _ => false end.

(** The handler calls of a trace, in the order they were made. *)
Definition notified (tr : list Event) : list TCPConnecter_ptr :=
  subject <$> filter (λ e, is_handler e = true) tr.

(** ** TCPConnecter::Connect *)

Definition Connect (this : TCPConnecter) : TCPConnecter :=
  let s := NetworkAddress_Connect (address this) in
  if (s =? INVALID_SOCKET)%Z
  then mkTCPConnecter (connected this) true (killed this) s (address this)
  else mkTCPConnecter true (aborted this) (killed this) s (address this).

(** ** TCPConnecter::ThreadEntry *)

Definition ThreadEntry (param : TCPConnecter_ptr) (st : State) : State :=
  set_heap (alter Connect param) st.

(** The started thread of [p] runs, once: the two statements of [Connect]
    with no step of the main thread in between.  [thread_step] below takes
    them one by one. *)
Definition run_thread (p : TCPConnecter_ptr) (st : State) : State :=
  set_threads (filter (λ q, q ≠ p)) (ThreadEntry p st).

(** ** TCPConnecter::TCPConnecter

    [new TCPConnecter(address)]; the new object is [next_ptr st]. *)
Definition initial (addr : NetworkAddress) : TCPConnecter :=
  mkTCPConnecter false false false INVALID_SOCKET addr.

Definition TCPConnecter_new (addr : NetworkAddress) (st : State) : State :=
  let this := next_ptr st in
  let st1 :=
    mkState (_tcp_connecters st ++ [this])
            (<[this := initial addr]> (heap st))
            (threads st) (S this) (trace st) in
  if ThreadObject_New this
  then set_threads (λ ts, ts ++ [this]) st1
  else set_heap (alter Connect this) st1.

(** A handler constructs connecters, one after the other. *)
Definition news (addrs : list NetworkAddress) (st : State) : State :=
  foldl (λ st addr, TCPConnecter_new addr st) st addrs.

(** ** TCPConnecter::KillAll *)

Definition set_killed (c : TCPConnecter) : TCPConnecter :=
  mkTCPConnecter (connected c) (aborted c) true (sock c) (address c).

Definition KillAll (st : State) : State :=
  set_heap (λ h, foldl (λ h iter, alter set_killed iter h) h (_tcp_connecters st)) st.

(** ** TCPConnecter::CheckCallbacks *)

Inductive Result :=
| Done (st : State)               (** the loop has ended *)
| More (iter : nat) (st : State)  (** the loop is at [iter], out of fuel *)
| Undefined.                      (** a pointer that is not live was read *)

Section Callbacks.
(** The connecters that the handlers of [cur] construct, given the state
    they are called in. *)
Variable OnConnect : TCPConnecter_ptr → SOCKET → State → list NetworkAddress.
Variable OnFailure : TCPConnecter_ptr → State → list NetworkAddress.

Definition call_OnConnect (cur : TCPConnecter_ptr) (s : SOCKET) (st : State) : State :=
  news (OnConnect cur s st) (emit (EvOnConnect cur s (_tcp_connecters st)) st).

Definition call_OnFailure (cur : TCPConnecter_ptr) (st : State) : State :=
  news (OnFailure cur st) (emit (EvOnFailure cur (_tcp_connecters st)) st).

Definition closesocket_if_open (cur : TCPConnecter_ptr) (s : SOCKET) (st : State) : State :=
  if (s =? INVALID_SOCKET)%Z then st else emit (EvClosesocket cur s) st.

Definition delete_obj (cur : TCPConnecter_ptr) (st : State) : State :=
  emit (EvDelete cur) (set_heap (delete cur) st).

(** The loop when no thread takes a step during the call and the buffer of
    the vector is not reallocated: a connecter is read once in its turn,
    and the iterator is the index of the item.  [CheckCallbacks_fine] below
    is the loop read by read, with the iterator as a pointer. *)
Fixpoint CheckCallbacks_loop (fuel iter : nat) (st : State) : Result :=
  match _tcp_connecters st !! iter with
  | None => Done st
  | Some cur =>
    match fuel with
    | O => More iter st
    | S fuel =>
      match heap st !! cur with
      | None => Undefined
      | Some c =>
        if (connected c || aborted c) && killed c then
          let st := set_connecters (Erase iter) st in
          let st := closesocket_if_open cur (sock c) st in
          let st := delete_obj cur st in
          CheckCallbacks_loop fuel iter st
        else if connected c then
          let st := set_connecters (Erase iter) st in
          let st := call_OnConnect cur (sock c) st in
          let st := delete_obj cur st in
          CheckCallbacks_loop fuel iter st
        else if aborted c then
          let st := set_connecters (Erase iter) st in
          let st := call_OnFailure cur st in
          let st := delete_obj cur st in
          CheckCallbacks_loop fuel iter st
        else CheckCallbacks_loop fuel (S iter) st
      end
    end
  end.

(** One turn of the loop on a connecter that has finished: the body of the
    one [if] of the three that applies. *)
Definition reap (iter : nat) (cur : TCPConnecter_ptr) (c : TCPConnecter) (st : State) : State :=
  let st := set_connecters (Erase iter) st in
  if (connected c || aborted c) && killed c then
    delete_obj cur (closesocket_if_open cur (sock c) st)
  else if connected c then delete_obj cur (call_OnConnect cur (sock c) st)
  else delete_obj cur (call_OnFailure cur st).

(** The number of connecters the handler called in that turn constructs. *)
Definition reap_news (iter : nat) (cur : TCPConnecter_ptr) (c : TCPConnecter) (st : State) : nat :=
  let st := set_connecters (Erase iter) st in
  if (connected c || aborted c) && killed c then 0
  else if connected c then length (OnConnect cur (sock c) st)
  else length (OnFailure cur st).

End Callbacks.

(** [CheckCallbacks] with handlers that do not call back into this file.
    Every turn of the loop erases an item or advances the iterator, so the
    number of items is fuel enough. *)
Definition CheckCallbacks (st : State) : Result :=
  CheckCallbacks_loop (λ _ _ _, []) (λ _ _, []) (length (_tcp_connecters st)) 0 st.

(** The object that the constructor leaves behind at [this]: untouched when
    a thread was started, connected or aborted by the constructor itself
    when not. *)
Definition constructed (this : TCPConnecter_ptr) (addr : NetworkAddress) : TCPConnecter :=
  if ThreadObject_New this then initial addr else Connect (initial addr).

(** The events of one turn of the loop on a finished connecter [cur], whose
    handler finds the registry [seen]. *)
Definition reap_events (cur : TCPConnecter_ptr) (c : TCPConnecter)
    (seen : list TCPConnecter_ptr) : list Event :=
  if (connected c || aborted c) && killed c then
    (if (sock c =? INVALID_SOCKET)%Z then [] else [EvClosesocket cur (sock c)]) ++ [EvDelete cur]
  else if connected c then [EvOnConnect cur (sock c) seen; EvDelete cur]
  else [EvOnFailure cur seen; EvDelete cur].

(** [st'] is [st] after one turn of the loop that reaps [cur] at [iter],
    with [n] connecters constructed by the handler. *)
Definition reaped (iter : nat) (cur : TCPConnecter_ptr) (c : TCPConnecter) (n : nat)
    (st st' : State) : Prop :=
  _tcp_connecters st' = Erase iter (_tcp_connecters st) ++ seq (next_ptr st) n ∧
  next_ptr st' = next_ptr st + n ∧
  threads st' = threads st ++ filter (λ p, ThreadObject_New p = true) (seq (next_ptr st) n) ∧
  trace st' = trace st ++ reap_events cur c (Erase iter (_tcp_connecters st)) ∧
  (∀ p, ¬ (next_ptr st ≤ p < next_ptr st + n) →
        heap st' !! p = if decide (cur = p) then None else heap st !! p) ∧
  (∀ p, next_ptr st ≤ p < next_ptr st + n → p ≠ cur →
        ∃ addr, heap st' !! p = Some (constructed p addr)).

(** What a run of the loop that started with [I] ends with. *)
Definition loop_post (I : nat → State → Prop) (r : Result) : Prop :=
  match r with
  | Done st' => ∃ i', I i' st' ∧ _tcp_connecters st' !! i' = None
  | More i' st' => I i' st'
  | Undefined =>
      ∃ i' st' cur, I i' st' ∧ _tcp_connecters st' !! i' = Some cur ∧ heap st' !! cur = None
  end.

(** The registry holds every connecter once, the registered connecters are
    live, and the live pointers have been allocated.  Every state the
    subsystem reaches is such a state. *)
Definition wf (st : State) : Prop :=
  NoDup (_tcp_connecters st) ∧
  (∀ p, p ∈ _tcp_connecters st → is_Some (heap st !! p)) ∧
  (∀ p, is_Some (heap st !! p) → p < next_ptr st).

(** ** The subsystem as a transition system

    Between two functions of the main thread a started thread may run.
    The handlers of a [CheckCallbacks] are any.  [fstep] below lets the
    threads take their steps during [CheckCallbacks] too, statement by
    statement, and leaves out the runs in which the iterator dangles. *)
Inductive step : State → State → Prop :=
| step_new addr st : step st (TCPConnecter_new addr st)
| step_thread p st : p ∈ threads st → step st (run_thread p st)
| step_KillAll st : step st (KillAll st)
| step_CheckCallbacks OnConnect OnFailure fuel st st' :
    CheckCallbacks_loop OnConnect OnFailure fuel 0 st = Done st' → step st st'.

Definition initial_state : State := mkState [] ∅ [] 0 [].

Definition reachable (st : State) : Prop := rtc step initial_state st.

(** The socket is open exactly when [connected] is set, and not both flags
    are set. *)
Definition sound (c : TCPConnecter) : Prop :=
  (sock c ≠ INVALID_SOCKET ↔ connected c = true) ∧
  (connected c = true → aborted c = false).

(** The live objects are allocated and sound; a thread that has still to
    run has its connecter live and untouched. *)
Definition sys_inv (st : State) : Prop :=
  (∀ p c, heap st !! p = Some c → p < next_ptr st ∧ sound c) ∧
  (∀ p, p ∈ threads st → ∃ c, heap st !! p = Some c ∧ outcome c = Pending) ∧
  NoDup (threads st).

(** [p] is live, finished and not killed: [CheckCallbacks] calls its
    handler. *)
Definition notifiable (h : gmap TCPConnecter_ptr TCPConnecter) (p : TCPConnecter_ptr) : bool :=
  match h !! p with
  | Some c => (connected c || aborted c) && negb (killed c)
  | None => false
  end.

(** The ordering as the specification has it: of two connecters that one
    [CheckCallbacks] notifies, the one registered first is notified
    first. *)
Definition notified_in_registry_order (st : State) : Prop :=
  ∀ st' evs a b,
    CheckCallbacks st = Done st' → trace st' = trace st ++ evs →
    before a b (_tcp_connecters st) → a ∈ notified evs → b ∈ notified evs →
    before a b (notified evs).

(** The state a run of the loop stops in. *)
Definition final (r : Result) : option State :=
  match r with Done st | More _ st => Some st | Undefined => None end.

End TCPConnect.

(** ** A run to evaluate the definitions on

    An address is a port; connecting to port 0 fails, connecting to any
    other port gives the socket of that number.  The first three connecters
    get a thread, the later ones none.  The vector erases as [SmallVector]
    does. *)
Definition stub : Collaborators := {|
  NetworkAddress := nat;
  INVALID_SOCKET := (-1)%Z;
  NetworkAddress_Connect := λ port, match port with O => (-1)%Z | _ => Z.of_nat port end;
  ThreadObject_New := λ p, bool_decide (p < 3);
  Erase := SmallVector_Erase
|}.

(** Three connecters have been constructed, none of the threads has run. *)
Definition three_started : @State stub :=
  TCPConnecter_new (H := stub) 30 (TCPConnecter_new (H := stub) 20
    (TCPConnecter_new (H := stub) 10 initial_state)).

(** The three threads have run, in the order of construction. *)
Definition three_connected : @State stub :=
  run_thread 2 (run_thread 1 (run_thread 0 three_started)).

(** A handler that asks for one more connection, to port 40, when one of
    the first three connecters is connected. *)
Definition OnConnect_again (cur : TCPConnecter_ptr) (s : SOCKET) (st : @State stub)
    : list (@NetworkAddress stub) :=
  if bool_decide (cur < 3) then [40] else [].

(** ** What a run of the subsystem has done

    Definitions for the properties of whole runs. *)

Section TCPConnectRuns.
Context `{Collaborators}.

Definition is_delete (e : Event) : bool :=
  match e with EvDelete _ => true | _ => false end.

(** The connecters a trace has deleted, in the order of the deletes. *)
Definition deleted (tr : list Event) : list TCPConnecter_ptr :=
  subject <$> filter (λ e, is_delete e = true) tr.

(** Every live object is registered. *)
Definition all_registered (st : State) : Prop :=
  ∀ p, is_Some (heap st !! p) → p ∈ _tcp_connecters st.

(** A live connecter with neither flag set has a thread that has still to
    run. *)
Definition pending_have_thread (st : State) : Prop :=
  ∀ p c, heap st !! p = Some c → outcome c = Pending → p ∈ threads st.

(** The trace is about connecters that are gone, each of them reaped in one
    turn of a loop, when it had finished and was sound, and notified or
    deleted at most once. *)
Definition trace_inv (st : State) : Prop :=
  (∀ e, e ∈ trace st → heap st !! subject e = None ∧ subject e < next_ptr st) ∧
  NoDup (notified (trace st)) ∧
  NoDup (deleted (trace st)) ∧
  (∀ p, about p (trace st) = [] ∨
        ∃ c seen, about p (trace st) = reap_events p c seen ∧ (p ∉ seen) ∧
                  sound c ∧ terminal c = true).

Definition run_inv (st : State) : Prop :=
  wf st ∧ sys_inv st ∧ all_registered st ∧ pending_have_thread st ∧ trace_inv st.

End TCPConnectRuns.

(** The state after [CheckCallbacks] on [three_connected]. *)
Definition three_polled : @State stub :=
  match CheckCallbacks three_connected with
  | Done st => st
  | _ => three_connected
  end.

(** * The worker threads and the iterator, step by step

    [CheckCallbacks_loop] above reads the object of a connecter once in a
    turn, lets no thread run while the loop runs, and keeps an index into
    the list of items.  The code reads [connected] and [aborted] anew in
    each of its three tests, the threads run while it does so, [Connect]
    writes [sock] and the flag in two statements, and the iterator is a
    pointer into the buffer of the vector, which [Append] reallocates when
    the items do not fit it.  The definitions below follow the code in these
    three respects:
    - a thread takes two steps, the store of [sock] (line 39) and the store
      of the flag (lines 40-44); [connecting] holds the threads between the
      two;
    - a schedule says which threads take a step before each read of a field
      of a connecter by the main thread; under the empty schedule no thread
      runs during the call;
    - the state has the capacity of the buffer and counts its
      reallocations; to go on with an iterator that is older than the last
      reallocation is undefined.
    [CheckCallbacks_fine] under the empty schedule, with handlers whose
    connecters fit the buffer, is [CheckCallbacks_loop]
    ([CheckCallbacks_fine_quiet]). *)

Class Allocation := {
  (** [SmallVector::Append] of core/smallvec_type.hpp, as far as the buffer
      goes: for a vector of [items] items in a buffer with room for
      [capacity], [None] when one more item fits, [Some capacity'] when
      the buffer is reallocated with room for [capacity'] *)
  Append_realloc : ∀ (items capacity : nat), option nat
}.

(** Which threads take a step, for each read of the main thread in turn. *)
Abbreviation Schedule := (list (list TCPConnecter_ptr)) (only parsing).

Section TCPConnectFine.
Context `{Collaborators} `{Allocation}.

Record FState := mkFState {
  base : State;
  (** the threads that have stored [sock] and not yet the flag *)
  connecting : list TCPConnecter_ptr;
  (** the number of items the buffer of [_tcp_connecters] has room for *)
  capacity : nat;
  (** how often [Append] has reallocated the buffer *)
  reallocs : nat
}.

Definition lift (f : State → State) (fs : FState) : FState :=
  mkFState (f (base fs)) (connecting fs) (capacity fs) (reallocs fs).

(** ** TCPConnecter::Connect, statement by statement *)

(** [this->sock = this->address.Connect();] *)
Definition store_sock (this : TCPConnecter) : TCPConnecter :=
  mkTCPConnecter (connected this) (aborted this) (killed this)
                 (NetworkAddress_Connect (address this)) (address this).

(** [if (this->sock == INVALID_SOCKET) this->aborted = true; else
    this->connected = true;] *)
Definition store_flag (this : TCPConnecter) : TCPConnecter :=
  if (sock this =? INVALID_SOCKET)%Z
  then mkTCPConnecter (connected this) true (killed this) (sock this) (address this)
  else mkTCPConnecter true (aborted this) (killed this) (sock this) (address this).

(** One step of the thread of [p]: its first statement when it has not
    begun, its second when it is between the two; no step when [p] has no
    thread that runs. *)
Definition thread_step (p : TCPConnecter_ptr) (fs : FState) : FState :=
  if decide (p ∈ threads (base fs)) then
    mkFState (set_threads (filter (λ q, q ≠ p)) (set_heap (alter store_sock p) (base fs)))
             (connecting fs ++ [p]) (capacity fs) (reallocs fs)
  else if decide (p ∈ connecting fs) then
    mkFState (set_heap (alter store_flag p) (base fs))
             (filter (λ q, q ≠ p) (connecting fs)) (capacity fs) (reallocs fs)
  else fs.

Definition run_threads (ps : list TCPConnecter_ptr) (fs : FState) : FState :=
  foldl (λ fs p, thread_step p fs) fs ps.

(** ** TCPConnecter::TCPConnecter, with the buffer

    [Append] may reallocate the buffer; the constructor runs on the main
    thread, as [CheckCallbacks] does. *)
Definition TCPConnecter_new_fine (addr : NetworkAddress) (fs : FState) : FState :=
  match Append_realloc (length (_tcp_connecters (base fs))) (capacity fs) with
  | None =>
      mkFState (TCPConnecter_new addr (base fs)) (connecting fs) (capacity fs) (reallocs fs)
  | Some capacity' =>
      mkFState (TCPConnecter_new addr (base fs)) (connecting fs) capacity' (S (reallocs fs))
  end.

Definition news_fine (addrs : list NetworkAddress) (fs : FState) : FState :=
  foldl (λ fs addr, TCPConnecter_new_fine addr fs) fs addrs.

Definition KillAll_fine (fs : FState) : FState := lift KillAll fs.

(** ** TCPConnecter::CheckCallbacks, read by read *)

(** The threads of the next entry of the schedule take their steps. *)
Definition pop (sched : Schedule) (fs : FState) : Schedule * FState :=
  match sched with
  | [] => ([], fs)
  | ps :: sched => (sched, run_threads ps fs)
  end.

(** [cur->field], read after the threads that are scheduled before it;
    [None] when [cur] is not live. *)
Definition read {A} (field : TCPConnecter → A) (cur : TCPConnecter_ptr)
    (sched : Schedule) (fs : FState) : option (A * Schedule * FState) :=
  let (sched, fs) := pop sched fs in
  c ← heap (base fs) !! cur; Some (field c, sched, fs).

Inductive Turn :=
| TurnUndefined                              (** a dead pointer or a stale iterator *)
| TurnNext (sched : Schedule) (fs : FState)  (** [iter++] *)
| TurnAgain (sched : Schedule) (fs : FState). (** [continue] *)

Inductive FResult :=
| FDone (fs : FState)
| FMore (iter : nat) (sched : Schedule) (fs : FState)
| FUndefined.

Section Callbacks.
Variable OnConnect : TCPConnecter_ptr → SOCKET → State → list NetworkAddress.
Variable OnFailure : TCPConnecter_ptr → State → list NetworkAddress.

Definition call_OnConnect_fine (cur : TCPConnecter_ptr) (s : SOCKET) (fs : FState) : FState :=
  news_fine (OnConnect cur s (base fs))
            (lift (emit (EvOnConnect cur s (_tcp_connecters (base fs)))) fs).

Definition call_OnFailure_fine (cur : TCPConnecter_ptr) (fs : FState) : FState :=
  news_fine (OnFailure cur (base fs))
            (lift (emit (EvOnFailure cur (_tcp_connecters (base fs)))) fs).

(** [delete cur; continue;] after a handler: the loop goes on with [iter],
    which points into the buffer as it was before the handler ran. *)
Definition continue_after (since : nat) (cur : TCPConnecter_ptr) (sched : Schedule)
    (fs : FState) : Turn :=
  let fs := lift (delete_obj cur) fs in
  if decide (reallocs fs = since) then TurnAgain sched fs else TurnUndefined.

(** Lines 58 to 61: [Erase], [closesocket] when the socket is valid,
    [delete], [continue]. *)
Definition turn_killed (iter : nat) (cur : TCPConnecter_ptr) (sched : Schedule)
    (fs : FState) : Turn :=
  let fs := lift (set_connecters (Erase iter)) fs in
  match read sock cur sched fs with
  | None => TurnUndefined
  | Some (s, sched, fs) =>
    if (s =? INVALID_SOCKET)%Z then TurnAgain sched (lift (delete_obj cur) fs) else
    match read sock cur sched fs with
    | None => TurnUndefined
    | Some (s, sched, fs) =>
      TurnAgain sched (lift (delete_obj cur) (lift (emit (EvClosesocket cur s)) fs))
    end
  end.

(** Lines 64 to 67: [Erase], [OnConnect(cur->sock)], [delete],
    [continue]. *)
Definition turn_connected (iter : nat) (cur : TCPConnecter_ptr) (sched : Schedule)
    (fs : FState) : Turn :=
  let fs := lift (set_connecters (Erase iter)) fs in
  match read sock cur sched fs with
  | None => TurnUndefined
  | Some (s, sched, fs) =>
    continue_after (reallocs fs) cur sched (call_OnConnect_fine cur s fs)
  end.

(** Lines 70 to 73: [Erase], [OnFailure()], [delete], [continue]. *)
Definition turn_aborted (iter : nat) (cur : TCPConnecter_ptr) (sched : Schedule)
    (fs : FState) : Turn :=
  let fs := lift (set_connecters (Erase iter)) fs in
  continue_after (reallocs fs) cur sched (call_OnFailure_fine cur fs).

(** The body of the loop, lines 56 to 75, for [cur = *iter]: the three
    tests, each field read when the test comes to it. *)
Definition turn (iter : nat) (cur : TCPConnecter_ptr) (sched : Schedule) (fs : FState) : Turn :=
  (* line 57: (cur->connected || cur->aborted) && cur->killed *)
  match read connected cur sched fs with
  | None => TurnUndefined
  | Some (co, sched, fs) =>
  match (if co then Some (true, sched, fs) else read aborted cur sched fs) with
  | None => TurnUndefined
  | Some (finished, sched, fs) =>
  match (if finished then read killed cur sched fs else Some (false, sched, fs)) with
  | None => TurnUndefined
  | Some (ki, sched, fs) =>
  if ki then turn_killed iter cur sched fs else
  (* line 63: cur->connected *)
  match read connected cur sched fs with
  | None => TurnUndefined
  | Some (co, sched, fs) =>
  if co then turn_connected iter cur sched fs else
  (* line 69: cur->aborted *)
  match read aborted cur sched fs with
  | None => TurnUndefined
  | Some (ab, sched, fs) =>
  if ab then turn_aborted iter cur sched fs else TurnNext sched fs
  end end end end end.

Fixpoint CheckCallbacks_fine (fuel : nat) (sched : Schedule) (iter : nat) (fs : FState)
    : FResult :=
  match _tcp_connecters (base fs) !! iter with
  | None => FDone fs
  | Some cur =>
    match fuel with
    | O => FMore iter sched fs
    | S fuel =>
      match turn iter cur sched fs with
      | TurnUndefined => FUndefined
      | TurnNext sched fs => CheckCallbacks_fine fuel sched (S iter) fs
      | TurnAgain sched fs => CheckCallbacks_fine fuel sched iter fs
      end
    end
  end.

End Callbacks.

(** The subsystem with its threads, as a transition system. *)
Inductive fstep : FState → FState → Prop :=
| fstep_new addr fs : fstep fs (TCPConnecter_new_fine addr fs)
| fstep_thread p fs : fstep fs (thread_step p fs)
| fstep_KillAll fs : fstep fs (KillAll_fine fs)
| fstep_CheckCallbacks OnConnect OnFailure fuel sched fs fs' :
    CheckCallbacks_fine OnConnect OnFailure fuel sched 0 fs = FDone fs' → fstep fs fs'.

Definition finitial : FState := mkFState initial_state [] 0 0.

(** The states the code reaches without undefined behaviour. *)
Definition freachable (fs : FState) : Prop := rtc fstep finitial fs.

End TCPConnectFine.

Section TCPConnectFineRuns.
Context `{Collaborators} `{Allocation}.

(** The threads and the objects fit: a finished connecter is sound and has
    no thread that runs, an unfinished one has; a thread that has not begun
    finds an invalid socket, a thread between its two statements the socket
    [NetworkAddress::Connect] gave. *)
Definition fsound (fs : FState) : Prop :=
  (∀ p c, heap (base fs) !! p = Some c →
     (terminal c = true → sound c ∧ (p ∉ threads (base fs)) ∧ (p ∉ connecting fs)) ∧
     (terminal c = false → p ∈ threads (base fs) ∨ p ∈ connecting fs)) ∧
  (∀ p, p ∈ threads (base fs) →
     (p ∉ connecting fs) ∧
     ∃ c, heap (base fs) !! p = Some c ∧ terminal c = false ∧ sock c = INVALID_SOCKET) ∧
  (∀ p, p ∈ connecting fs →
     ∃ c, heap (base fs) !! p = Some c ∧ terminal c = false ∧
          sock c = NetworkAddress_Connect (address c)).

Definition finv (fs : FState) : Prop :=
  wf (base fs) ∧ all_registered (base fs) ∧ fsound fs ∧ trace_inv (base fs).

(** Which of the three tests of the loop has applied. *)
Inductive Branch := Silent | Success | Failure.

(** The object as the test that applied has seen it. *)
Definition view (b : Branch) (c : TCPConnecter) : TCPConnecter :=
  match b with
  | Silent => c
  | Success => mkTCPConnecter true false false (sock c) (address c)
  | Failure => mkTCPConnecter false true false (sock c) (address c)
  end.

Definition branch_ok (b : Branch) (c : TCPConnecter) : Prop :=
  match b with
  | Silent => killed c = true
  | Success => connected c = true
  | Failure => aborted c = true
  end.

(** Threads have taken steps, the main thread none. *)
Definition tsteps (fs fs' : FState) : Prop := ∃ ps, fs' = run_threads ps fs.

(** A turn of the loop that has reaped [cur] by the test [b], or has gone
    wrong when the handler has made [Append] reallocate. *)
Definition reaped_by OnConnect OnFailure (iter : nat) (cur : TCPConnecter_ptr) (b : Branch)
    (fs : FState) (t : Turn) : Prop :=
  match t with
  | TurnUndefined =>
      b ≠ Silent ∧
      ∃ fs1 addrs, reallocs (news_fine addrs fs1) ≠ reallocs fs1 ∧
        ((∃ s st, addrs = OnConnect cur s st) ∨ (∃ st, addrs = OnFailure cur st))
  | TurnNext _ _ => False
  | TurnAgain _ fs' =>
      ∃ fs1 c,
        tsteps fs fs1 ∧ heap (base fs1) !! cur = Some c ∧ terminal c = true ∧
        branch_ok b c ∧
        base fs' = reap OnConnect OnFailure iter cur (view b c) (base fs1) ∧
        connecting fs' = connecting fs1 ∧ reallocs fs' = reallocs fs ∧
        capacity fs' = capacity fs
  end.

(** What a turn of the loop on [cur] does: it goes on to the next item
    after steps of threads only, having read [connected] and then
    [aborted] as not set, or it reaps [cur]; when it notifies a killed
    connecter, that one had not finished at the first test. *)
Definition turn_post OnConnect OnFailure (iter : nat) (cur : TCPConnecter_ptr)
    (fs : FState) (t : Turn) : Prop :=
  match t with
  | TurnNext _ fs' =>
      ∃ fs0 c0 c,
        tsteps fs fs0 ∧ tsteps fs0 fs' ∧
        heap (base fs0) !! cur = Some c0 ∧ connected c0 = false ∧
        heap (base fs') !! cur = Some c ∧ aborted c = false
  | _ =>
      ∃ fs0 fs1 b,
        tsteps fs fs0 ∧ tsteps fs0 fs1 ∧
        (b ≠ Silent →
           (∃ c, heap (base fs1) !! cur = Some c ∧ killed c = false) ∨
           (∃ c, heap (base fs0) !! cur = Some c ∧ terminal c = false)) ∧
        reaped_by OnConnect OnFailure iter cur b fs1 t
  end.

(** What a run of the loop that started with [I] ends with; it goes
    wrong only when a handler has made [Append] reallocate. *)
Definition fine_post (OnConnect : TCPConnecter_ptr → SOCKET → State → list NetworkAddress)
    (OnFailure : TCPConnecter_ptr → State → list NetworkAddress)
    (I : nat → FState → Prop) (r : FResult) : Prop :=
  match r with
  | FDone fs' => ∃ i', I i' fs' ∧ _tcp_connecters (base fs') !! i' = None
  | FMore i' _ fs' => I i' fs'
  | FUndefined =>
      ∃ (cur : TCPConnecter_ptr) fs1 addrs, reallocs (news_fine addrs fs1) ≠ reallocs fs1 ∧
        ((∃ s st, addrs = OnConnect cur s st) ∨ (∃ st, addrs = OnFailure cur st))
  end.

Definition ffinal (r : FResult) : option FState :=
  match r with FDone fs | FMore _ _ fs => Some fs | FUndefined => None end.

(** The claim on the socket as the specification has it: in every state,
    of every live connecter. *)
Definition socket_valid_iff_Connected : Prop :=
  ∀ fs p c, freachable fs → heap (base fs) !! p = Some c →
            (sock c ≠ INVALID_SOCKET ↔ outcome c = Connected).

End TCPConnectFineRuns.

(** ** Runs with threads to evaluate the definitions on *)

(** The buffer of [SmallVector<TCPConnecter *, 1>]: room for the items and
    no more, reallocated by every [Append] that finds it full. *)
Definition stub_alloc : Allocation :=
  {| Append_realloc := λ items capacity,
       if decide (S items ≤ capacity) then None else Some (S items) |}.

(** One connecter, to port 10, whose thread has not begun. *)
Definition one_started : @FState stub := @TCPConnecter_new_fine stub stub_alloc 10 finitial.

(** Its thread has stored the socket and not yet the flag. *)
Definition one_connecting : @FState stub := thread_step 0 one_started.

(** Its thread has ended: the connecter is connected, with socket 10. *)
Definition one_connected : @FState stub := thread_step 0 one_connecting.

(** It is killed before its thread has begun. *)
Definition one_killed : @FState stub := KillAll_fine one_started.

(** The thread of [p] runs its two statements before the [n+1]-th read of
    the main thread, and no thread takes a step before that. *)
Definition ends_before_read (n : nat) (p : TCPConnecter_ptr) : list (list TCPConnecter_ptr) :=
  replicate n [] ++ [[p; p]].

(** A handler that asks for two more connections, to ports 40 and 50. *)
Definition OnConnect_two (cur : TCPConnecter_ptr) (s : SOCKET) (st : @State stub)
    : list (@NetworkAddress stub) :=
  [40; 50].

(** Three connecters, to ports 10, 20 and 30, with their threads. *)
Definition three_with_threads : @FState stub :=
  @news_fine stub stub_alloc [10; 20; 30] finitial.

(** The thread of the first has ended, the thread of the second is
    between its two statements, the thread of the third has not begun. *)
Definition three_mixed : @FState stub := run_threads [0; 0; 1] three_with_threads.

(** The thread of the second has ended, the others have not begun. *)
Definition second_connected : @FState stub := run_threads [1; 1] three_with_threads.

(** The thread of the first has ended, the others have not begun. *)
Definition first_connected : @FState stub := run_threads [0; 0] three_with_threads.

(** The state after [CheckCallbacks] with the handler [OnConnect], or the
    state it began in when it has not ended. *)
Definition polled_with (OnConnect : TCPConnecter_ptr → SOCKET → @State stub → list nat)
    (fuel : nat) (sched : list (list TCPConnecter_ptr)) (fs : @FState stub) : @FState stub :=
  match @CheckCallbacks_fine stub stub_alloc OnConnect (λ _ _, []) fuel sched 0 fs with
  | FDone fs' => fs'
  | _ => fs
  end.

(** The same with handlers that construct nothing. *)
Definition polled : nat → list (list TCPConnecter_ptr) → @FState stub → @FState stub :=
  polled_with (λ _ _ _, []).

(** The threads of the first and of the third have ended, the thread of
    the second has not begun. *)
Definition first_and_third_connected : @FState stub :=
  run_threads [0; 0; 2; 2] three_with_threads.

(** The state after [CheckCallbacks] on it, with a handler that asks for
    one more connection for each of the three. *)
Definition first_and_third_again : @FState stub :=
  polled_with OnConnect_again 10 [] first_and_third_connected.

(** The second of three is killed and has finished; the thread of the
    first ends between the tests of the loop. *)
Definition second_killed_first_late : @FState stub :=
  polled 3 (ends_before_read 2 0) (KillAll_fine second_connected).

(** * newgrf_debug_gui.cpp: the NewGRF inspect window

    The number of an inspect window holds the feature in its upper 8 bits
    and the index of the inspected item in its lower 24 bits.

    Modelling choices.
    - A [uint] is a [Z] in the range of 32 bits; [uint x] is the value of
      [x] converted to it.
    - An array that ends with an item whose [name] is [NULL] is the list of
      the items before that one.
    - A function whose behaviour is undefined on some path (a failed
      [assert], a [NULL] that is dereferenced, a write outside an array, an
      [int] that overflows) returns [None] there.
    - The calls into the window system are recorded as events. *)

(** Representation on the NewGRF variables. *)
Record NIVariable := mkNIVariable {
  name : string;
  var : Z
}.

(** The functions of [NIHelper] that the functions below call. *)
Record NIHelper := mkNIHelper {
  IsInspectable : Z → bool;
  GetParent : Z → Z
}.

(** The fields of [NIFeature] that the functions below read; [variables] is
    [None] for [NULL]. *)
Record NIFeature := mkNIFeature {
  variables : option (list NIVariable);
  helper : NIHelper
}.

(** Declared in headers that are not part of the sources at hand. *)
Class GUICollaborators := {
  (** [GB(x, s, n)], core/bitmath_func.hpp: [n] bits of [x], from bit [s] on *)
  GB : Z → Z → Z → Z;
  (** [IsInsideBS(x, base, size)], core/math_func.hpp: whether [x] is in
      the interval that begins at [base] and has [size] elements *)
  IsInsideBS : Z → Z → Z → bool;
  (** [GSF_FAKE_END] and [GSF_INVALID] of [GrfSpecFeature], newgrf.h *)
  GSF_FAKE_END : Z;
  GSF_INVALID : Z;
  (** [_nifeatures[idx]], table/newgrf_debug_data.h; [None] for [NULL] *)
  _nifeatures : Z → option NIFeature;
  (** [FindWindowById(WC_LAND_INFO, 0) != NULL] *)
  land_info_open : bool;
  (** [StrEmpty(str)], string_func.h *)
  StrEmpty : string → bool;
  (** [strtol(str, NULL, 16)] *)
  strtol_16 : string → Z
}.

Definition uint (x : Z) : Z := (x mod 2 ^ 32)%Z.

(** What the functions below rely on: [GB] is
    [(x >> s) & (((T)1U << n) - 1)] and [IsInsideBS] is
    [(uint)(x - base) < size]. *)
Definition BitMath_spec `{GUICollaborators} : Prop :=
  (∀ x s n, GB x s n = Z.land (Z.shiftr x s) (Z.ones n)) ∧
  (∀ x base size, IsInsideBS x base size = (uint (x - base) <? size)%Z).

Inductive GUIEvent :=
| EvAllocateWindowDescFront (wno : Z)
| EvDeleteWindowById (wno : Z)
| EvReInit
| EvShowQueryString
| EvSetDirty.

(** The fields of [NewGRFInspectWindow] that the functions below use, with
    the capacity and the position of its scrollbar. *)
Record NewGRFInspectWindow := mkNewGRFInspectWindow {
  window_number : Z;
  current_edit_param : Z;
  vscroll_capacity : Z;
  vscroll_position : Z
}.

Section NewGRFDebugGUI.
Context `{GUICollaborators}.
Local Open Scope Z_scope.

Definition GetFeatureIndex (window_number : Z) : Z := GB window_number 0 24.

(** [None]: the assertion fails. *)
Definition GetInspectWindowNumber (feature index : Z) : option Z :=
  if Z.shiftr index 24 =? 0 then Some (uint (Z.lor (Z.shiftl feature 24) index)) else None.

(** [None]: the result is [NULL]. *)
Definition GetFeature (window_number : Z) : option NIFeature :=
  let idx := GB window_number 24 8 mod 2 ^ 8 in
  if idx <? GSF_FAKE_END then _nifeatures idx else None.

(** [None]: [NULL] is dereferenced. *)
Definition GetFeatureHelper (window_number : Z) : option NIHelper :=
  helper <$> GetFeature window_number.

Definition HasVariableParameter (variable : Z) : bool := IsInsideBS variable 0x60 0x20.

Definition IsNewGRFInspectable (feature index : Z) : option bool :=
  wno ← GetInspectWindowNumber feature index;
  match GetFeature wno with
  | None => Some false
  | Some nif => Some (IsInspectable (helper nif) index)
  end.

Definition ShowNewGRFInspectWindow (feature index : Z) : option (list GUIEvent) :=
  inspectable ← IsNewGRFInspectable feature index;
  if negb inspectable then Some [] else
  wno ← GetInspectWindowNumber feature index;
  Some [EvAllocateWindowDescFront wno].

Definition DeleteNewGRFInspectWindow (feature index : Z) : option (list GUIEvent) :=
  if feature =? GSF_INVALID then Some [] else
  wno ← GetInspectWindowNumber feature index;
  Some (EvDeleteWindowById wno :: if land_info_open then [EvReInit] else []).

(** [OnClick], the case [NIW_PARENT] *)
Definition OnClick_NIW_PARENT (w : NewGRFInspectWindow) : option (list GUIEvent) :=
  h ← GetFeatureHelper (window_number w);
  let index := uint (GetParent h (GetFeatureIndex (window_number w))) in
  ShowNewGRFInspectWindow (GB index 24 8) (GetFeatureIndex index).

Definition set_current_edit_param (v : Z) (w : NewGRFInspectWindow) : NewGRFInspectWindow :=
  mkNewGRFInspectWindow (window_number w) (v mod 2 ^ 8) (vscroll_capacity w) (vscroll_position w).

(** [OnClick], the case [NIW_MAINPANEL]: the loop that finds the variable
    related to the line.  [line] is an [int]; to decrement the least one is
    undefined. *)
Fixpoint OnClick_find (niv : list NIVariable) (line : Z) (w : NewGRFInspectWindow)
    (evs : list GUIEvent) : option (NewGRFInspectWindow * list GUIEvent) :=
  match niv with
  | [] => Some (w, evs)
  | v :: niv' =>
      if negb (line =? 1) then
        if line =? - 2 ^ 31 then None else OnClick_find niv' (line - 1) w evs
      else if negb (HasVariableParameter (var v)) then Some (w, evs)
      else OnClick_find niv' (line - 1) (set_current_edit_param (var v) w)
                        (evs ++ [EvShowQueryString])
  end.

(** [OnClick], the case [NIW_MAINPANEL], from the line that the position of
    the click has been divided into: [line] is the value of
    [(pt.y - pos_y - TOP_OFFSET) / this->resize.step_height]. *)
Definition OnClick_NIW_MAINPANEL (line : Z) (w : NewGRFInspectWindow)
    : option (NewGRFInspectWindow * list GUIEvent) :=
  nif ← GetFeature (window_number w);
  match variables nif with
  | None => Some (w, [])
  | Some niv =>
      if vscroll_capacity w <=? line then Some (w, []) else
      let line := line + vscroll_position w in
      if (line <? - 2 ^ 31) || (2 ^ 31 <=? line) then None else
      OnClick_find niv line w []
  end.

(** [var60params] is an array of [0x20] bytes. *)
Definition OnQueryTextFinished (str : string) (w : NewGRFInspectWindow)
    (var60params : list Z) : option (list Z * list GUIEvent) :=
  if StrEmpty str then Some (var60params, []) else
  let i := current_edit_param w - 0x60 in
  if (0 <=? i) && (i <? 0x20) then
    Some (<[Z.to_nat i := strtol_16 str mod 2 ^ 8]> var60params, [EvSetDirty])
  else None.

End NewGRFDebugGUI.

(** ** A table to run the window on

    Two features: the items 0 to 9 of feature 0 are inspectable and have
    four variables, two of them with a parameter; the parent of item 1 is
    item 2 of feature 1, the other items have none.  Feature 1 has no
    variables.  [strtol] reads the number of characters. *)
Definition feature_0 : NIFeature :=
  mkNIFeature
    (Some [mkNIVariable "a" 0x40; mkNIVariable "b" 0x60; mkNIVariable "c" 0x7F;
           mkNIVariable "d" 0x80])
    (mkNIHelper (λ index, (index <? 10)%Z)
                (λ index, if (index =? 1)%Z then 0x01000002%Z else 0xFFFFFFFF%Z)).

Definition feature_1 : NIFeature :=
  mkNIFeature None (mkNIHelper (λ index, (index <? 10)%Z) (λ index, 0xFFFFFFFF%Z)).

Definition gui_stub : GUICollaborators := {|
  GB := λ x s n, Z.land (Z.shiftr x s) (Z.ones n);
  IsInsideBS := λ x base size, (uint (x - base) <? size)%Z;
  GSF_FAKE_END := 2%Z;
  GSF_INVALID := 0xFF%Z;
  _nifeatures := λ idx,
    if (idx =? 0)%Z then Some feature_0 else if (idx =? 1)%Z then Some feature_1 else None;
  land_info_open := false;
  StrEmpty := λ str, bool_decide (str = "");
  strtol_16 := λ str, Z.of_nat (String.length str)
|}.

(** The window of item 1 of feature 0, with five lines, scrolled by one. *)
Definition window_0_1 : NewGRFInspectWindow := mkNewGRFInspectWindow 1 0 5 1.

(** * music/os2_m.cpp: music playback on OS/2

    [MidiSendCommand] and [SetVolume].  The driver sends command strings to
    the MCI; the strings that [mciSendString] has been given are the
    state. *)

(** An argument of a format string. *)
Inductive FormatArg :=
| ArgString (s : string)
| ArgInt (i : Z).

(** Declared in headers that are not part of the sources at hand. *)
Class MCICollaborators := {
  (** [vseprintf(buf, last, format, va)], string.cpp: the string it leaves
      in a buffer of the given size *)
  vseprintf : nat → string → list FormatArg → string;
  (** [mciSendString(buf, NULL, 0, NULL, 0)]: the return code, which depends
      on the commands sent before *)
  mciSendString : list string → string → Z
}.

Section OS2Music.
Context `{MCICollaborators}.
Local Open Scope Z_scope.

(** The return code and the commands sent so far. *)
Definition MidiSendCommand (cmd : string) (va : list FormatArg) (sent : list string)
    : Z * list string :=
  let buf := vseprintf 512 cmd va in
  (mciSendString sent buf, sent ++ [buf]).

(** [vol] is a [byte]; the division is the one of [int]. *)
Definition SetVolume (vol : Z) (sent : list string) : list string :=
  (MidiSendCommand "set song audio volume %d" [ArgInt ((vol ÷ 127) * 100)] sent).2.

End OS2Music.

(** ** An MCI to run the driver on

    A format is expanded to the format and its arguments, side by side;
    every command succeeds. *)
Definition show_arg (a : FormatArg) : string :=
  match a with
  | ArgString s => s
  | ArgInt i => pretty i
  end.

Definition mci_stub : MCICollaborators := {|
  vseprintf := λ size format va,
    foldl (λ buf a, buf +:+ " " +:+ show_arg a) format va;
  mciSendString := λ sent buf, 0%Z
|}.

(** ** The erase of [SmallVector] *)

Lemma SmallVector_Erase_last {T} (pre : list T) x :
  SmallVector_Erase (length pre) (pre ++ [x]) = pre.
Proof.
  unfold SmallVector_Erase.
  rewrite length_app; simpl.
  replace (length pre + 1 - 1) with (length pre) by lia.
  rewrite list_lookup_middle by done.
  rewrite insert_app_r_alt, Nat.sub_diag by lia; simpl.
  by rewrite take_app_length.
Qed.

Lemma SmallVector_Erase_snoc {T} (pre : list T) x init y :
  SmallVector_Erase (length pre) (pre ++ x :: init ++ [y]) = pre ++ y :: init.
Proof.
  unfold SmallVector_Erase.
  replace (length (pre ++ x :: init ++ [y]) - 1) with (length (pre ++ x :: init)).
  2: { rewrite !length_app; simpl. rewrite length_app; simpl. lia. }
  replace (pre ++ x :: init ++ [y]) with ((pre ++ x :: init) ++ [y])
    by (by rewrite <- app_assoc).
  rewrite list_lookup_middle by done.
  rewrite <- (app_assoc pre), insert_app_r_alt, Nat.sub_diag by lia; simpl.
  replace (pre ++ y :: init ++ [y]) with ((pre ++ y :: init) ++ [y])
    by (by rewrite <- app_assoc).
  rewrite take_app_length'; [done|].
  rewrite !length_app; simpl; lia.
Qed.

Lemma SmallVector_Erase_spec `{C : Collaborators} :
  (∀ i l, Erase i l = SmallVector_Erase i l) → Erase_spec.
Proof.
  intros HE pre x post. rewrite HE.
  destruct (decide (post = [])) as [->|Hne].
  - exists []. by rewrite SmallVector_Erase_last, app_nil_r.
  - destruct (exists_last Hne) as [init [y Heq]]; subst post.
    exists (y :: init). rewrite SmallVector_Erase_snoc. split; [done|].
    by rewrite Permutation_app_comm.
Qed.

Lemma Erase_preserving_order_spec `{C : Collaborators} :
  (∀ i l, Erase i l = Erase_preserving_order i l) → Erase_spec.
Proof.
  intros HE pre x post. rewrite HE. exists post. split; [|done].
  unfold Erase_preserving_order.
  rewrite take_app_length.
  replace (pre ++ x :: post) with ((pre ++ [x]) ++ post) by (by rewrite <- app_assoc).
  rewrite drop_app_length'; [done|].
  rewrite length_app; simpl; lia.
Qed.

(** ** The constructor *)

Section Facts.
Context `{Collaborators}.
Implicit Types (st : State) (p cur : nat) (c : TCPConnecter).

Lemma TCPConnecter_new_shape addr st :
  TCPConnecter_new addr st =
  mkState (_tcp_connecters st ++ [next_ptr st])
          (<[next_ptr st := constructed (next_ptr st) addr]> (heap st))
          (threads st ++ (if ThreadObject_New (next_ptr st) then [next_ptr st] else []))
          (S (next_ptr st)) (trace st).
Proof.
  unfold TCPConnecter_new, constructed, set_threads, set_heap; simpl.
  destruct (ThreadObject_New (next_ptr st)); simpl.
  - done.
  - by rewrite alter_insert_eq, app_nil_r.
Qed.

Lemma news_shape addrs st :
  let st' := news addrs st in
  let n := length addrs in
  _tcp_connecters st' = _tcp_connecters st ++ seq (next_ptr st) n ∧
  next_ptr st' = next_ptr st + n ∧
  trace st' = trace st ∧
  threads st' = threads st ++ filter (λ p, ThreadObject_New p = true) (seq (next_ptr st) n) ∧
  (∀ p, ¬ (next_ptr st ≤ p < next_ptr st + n) → heap st' !! p = heap st !! p) ∧
  (∀ p, next_ptr st ≤ p < next_ptr st + n →
        ∃ addr, heap st' !! p = Some (constructed p addr)).
Proof.
  revert st. induction addrs as [|a addrs IH]; intros st; simpl.
  - rewrite !app_nil_r, Nat.add_0_r. repeat split; try done. intros p Hp; lia.
  - specialize (IH (TCPConnecter_new a st)). unfold news in *. simpl in IH.
    rewrite TCPConnecter_new_shape in *; simpl in *.
    destruct IH as (Hr & Hn & Ht & Hth & Hold & Hnew).
    rewrite Hr, Hn, Ht, Hth. rewrite <- !app_assoc. simpl.
    repeat split; try done; try lia.
    + f_equal. rewrite filter_cons. by destruct (ThreadObject_New (next_ptr st)).
    + intros p Hp. rewrite Hold by lia. apply lookup_insert_ne. lia.
    + intros p Hp. destruct (decide (p = next_ptr st)) as [->|Hne].
      * exists a. rewrite Hold by lia. apply lookup_insert_eq.
      * apply Hnew. lia.
Qed.

(** ** Erasing the item under the iterator *)

Section EraseFacts.
Hypothesis HErase : Erase_spec.

Lemma Erase_at i (reg : list nat) cur :
  reg !! i = Some cur →
  ∃ post, Erase i reg = take i reg ++ post ∧ post ≡ₚ drop (S i) reg.
Proof.
  intros Hi.
  destruct (HErase (take i reg) cur (drop (S i) reg)) as (post & Heq & Hperm).
  rewrite take_drop_middle in Heq by done.
  rewrite length_take_le in Heq by (apply lookup_lt_Some in Hi; lia).
  eauto.
Qed.

Lemma Erase_Permutation i (reg : list nat) cur :
  reg !! i = Some cur → cur :: Erase i reg ≡ₚ reg.
Proof.
  intros Hi. destruct (Erase_at _ _ _ Hi) as (post & -> & ->).
  rewrite <- (take_drop_middle reg i cur) at 3 by done.
  by rewrite Permutation_middle.
Qed.

Lemma Erase_length i (reg : list nat) cur :
  reg !! i = Some cur → S (length (Erase i reg)) = length reg.
Proof. intros Hi. apply (Permutation_length (Erase_Permutation _ _ _ Hi)). Qed.

Lemma Erase_elem_of i (reg : list nat) cur p :
  reg !! i = Some cur → p ∈ Erase i reg → p ∈ reg.
Proof.
  intros Hi Hp. apply (elem_of_Permutation_proper _ _ _ (Erase_Permutation _ _ _ Hi)).
  by right.
Qed.

Lemma Erase_elem_of_ne i (reg : list nat) cur p :
  reg !! i = Some cur → p ∈ reg → p ≠ cur → p ∈ Erase i reg.
Proof.
  intros Hi Hp Hne.
  apply (elem_of_Permutation_proper _ _ _ (Erase_Permutation _ _ _ Hi)) in Hp.
  apply elem_of_cons in Hp. by destruct Hp.
Qed.

Lemma Erase_NoDup i (reg : list nat) cur :
  reg !! i = Some cur → NoDup reg → (cur ∉ Erase i reg) ∧ NoDup (Erase i reg).
Proof.
  intros Hi Hnd.
  apply (NoDup_Permutation_proper _ _ (Erase_Permutation _ _ _ Hi)) in Hnd.
  by apply NoDup_cons in Hnd.
Qed.

(** The items behind the iterator: the erased one is gone, the others are
    still to come. *)
Lemma Erase_drop i (reg : list nat) cur (extra : list nat) :
  reg !! i = Some cur → drop i (Erase i reg ++ extra) ≡ₚ drop (S i) reg ++ extra.
Proof.
  intros Hi. destruct (Erase_at _ _ _ Hi) as (post & -> & Hperm).
  rewrite <- app_assoc, drop_app_length'; [by rewrite Hperm|].
  rewrite length_take_le; [done|]. apply lookup_lt_Some in Hi; lia.
Qed.

End EraseFacts.

(** ** One turn of the loop *)

Section Loop.
Variable OnConnect : TCPConnecter_ptr → SOCKET → State → list NetworkAddress.
Variable OnFailure : TCPConnecter_ptr → State → list NetworkAddress.

Local Abbreviation loop := (CheckCallbacks_loop OnConnect OnFailure).
Local Abbreviation reap1 := (reap OnConnect OnFailure).

Lemma reap_shape i cur c st :
  reaped i cur c (reap_news OnConnect OnFailure i cur c st) st (reap1 i cur c st).
Proof.
  unfold reap, reaped, reap_events, reap_news.
  destruct ((connected c || aborted c) && killed c).
  { unfold closesocket_if_open.
    destruct (sock c =? INVALID_SOCKET)%Z; simpl;
      rewrite ?app_nil_r, ?Nat.add_0_r, <- ?app_assoc; repeat split; try done.
    - intros p _. apply lookup_delete.
    - intros p Hp; lia.
    - intros p _. apply lookup_delete.
    - intros p Hp; lia. }
  destruct (connected c).
  - unfold call_OnConnect. set (st1 := emit _ _).
    destruct (news_shape (OnConnect cur (sock c) (set_connecters (Erase i) st)) st1)
      as (Hr & Hn & Ht & Hth & Hold & Hnew).
    simpl in *. rewrite Hr, Hn, Ht, Hth, <- app_assoc. repeat split; try done.
    + intros p Hp. rewrite lookup_delete. case_decide; [done|]. by apply Hold.
    + intros p Hp Hne. rewrite lookup_delete_ne by done. by apply Hnew.
  - unfold call_OnFailure. set (st1 := emit _ _).
    destruct (news_shape (OnFailure cur (set_connecters (Erase i) st)) st1)
      as (Hr & Hn & Ht & Hth & Hold & Hnew).
    simpl in *. rewrite Hr, Hn, Ht, Hth, <- app_assoc. repeat split; try done.
    + intros p Hp. rewrite lookup_delete. case_decide; [done|]. by apply Hold.
    + intros p Hp Hne. rewrite lookup_delete_ne by done. by apply Hnew.
Qed.

Lemma loop_end fuel i st :
  _tcp_connecters st !! i = None → loop fuel i st = Done st.
Proof. intros Hi. destruct fuel; simpl; by rewrite Hi. Qed.

Lemma loop_reap fuel i st cur c :
  _tcp_connecters st !! i = Some cur → heap st !! cur = Some c → terminal c = true →
  loop (S fuel) i st = loop fuel i (reap1 i cur c st).
Proof.
  intros Hi Hc Ht. simpl. rewrite Hi, Hc. unfold reap, terminal in *.
  destruct (connected c), (aborted c), (killed c); simpl in *; done.
Qed.

Lemma loop_skip fuel i st cur c :
  _tcp_connecters st !! i = Some cur → heap st !! cur = Some c → terminal c = false →
  loop (S fuel) i st = loop fuel (S i) st.
Proof.
  intros Hi Hc Ht. simpl. rewrite Hi, Hc. unfold terminal in *.
  destruct (connected c), (aborted c); simpl in *; done.
Qed.

Lemma loop_inv (I : nat → State → Prop) :
  (∀ i st cur c, I i st → _tcp_connecters st !! i = Some cur → heap st !! cur = Some c →
     terminal c = true → I i (reap1 i cur c st)) →
  (∀ i st cur c, I i st → _tcp_connecters st !! i = Some cur → heap st !! cur = Some c →
     terminal c = false → I (S i) st) →
  ∀ fuel i st, I i st → loop_post I (loop fuel i st).
Proof.
  intros Hreap Hskip fuel. induction fuel as [|fuel IH]; intros i st HI.
  - simpl. destruct (_tcp_connecters st !! i) eqn:Hi; simpl; eauto.
  - destruct (_tcp_connecters st !! i) as [cur|] eqn:Hi.
    2: { rewrite loop_end by done. simpl; eauto. }
    destruct (heap st !! cur) as [c|] eqn:Hc.
    2: { simpl. rewrite Hi, Hc. simpl. eauto 6. }
    destruct (terminal c) eqn:Ht.
    + erewrite loop_reap by done. apply IH. eauto.
    + erewrite loop_skip by done. apply IH. eauto.
Qed.

(** For an invariant that does not depend on the iterator. *)
Lemma loop_inv_final (I : State → Prop) :
  (∀ i st cur c, I st → _tcp_connecters st !! i = Some cur → heap st !! cur = Some c →
     terminal c = true → I (reap1 i cur c st)) →
  ∀ fuel i st st', I st → final (loop fuel i st) = Some st' → I st'.
Proof.
  intros Hreap fuel i st st' HI Hfin.
  pose proof (loop_inv (λ _, I) Hreap ltac:(done) fuel i st HI) as Hpost.
  destruct (loop fuel i st) as [st2|i2 st2|]; simpl in *.
  - injection Hfin as ->. by destruct Hpost as (? & ? & _).
  - by injection Hfin as ->.
  - done.
Qed.

End Loop.

(** ** The events about one connecter *)

(** The cases of [reap_events]: killed with the socket closed or open,
    connected, aborted. *)
Ltac reap_cases c :=
  destruct ((connected c || aborted c) && killed c);
  [destruct (sock c =? INVALID_SOCKET)%Z | destruct (connected c)].

Lemma about_app p (tr1 tr2 : list Event) : about p (tr1 ++ tr2) = about p tr1 ++ about p tr2.
Proof. apply filter_app. Qed.

Lemma about_reap_events p cur c seen :
  about p (reap_events cur c seen) = if decide (cur = p) then reap_events cur c seen else [].
Proof.
  unfold about, reap_events.
  reap_cases c; simpl;
    rewrite ?filter_cons, ?filter_nil; simpl; repeat case_decide; done.
Qed.


Lemma notified_about p (tr : list Event) :
  filter (λ q, q = p) (notified tr) = notified (about p tr).
Proof.
  unfold notified, about. induction tr as [|e tr IH]; [done|].
  rewrite !filter_cons.
  destruct (decide (is_handler e = true)) as [He|He],
           (decide (subject e = p)) as [Hs|Hs]; simpl;
    rewrite ?filter_cons; simpl; repeat case_decide; simpl; try done.
  by f_equal.
Qed.

Lemma subject_reap_events e cur c seen : e ∈ reap_events cur c seen → subject e = cur.
Proof.
  unfold reap_events.
  reap_cases c; simpl; intros Hin;
    repeat (apply elem_of_cons in Hin as [->|Hin]; [done|]); by apply elem_of_nil in Hin.
Qed.

Lemma notified_app (tr1 tr2 : list Event) : notified (tr1 ++ tr2) = notified tr1 ++ notified tr2.
Proof. unfold notified. by rewrite filter_app, fmap_app. Qed.

Lemma notified_reap_events cur c seen :
  notified (reap_events cur c seen) =
  if (connected c || aborted c) && killed c then [] else [cur].
Proof.
  unfold notified, reap_events.
  reap_cases c; done.
Qed.

Lemma elem_of_notified p (tr : list Event) : p ∈ notified tr → ∃ e, e ∈ tr ∧ subject e = p.
Proof.
  unfold notified. intros (e & -> & He)%list_elem_of_fmap.
  apply list_elem_of_filter in He as [_ He]. eauto.
Qed.

Lemma about_nil p (tr : list Event) : (∀ e, e ∈ tr → subject e ≠ p) → about p tr = [].
Proof.
  intros Hne. unfold about. induction tr as [|e tr IH]; [done|].
  rewrite filter_cons, decide_False by (apply Hne; by left).
  apply IH. intros e' He'. apply Hne. by right.
Qed.

Lemma outcome_Pending c : outcome c = Pending ↔ terminal c = false.
Proof. unfold outcome, terminal. by destruct (connected c), (aborted c). Qed.

Lemma outcome_terminal c : outcome c ≠ Pending ↔ terminal c = true.
Proof. unfold outcome, terminal. by destruct (connected c), (aborted c). Qed.

(** ** KillAll *)

Lemma KillAll_lookup (l : list nat) (h : gmap nat TCPConnecter) p :
  foldl (λ h iter, alter set_killed iter h) h l !! p =
  if decide (p ∈ l) then set_killed <$> h !! p else h !! p.
Proof.
  revert h. induction l as [|x l IH]; intros h; cbn [foldl].
  - rewrite decide_False; [done|]. apply not_elem_of_nil.
  - rewrite IH, lookup_alter.
    destruct (decide (p ∈ l)) as [Hin|Hout], (decide (x = p)) as [->|Hne].
    + rewrite decide_True by (by left). by destruct (h !! p).
    + rewrite decide_True by (by right). done.
    + rewrite decide_True by (by left). done.
    + rewrite decide_False; [done|]. by intros [->|?]%elem_of_cons.
Qed.

(** Claim C4.  [KillAll] sets [killed] on every registered connecter,
    whatever its flags, and changes nothing else: the registry, the started
    threads and the trace (so no socket is closed and no object deleted)
    are the same, each object keeps its flags [connected] and [aborted],
    its socket and its address, the objects that are not registered keep
    [killed] too, no object appears or disappears, and on an empty registry
    nothing changes at all. *)
Theorem C4_KillAll_marks_only st :
  _tcp_connecters (KillAll st) = _tcp_connecters st ∧
  trace (KillAll st) = trace st ∧
  threads (KillAll st) = threads st ∧
  next_ptr (KillAll st) = next_ptr st ∧
  (∀ p, heap st !! p = None → heap (KillAll st) !! p = None) ∧
  (∀ p c, heap st !! p = Some c →
     ∃ c', heap (KillAll st) !! p = Some c' ∧
           killed c' = (if decide (p ∈ _tcp_connecters st) then true else killed c) ∧
           connected c' = connected c ∧ aborted c' = aborted c ∧
           sock c' = sock c ∧ address c' = address c) ∧
  (_tcp_connecters st = [] → KillAll st = st).
Proof.
  split_and!; try done.
  - intros p Hp. unfold KillAll; simpl. rewrite KillAll_lookup, Hp. by case_decide.
  - intros p c Hc. unfold KillAll; simpl. rewrite KillAll_lookup, Hc.
    case_decide; simpl; eauto 10.
  - intros Hnil. destruct st as [reg h ts nx tr]. simpl in Hnil. by subst reg.
Qed.

(** ** Well-formed states *)

Lemma wf_new addr st : wf st → wf (TCPConnecter_new addr st).
Proof.
  intros (Hnd & Hlive & Hlt). rewrite TCPConnecter_new_shape.
  unfold wf; simpl. split_and!.
  - apply NoDup_app. split_and!; [done| |apply NoDup_singleton].
    intros p Hp ->%list_elem_of_singleton.
    specialize (Hlt _ (Hlive _ Hp)). lia.
  - intros p [Hp| ->%list_elem_of_singleton]%elem_of_app.
    + rewrite lookup_insert_ne; [by apply Hlive|].
      specialize (Hlt _ (Hlive _ Hp)). lia.
    + by rewrite lookup_insert_eq.
  - intros p Hp. rewrite lookup_insert in Hp. case_decide; [lia|].
    specialize (Hlt _ Hp). lia.
Qed.

Section Invariants.
Hypothesis HErase : Erase_spec.

Lemma wf_reaped i cur c n st st' :
  wf st → _tcp_connecters st !! i = Some cur → reaped i cur c n st st' → wf st'.
Proof.
  intros (Hnd & Hlive & Hlt) Hi (Hr & Hn & _ & _ & Hold & Hnew).
  assert (cur < next_ptr st) as Hcur.
  { apply Hlt, Hlive. by eapply list_elem_of_lookup_2. }
  destruct (Erase_NoDup HErase _ _ _ Hi Hnd) as [Hnotin Hnd'].
  unfold wf. rewrite Hr, Hn. split_and!.
  - apply NoDup_app. split_and!; [done| |apply NoDup_seq].
    intros p Hp Hp'%elem_of_seq.
    apply (Erase_elem_of HErase _ _ _ _ Hi), Hlive, Hlt in Hp. lia.
  - intros p [Hp|Hp%elem_of_seq]%elem_of_app.
    + assert (p ≠ cur) by (by intros ->).
      apply (Erase_elem_of HErase _ _ _ _ Hi) in Hp.
      specialize (Hlt _ (Hlive _ Hp)).
      rewrite Hold by lia. case_decide; [done|]. by apply Hlive.
    + destruct (Hnew p) as [addr ->]; [lia|lia|done].
  - intros p Hp.
    destruct (decide (next_ptr st ≤ p < next_ptr st + n)) as [?|Hout]; [lia|].
    rewrite Hold in Hp by done. case_decide; [by destruct Hp|].
    specialize (Hlt _ Hp). lia.
Qed.

Section AnyHandlers.
Variable OnConnect : TCPConnecter_ptr → SOCKET → State → list NetworkAddress.
Variable OnFailure : TCPConnecter_ptr → State → list NetworkAddress.

Local Abbreviation loop := (CheckCallbacks_loop OnConnect OnFailure).

(** From a well-formed state the loop reads live pointers only. *)
Lemma loop_defined fuel i st :
  wf st → ∃ st', final (loop fuel i st) = Some st' ∧ wf st'.
Proof.
  intros Hwf.
  assert (loop_post (λ _ st, wf st) (loop fuel i st)) as Hinv.
  { apply loop_inv; [|done|done]. intros i0 st0 cur c Hw Hi Hc _.
    eapply wf_reaped; [done|exact Hi|apply reap_shape]. }
  destruct (loop fuel i st) as [st'|i' st'|]; simpl in *.
  - destruct Hinv as (_ & ? & _). eauto.
  - eauto.
  - destruct Hinv as (i' & st' & cur & (_ & Hlive & _) & Hi & Hc).
    destruct (Hlive cur) as [c Hc']; [by eapply list_elem_of_lookup_2|].
    congruence.
Qed.


(** A finished connecter that the iterator has not passed is reaped by the
    time the loop ends, in one turn (claims C1 and C2, for any handlers). *)
Lemma loop_terminal_reaped p c fuel i st st' :
  wf st → p ∈ drop i (_tcp_connecters st) → heap st !! p = Some c → terminal c = true →
  loop fuel i st = Done st' →
  (p ∉ _tcp_connecters st') ∧ heap st' !! p = None ∧
  ∃ evs seen, trace st' = trace st ++ evs ∧ about p evs = reap_events p c seen ∧ (p ∉ seen).
Proof.
  intros Hwf Hp Hc Ht Hdone.
  set (I := λ (j : nat) st1, wf st1 ∧ p < next_ptr st1 ∧
    ∃ evs, trace st1 = trace st ++ evs ∧
      ((p ∈ drop j (_tcp_connecters st1) ∧ heap st1 !! p = Some c ∧ about p evs = []) ∨
       ((p ∉ _tcp_connecters st1) ∧ heap st1 !! p = None ∧
        ∃ seen, about p evs = reap_events p c seen ∧ (p ∉ seen)))).
  assert (loop_post I (loop fuel i st)) as Hinv.
  { apply loop_inv.
    - clear Hwf Hp Hc Hdone. subst I.
      intros j st1 cur c1 (Hwf & Hlt & evs & Htr & Hcase) Hi Hc1 Ht1.
      pose proof (reap_shape OnConnect OnFailure j cur c1 st1) as Hshape.
      pose proof (wf_reaped _ _ _ _ _ _ Hwf Hi Hshape) as Hwf'.
      destruct Hshape as (Hr & Hn & _ & Htr' & Hold & _).
      destruct Hwf as (Hnd & Hlive & Hnext).
      destruct (Erase_NoDup HErase _ _ _ Hi Hnd) as [Hnotin _].
      split_and!; [done|lia|].
      exists (evs ++ reap_events cur c1 (Erase j (_tcp_connecters st1))).
      split; [by rewrite Htr', Htr, app_assoc|].
      rewrite about_app, about_reap_events, Hr, Hold by lia.
      destruct Hcase as [(Hin & Hc & Hev)|(Hout & Hc & Hev)].
      + rewrite Hev. destruct (decide (cur = p)) as [->|Hne].
        * right. split_and!; [|done|].
          -- intros [?|?%elem_of_seq]%elem_of_app; [done|lia].
          -- assert (c1 = c) as -> by congruence. eauto.
        * left. split_and!; [|done..].
          rewrite (Erase_drop HErase) by done. apply elem_of_app. left.
          rewrite (drop_S _ cur) in Hin by done.
          apply elem_of_cons in Hin. by destruct Hin.
      + destruct (decide (cur = p)) as [->|Hne].
        { exfalso. apply Hout. by eapply list_elem_of_lookup_2. }
        rewrite app_nil_r. right. split_and!; [|done..].
        intros [?%(Erase_elem_of HErase _ _ cur)|?%elem_of_seq]%elem_of_app; [done|done|lia].
    - clear Hwf Hp Hc Hdone. subst I.
      intros j st1 cur c1 (Hwf & Hlt & evs & Htr & Hcase) Hi Hc1 Ht1.
      split_and!; [done..|]. exists evs. split; [done|].
      destruct Hcase as [(Hin & Hc & Hev)|?]; [left|by right].
      split_and!; [|done..].
      rewrite (drop_S _ cur) in Hin by done.
      apply elem_of_cons in Hin. destruct Hin as [->|?]; [|done]. congruence.
    - subst I. split_and!; [done| |].
      + destruct Hwf as (_ & _ & Hlt). apply Hlt. by eexists.
      + exists []. rewrite app_nil_r. split; [done|]. left. done. }
  rewrite Hdone in Hinv. simpl in Hinv.
  destruct Hinv as (i' & (_ & _ & evs & Htr & Hcase) & Hend).
  destruct Hcase as [(Hin & _)|(? & ? & seen & ? & ?)].
  - rewrite drop_ge in Hin by (by apply lookup_ge_None). by apply elem_of_nil in Hin.
  - eauto 10.
Qed.

(** The loop only erases registered connecters and only deletes objects:
    what is registered and older than the run was registered before, and
    the objects older than the run are as they were. *)
Lemma loop_frame fuel i st st' :
  final (loop fuel i st) = Some st' →
  next_ptr st ≤ next_ptr st' ∧
  (∀ p, p ∈ _tcp_connecters st' → p < next_ptr st → p ∈ _tcp_connecters st) ∧
  (∀ p c, p < next_ptr st → heap st' !! p = Some c → heap st !! p = Some c).
Proof.
  set (I := λ st1, next_ptr st ≤ next_ptr st1 ∧
    (∀ p, p ∈ _tcp_connecters st1 → p < next_ptr st → p ∈ _tcp_connecters st) ∧
    (∀ p c, p < next_ptr st → heap st1 !! p = Some c → heap st !! p = Some c)).
  apply (loop_inv_final OnConnect OnFailure I); [|done].
  subst I. intros j st1 cur c1 (Hle & Hreg & Hheap) Hi Hc1 _.
  destruct (reap_shape OnConnect OnFailure j cur c1 st1) as (Hr & Hn & _ & _ & Hold & _).
  split_and!; [lia| |].
  - intros p Hp Hlt. rewrite Hr in Hp.
    apply elem_of_app in Hp as [Hp|Hp%elem_of_seq]; [|lia].
    apply Hreg; [|done]. by eapply Erase_elem_of.
  - intros p c Hlt Hc. rewrite Hold in Hc by lia.
    case_decide; [done|]. by apply Hheap.
Qed.

End AnyHandlers.

(** ** Handlers that construct nothing *)

Local Abbreviation quiet_loop := (CheckCallbacks_loop (λ _ _ _, []) (λ _ _, [])).

Lemma reap_quiet_shape i cur c st :
  reaped i cur c 0 st (reap (λ _ _ _, []) (λ _ _, []) i cur c st).
Proof.
  pose proof (reap_shape (λ _ _ _, []) (λ _ _, []) i cur c st) as Hshape.
  unfold reap_news in Hshape.
  by destruct ((connected c || aborted c) && killed c), (connected c).
Qed.

Lemma quiet_loop_Done fuel i st :
  wf st → length (_tcp_connecters st) ≤ i + fuel → ∃ st', quiet_loop fuel i st = Done st'.
Proof.
  revert i st. induction fuel as [|fuel IH]; intros i st Hwf Hlen.
  - exists st. apply loop_end, lookup_ge_None. lia.
  - destruct (_tcp_connecters st !! i) as [cur|] eqn:Hi.
    2: { exists st. by apply loop_end. }
    destruct Hwf as (Hnd & Hlive & Hlt).
    destruct (Hlive cur) as [c Hc]; [by eapply list_elem_of_lookup_2|].
    pose proof (conj Hnd (conj Hlive Hlt) : wf st) as Hwf.
    destruct (terminal c) eqn:Ht.
    + erewrite loop_reap by done.
      pose proof (reap_quiet_shape i cur c st) as Hshape.
      apply IH; [by eapply wf_reaped|].
      destruct Hshape as (-> & _). rewrite length_app; simpl.
      pose proof (Erase_length HErase _ _ _ Hi). lia.
    + erewrite loop_skip by done. apply IH; [done|lia].
Qed.

Lemma CheckCallbacks_Done st : wf st → ∃ st', CheckCallbacks st = Done st' ∧ wf st'.
Proof.
  intros Hwf. destruct (quiet_loop_Done (length (_tcp_connecters st)) 0 st) as [st' Hst'];
    [done|lia|].
  exists st'. split; [done|].
  destruct (loop_defined (λ _ _ _, []) (λ _ _, []) (length (_tcp_connecters st)) 0 st Hwf)
    as (st2 & Hfin & Hwf2).
  unfold CheckCallbacks in *. rewrite Hst' in Hfin. simpl in Hfin. congruence.
Qed.

(** With such handlers no connecter is constructed and no thread started. *)
Lemma quiet_loop_same fuel i st st' :
  final (quiet_loop fuel i st) = Some st' →
  next_ptr st' = next_ptr st ∧ threads st' = threads st.
Proof.
  set (I := λ st1, next_ptr st1 = next_ptr st ∧ threads st1 = threads st).
  apply (loop_inv_final _ _ I); [|done].
  subst I. intros j st1 cur c1 (Hn & Hth) _ _ _.
  destruct (reap_quiet_shape j cur c1 st1) as (_ & Hn' & Hth' & _).
  simpl in Hth'. rewrite Hn', Hth', Hn, Hth, app_nil_r. split; [lia|done].
Qed.

(** ** CheckCallbacks: the claims *)

Lemma CheckCallbacks_notifies st p c :
  wf st → p ∈ _tcp_connecters st → heap st !! p = Some c →
  terminal c = true → killed c = false →
  ∃ st' evs seen,
    CheckCallbacks st = Done st' ∧ trace st' = trace st ++ evs ∧
    about p evs =
      (if connected c then [EvOnConnect p (sock c) seen; EvDelete p]
       else [EvOnFailure p seen; EvDelete p]) ∧
    (p ∉ seen) ∧ (p ∉ _tcp_connecters st') ∧ heap st' !! p = None.
Proof.
  intros Hwf Hp Hc Hterm Hk.
  destruct (CheckCallbacks_Done st Hwf) as (st' & Hdone & _).
  destruct (loop_terminal_reaped _ _ p c _ 0 st st' Hwf Hp Hc Hterm Hdone)
    as (Hnotin & Hgone & evs & seen & Htr & Hev & Hseen).
  exists st', evs, seen. rewrite Hev.
  unfold reap_events. rewrite Hk, andb_false_r. done.
Qed.

(** Claim C1.  For a registered connecter [p] that has finished and is not
    killed, [CheckCallbacks] ends, and of the events it adds to the trace
    those about [p] are one handler call followed by the delete: [OnConnect]
    with the socket of [p] when [p] is connected, [OnFailure] when it is
    aborted.  So [p] occurs once among the handler calls of this run, and
    afterwards it is neither registered nor live. *)
Theorem C1_finished_notified_once st p c :
  wf st → p ∈ _tcp_connecters st → heap st !! p = Some c →
  outcome c ≠ Pending → killed c = false →
  ∃ st' evs seen,
    CheckCallbacks st = Done st' ∧ trace st' = trace st ++ evs ∧
    about p evs =
      match outcome c with
      | Connected => [EvOnConnect p (sock c) seen; EvDelete p]
      | Aborted => [EvOnFailure p seen; EvDelete p]
      | Pending => []
      end ∧
    filter (λ q, q = p) (notified evs) = [p] ∧
    (p ∉ _tcp_connecters st') ∧ heap st' !! p = None.
Proof.
  intros Hwf Hp Hc Hterm Hk. apply outcome_terminal in Hterm.
  destruct (CheckCallbacks_notifies st p c Hwf Hp Hc Hterm Hk)
    as (st' & evs & seen & Hdone & Htr & Hev & _ & Hnotin & Hgone).
  exists st', evs, seen. rewrite notified_about, Hev.
  unfold outcome, terminal in *.
  destruct (connected c), (aborted c); simpl in *; done.
Qed.



End Invariants.

(** ** Connect and the objects *)

Lemma Connect_Pending c :
  outcome c = Pending →
  (sock (Connect c) ≠ INVALID_SOCKET ∧ outcome (Connect c) = Connected ∧
   aborted (Connect c) = false) ∨
  (sock (Connect c) = INVALID_SOCKET ∧ outcome (Connect c) = Aborted ∧
   connected (Connect c) = false).
Proof.
  unfold outcome, Connect. intros Hp.
  destruct (connected c) eqn:Hc; [done|]. destruct (aborted c) eqn:Ha; [done|].
  destruct (NetworkAddress_Connect (address c) =? INVALID_SOCKET)%Z eqn:Hs; simpl.
  - right. by apply Z.eqb_eq in Hs.
  - left. by apply Z.eqb_neq in Hs.
Qed.

Lemma Connect_sound c : outcome c = Pending → sound (Connect c).
Proof.
  intros Hp. unfold sound.
  destruct (Connect_Pending c Hp) as [(Hs & Ho & Ha)|(Hs & Ho & Hc)];
    unfold outcome in Ho.
  - destruct (connected (Connect c)); [done|]. by destruct (aborted (Connect c)).
  - rewrite Hc. split; [|done]. split; [done|]. done.
Qed.

Lemma initial_sound addr : sound (initial addr) ∧ outcome (initial addr) = Pending.
Proof. unfold sound, initial, outcome; simpl. split; [|done]. split; [|done]. split; done. Qed.

Lemma constructed_sound p addr :
  sound (constructed p addr) ∧
  (ThreadObject_New p = true → outcome (constructed p addr) = Pending).
Proof.
  unfold constructed. destruct (ThreadObject_New p).
  - split; [apply initial_sound|]. intros _. apply initial_sound.
  - split; [|done]. apply Connect_sound, initial_sound.
Qed.

Lemma sound_iff c : sound c → (sock c ≠ INVALID_SOCKET ↔ outcome c = Connected).
Proof.
  intros [Hs _]. rewrite Hs. unfold outcome.
  destruct (connected c); [done|]. by destruct (aborted c).
Qed.

(** ** The invariant of the subsystem *)

Lemma sys_inv_initial : sys_inv initial_state.
Proof.
  unfold sys_inv, initial_state; simpl. split_and!.
  - intros p c Hc. by rewrite lookup_empty in Hc.
  - intros p Hp. by apply elem_of_nil in Hp.
  - apply NoDup_nil_2.
Qed.

Lemma sys_inv_new addr st : sys_inv st → sys_inv (TCPConnecter_new addr st).
Proof.
  intros (Hobj & Hth & Hnd). rewrite TCPConnecter_new_shape.
  unfold sys_inv; simpl. split_and!.
  - intros p c Hc. rewrite lookup_insert in Hc. case_decide.
    + subst p. injection Hc as <-. split; [lia|]. apply constructed_sound.
    + destruct (Hobj _ _ Hc). split; [lia|done].
  - intros p [Hp|Hp]%elem_of_app.
    + destruct (Hth _ Hp) as (c & Hc & Hpend). exists c. split; [|done].
      rewrite lookup_insert_ne; [done|]. destruct (Hobj _ _ Hc). lia.
    + destruct (ThreadObject_New (next_ptr st)) eqn:Hnew;
        [|by apply elem_of_nil in Hp].
      apply list_elem_of_singleton in Hp as ->.
      eexists. split; [apply lookup_insert_eq|].
      by apply constructed_sound.
  - apply NoDup_app. split_and!; [done| |].
    + intros p Hp Hp'. destruct (Hth _ Hp) as (c & Hc & _). destruct (Hobj _ _ Hc) as [Hlt _].
      destruct (ThreadObject_New (next_ptr st)); [|by apply elem_of_nil in Hp'].
      apply list_elem_of_singleton in Hp'. lia.
    + destruct (ThreadObject_New (next_ptr st)); [apply NoDup_singleton|apply NoDup_nil_2].
Qed.

Lemma sys_inv_thread p st : sys_inv st → p ∈ threads st → sys_inv (run_thread p st).
Proof.
  intros (Hobj & Hth & Hnd) Hp. unfold sys_inv, run_thread, ThreadEntry; simpl. split_and!.
  - intros q c Hc. rewrite lookup_alter in Hc. case_decide.
    + subst q. destruct (Hth _ Hp) as (c0 & Hc0 & Hpend). rewrite Hc0 in Hc.
      injection Hc as <-. destruct (Hobj _ _ Hc0). split; [done|]. by apply Connect_sound.
    + by apply Hobj.
  - intros q [Hne Hq]%list_elem_of_filter. rewrite lookup_alter_ne by done. by apply Hth.
  - by apply NoDup_filter.
Qed.

Lemma sys_inv_KillAll st : sys_inv st → sys_inv (KillAll st).
Proof.
  intros (Hobj & Hth & Hnd). unfold sys_inv, KillAll; simpl. split_and!; [| |done].
  - intros p c. rewrite KillAll_lookup. case_decide; [|by apply Hobj].
    destruct (heap st !! p) as [c0|] eqn:Hc0; [|done]. simpl. intros [= <-].
    destruct (Hobj _ _ Hc0). by split.
  - intros p Hp. destruct (Hth _ Hp) as (c & Hc & Hpend).
    rewrite KillAll_lookup, Hc. case_decide; simpl; eauto.
Qed.

Lemma sys_inv_reaped i cur c n st st' :
  sys_inv st → heap st !! cur = Some c → terminal c = true →
  reaped i cur c n st st' → sys_inv st'.
Proof.
  intros (Hobj & Hth & Hnd) Hc Ht (_ & Hn & Hth' & _ & Hold & Hnew).
  destruct (Hobj _ _ Hc) as [Hcur _].
  unfold sys_inv. rewrite Hn, Hth'. split_and!.
  - intros p c' Hc'.
    destruct (decide (next_ptr st ≤ p < next_ptr st + n)) as [Hin|Hout].
    + destruct (Hnew p Hin) as [addr Hp]; [lia|].
      rewrite Hp in Hc'. injection Hc' as <-. split; [lia|]. apply constructed_sound.
    + rewrite Hold in Hc' by done. case_decide; [done|].
      destruct (Hobj _ _ Hc'). split; [lia|done].
  - intros p [Hp|Hp]%elem_of_app.
    + destruct (Hth _ Hp) as (c' & Hc' & Hpend). exists c'. split; [|done].
      destruct (Hobj _ _ Hc'). rewrite Hold by lia.
      rewrite decide_False; [done|]. intros ->.
      apply outcome_Pending in Hpend. congruence.
    + apply list_elem_of_filter in Hp as [Hspawn Hp%elem_of_seq].
      destruct (Hnew p Hp) as [addr Hc']; [lia|].
      eexists. split; [done|]. by apply constructed_sound.
  - apply NoDup_app. split_and!; [done| |apply NoDup_filter, NoDup_seq].
    intros p Hp [_ Hp'%elem_of_seq]%list_elem_of_filter.
    destruct (Hth _ Hp) as (c' & Hc' & _). destruct (Hobj _ _ Hc'). lia.
Qed.

Section AnyHandlers.
Variable OnConnect : TCPConnecter_ptr → SOCKET → State → list NetworkAddress.
Variable OnFailure : TCPConnecter_ptr → State → list NetworkAddress.

Local Abbreviation loop := (CheckCallbacks_loop OnConnect OnFailure).

Lemma sys_inv_loop fuel i st st' :
  sys_inv st → final (loop fuel i st) = Some st' → sys_inv st'.
Proof.
  apply (loop_inv_final OnConnect OnFailure sys_inv).
  intros j st1 cur c1 Hinv1 _ Hc1 Ht1.
  eapply sys_inv_reaped; [done..|apply reap_shape].
Qed.

(** The loop deletes objects and constructs new ones; an object older than
    the run that is live afterwards is as it was. *)
Lemma loop_heap_frame fuel i st st' :
  final (loop fuel i st) = Some st' →
  next_ptr st ≤ next_ptr st' ∧
  (∀ p c, p < next_ptr st → heap st' !! p = Some c → heap st !! p = Some c).
Proof.
  set (I := λ st1, next_ptr st ≤ next_ptr st1 ∧
    (∀ p c, p < next_ptr st → heap st1 !! p = Some c → heap st !! p = Some c)).
  apply (loop_inv_final OnConnect OnFailure I); [|done].
  subst I. intros j st1 cur c1 (Hle & Hheap) Hi Hc1 _.
  destruct (reap_shape OnConnect OnFailure j cur c1 st1) as (_ & Hn & _ & _ & Hold & _).
  split; [lia|].
  intros p c Hlt Hc. rewrite Hold in Hc by lia.
  case_decide; [done|]. by apply Hheap.
Qed.

End AnyHandlers.

Lemma sys_inv_step st st' : sys_inv st → step st st' → sys_inv st'.
Proof.
  intros Hinv Hstep. destruct Hstep as [addr st|p st Hp|st|OnC OnF fuel st st' Hdone].
  - by apply sys_inv_new.
  - by apply sys_inv_thread.
  - by apply sys_inv_KillAll.
  - eapply (sys_inv_loop OnC OnF fuel 0); [done|]. by rewrite Hdone.
Qed.

Lemma sys_inv_steps st st' : sys_inv st → rtc step st st' → sys_inv st'.
Proof. intros Hinv Hsteps. induction Hsteps; eauto using sys_inv_step. Qed.

Lemma reachable_sys_inv st : reachable st → sys_inv st.
Proof. apply sys_inv_steps, sys_inv_initial. Qed.

(** An object that is live after a step was live before, and when it had
    finished before, its flags and its socket are the same. *)
Lemma step_frame st st' :
  sys_inv st → step st st' →
  next_ptr st ≤ next_ptr st' ∧
  ∀ p c', p < next_ptr st → heap st' !! p = Some c' →
    ∃ c, heap st !! p = Some c ∧
         (outcome c ≠ Pending →
          connected c' = connected c ∧ aborted c' = aborted c ∧ sock c' = sock c).
Proof.
  intros (Hobj & Hth & Hnd) Hstep.
  destruct Hstep as [addr st|q st Hq|st|OnC OnF fuel st st' Hdone].
  - rewrite TCPConnecter_new_shape; simpl. split; [lia|].
    intros p c' Hlt Hc'. rewrite lookup_insert_ne in Hc' by lia. eauto.
  - unfold run_thread, ThreadEntry; simpl. split; [done|].
    intros p c' Hlt Hc'. rewrite lookup_alter in Hc'. case_decide; [|eauto].
    subst p. destruct (Hth _ Hq) as (c & Hc & Hpend). rewrite Hc in Hc'.
    exists c. split; [done|]. by intros [].
  - unfold KillAll; simpl. split; [done|].
    intros p c'. rewrite KillAll_lookup. intros Hlt Hc'. case_decide; [|eauto].
    destruct (heap st !! p) as [c|]; [|done]. injection Hc' as <-. eauto.
  - destruct (loop_heap_frame OnC OnF fuel 0 st st') as [Hle Hheap]; [by rewrite Hdone|].
    split; [done|]. intros p c' Hlt Hc'. exists c'. split; [|done]. by apply Hheap.
Qed.

Lemma steps_frame st st' :
  sys_inv st → rtc step st st' →
  next_ptr st ≤ next_ptr st' ∧
  ∀ p c', p < next_ptr st → heap st' !! p = Some c' →
    ∃ c, heap st !! p = Some c ∧
         (outcome c ≠ Pending →
          connected c' = connected c ∧ aborted c' = aborted c ∧ sock c' = sock c).
Proof.
  intros Hinv Hsteps. induction Hsteps as [st|st y z Hstep Hsteps IH].
  - split; [done|]. eauto.
  - destruct (step_frame _ _ Hinv Hstep) as [Hle1 Hf1].
    destruct (IH (sys_inv_step _ _ Hinv Hstep)) as [Hle2 Hf2].
    split; [lia|]. intros p c' Hlt Hc'.
    destruct (Hf2 p c') as (cy & Hcy & Hsame2); [lia|done|].
    destruct (Hf1 p cy Hlt Hcy) as (c & Hc & Hsame1).
    exists c. split; [done|]. intros Hterm.
    destruct (Hsame1 Hterm) as (Hc1 & Ha1 & Hs1).
    assert (outcome cy ≠ Pending) as Hterm'.
    { unfold outcome in *. by rewrite Hc1, Ha1. }
    destruct (Hsame2 Hterm') as (Hc2 & Ha2 & Hs2).
    by rewrite Hc2, Ha2, Hs2.
Qed.

(** Claim C8.  [Connect] takes a connecter with neither flag set to one
    with exactly one flag set; a thread that has still to run [Connect]
    finds its connecter with neither flag set, so [Connect] runs on no
    connecter twice; and once a live connecter has a flag set, its flags
    stay as they are through every further step of the subsystem. *)
Theorem C8_outcome_assigned_once :
  (∀ c, outcome c = Pending →
     (outcome (Connect c) = Connected ∧ aborted (Connect c) = false) ∨
     (outcome (Connect c) = Aborted ∧ connected (Connect c) = false)) ∧
  (∀ st p, reachable st → p ∈ threads st →
     ∃ c, heap st !! p = Some c ∧ outcome c = Pending) ∧
  (∀ st st' p c c', reachable st → rtc step st st' →
     heap st !! p = Some c → outcome c ≠ Pending → heap st' !! p = Some c' →
     connected c' = connected c ∧ aborted c' = aborted c ∧ outcome c' = outcome c).
Proof.
  split_and!.
  - intros c Hp. destruct (Connect_Pending c Hp) as [(_ & ? & ?)|(_ & ? & ?)]; eauto.
  - intros st p Hreach Hp. destruct (reachable_sys_inv st Hreach) as (_ & Hth & _). eauto.
  - intros st st' p c c' Hreach Hsteps Hc Hterm Hc'.
    pose proof (reachable_sys_inv st Hreach) as Hinv.
    destruct (steps_frame st st' Hinv Hsteps) as [_ Hframe].
    destruct Hinv as (Hobj & _). destruct (Hobj _ _ Hc) as [Hlt _].
    destruct (Hframe p c' Hlt Hc') as (c0 & Hc0 & Hsame).
    assert (c0 = c) as -> by congruence.
    destruct (Hsame Hterm) as (Hco & Hab & _).
    unfold outcome. by rewrite Hco, Hab.
Qed.

(** ** Well-formed states, continued *)

Lemma wf_thread p st : wf st → wf (run_thread p st).
Proof.
  intros (Hnd & Hlive & Hlt). unfold wf, run_thread, ThreadEntry; simpl. split_and!.
  - done.
  - intros q Hq. apply lookup_alter_is_Some. by apply Hlive.
  - intros q Hq%lookup_alter_is_Some. by apply Hlt.
Qed.

Lemma wf_KillAll st : wf st → wf (KillAll st).
Proof.
  intros (Hnd & Hlive & Hlt). unfold wf, KillAll; simpl. split_and!.
  - done.
  - intros q Hq. rewrite KillAll_lookup. destruct (Hlive q Hq) as [c ->].
    case_decide; by eexists.
  - intros q. rewrite KillAll_lookup. intros Hq. apply Hlt.
    destruct (heap st !! q); [by eexists|]. case_decide; by destruct Hq.
Qed.

Section Claims.
Hypothesis HErase : Erase_spec.

Lemma wf_step st st' : wf st → step st st' → wf st'.
Proof.
  intros Hwf Hstep. destruct Hstep as [addr st|p st Hp|st|OnC OnF fuel st st' Hdone].
  - by apply wf_new.
  - by apply wf_thread.
  - by apply wf_KillAll.
  - destruct (loop_defined HErase OnC OnF fuel 0 st Hwf) as (st2 & Hfin & Hwf2).
    rewrite Hdone in Hfin. simpl in Hfin. congruence.
Qed.

Lemma reachable_wf st : reachable st → wf st.
Proof.
  apply (rtc_ind_r (λ st, wf st) initial_state); [|by eauto using wf_step].
  unfold wf, initial_state; simpl. split_and!.
  - apply NoDup_nil_2.
  - intros p Hp. by apply elem_of_nil in Hp.
  - intros p [c Hc]. by rewrite lookup_empty in Hc.
Qed.

(** The loop only adds to the trace. *)
Lemma loop_trace_grows OnConnect OnFailure fuel i st st' :
  final (CheckCallbacks_loop OnConnect OnFailure fuel i st) = Some st' →
  ∃ evs, trace st' = trace st ++ evs.
Proof.
  apply (loop_inv_final OnConnect OnFailure (λ st1, ∃ evs, trace st1 = trace st ++ evs)).
  - intros j st1 cur c1 [evs Htr] _ _ _.
    destruct (reap_shape OnConnect OnFailure j cur c1 st1) as (_ & _ & _ & Htr' & _).
    eexists. by rewrite Htr', Htr, <- app_assoc.
  - exists []. by rewrite app_nil_r.
Qed.


(** Claim C6.  When no thread could be started for the new connecter, the
    constructor has run [Connect] itself: on return the connecter is
    registered, no thread is waiting for it, and it is connected, with the
    socket that [NetworkAddress::Connect] gave, or aborted when that was
    [INVALID_SOCKET]; the [CheckCallbacks] that follows calls its handler. *)
Theorem C6_constructor_connects_without_thread addr st :
  wf st → ThreadObject_New (next_ptr st) = false →
  let this := next_ptr st in
  let st1 := TCPConnecter_new addr st in
  this ∈ _tcp_connecters st1 ∧ threads st1 = threads st ∧
  ∃ c, heap st1 !! this = Some c ∧
       sock c = NetworkAddress_Connect addr ∧ killed c = false ∧
       outcome c = (if (NetworkAddress_Connect addr =? INVALID_SOCKET)%Z
                    then Aborted else Connected) ∧
       ∃ st2 evs seen,
         CheckCallbacks st1 = Done st2 ∧ trace st2 = trace st1 ++ evs ∧
         about this evs =
           match outcome c with
           | Connected => [EvOnConnect this (sock c) seen; EvDelete this]
           | _ => [EvOnFailure this seen; EvDelete this]
           end.
Proof.
  intros Hwf Hnew this st1. subst this.
  pose proof (wf_new addr st Hwf) as Hwf1. fold st1 in Hwf1.
  assert (next_ptr st ∈ _tcp_connecters st1) as Hin.
  { subst st1. rewrite TCPConnecter_new_shape; simpl. apply elem_of_app. right. by left. }
  assert (heap st1 !! next_ptr st = Some (Connect (initial addr))) as Hc.
  { subst st1. rewrite TCPConnecter_new_shape; simpl. rewrite lookup_insert_eq.
    unfold constructed. by rewrite Hnew. }
  split; [done|]. split.
  { subst st1. rewrite TCPConnecter_new_shape; simpl. by rewrite Hnew, app_nil_r. }
  exists (Connect (initial addr)). split; [done|].
  assert (outcome (Connect (initial addr)) =
          (if (NetworkAddress_Connect addr =? INVALID_SOCKET)%Z then Aborted else Connected))
    as Hout.
  { unfold Connect, initial, outcome; simpl.
    by destruct (NetworkAddress_Connect addr =? INVALID_SOCKET)%Z. }
  assert (killed (Connect (initial addr)) = false) as Hk.
  { unfold Connect, initial; simpl.
    by destruct (NetworkAddress_Connect addr =? INVALID_SOCKET)%Z. }
  assert (sock (Connect (initial addr)) = NetworkAddress_Connect addr) as Hs.
  { unfold Connect, initial; simpl.
    by destruct (NetworkAddress_Connect addr =? INVALID_SOCKET)%Z. }
  split_and!; [done..|].
  assert (outcome (Connect (initial addr)) ≠ Pending) as Hterm.
  { rewrite Hout. by destruct (NetworkAddress_Connect addr =? INVALID_SOCKET)%Z. }
  apply outcome_terminal in Hterm.
  destruct (CheckCallbacks_notifies HErase st1 _ _ Hwf1 Hin Hc Hterm Hk)
    as (st2 & evs & seen & Hdone & Htr & Hev & _).
  exists st2, evs, seen. split_and!; [done..|].
  rewrite Hev. unfold outcome, terminal in *.
  by destruct (connected (Connect (initial addr))), (aborted (Connect (initial addr))).
Qed.

End Claims.

End Facts.

(** ** The order of the notifications under an erase that keeps the order

    With [Erase_preserving_order] in the place of [SmallVector::Erase] the
    connecters are notified in the order of the registry. *)

Lemma filter_ext_elem {A} (P Q : A → Prop) `{∀ x, Decision (P x)} `{∀ x, Decision (Q x)}
    (l : list A) :
  (∀ x, x ∈ l → P x ↔ Q x) → filter P l = filter Q l.
Proof.
  induction l as [|x l IH]; intros Hext; [done|].
  rewrite !filter_cons. rewrite IH by (intros y Hy; apply Hext; by right).
  destruct (decide (P x)) as [HP|HP], (decide (Q x)) as [HQ|HQ]; try done.
  - destruct HQ. apply Hext; [by left|done].
  - destruct HP. apply Hext; [by left|done].
Qed.

Lemma before_split {A} (a b : A) l :
  before a b l ↔ ∃ l1 l2 l3, l = l1 ++ a :: l2 ++ b :: l3.
Proof.
  split.
  - intros (i & j & Hlt & Hi & Hj).
    exists (take i l), (take (j - S i) (drop (S i) l)), (drop (S (j - S i)) (drop (S i) l)).
    rewrite (take_drop_middle _ (j - S i) b).
    + by rewrite take_drop_middle.
    + rewrite lookup_drop. by replace (S i + (j - S i)) with j by lia.
  - intros (l1 & l2 & l3 & ->).
    exists (length l1), (length (l1 ++ a :: l2)). split_and!.
    + rewrite length_app; simpl; lia.
    + by apply list_lookup_middle.
    + replace (l1 ++ a :: l2 ++ b :: l3) with ((l1 ++ a :: l2) ++ b :: l3)
        by (by rewrite <- app_assoc).
      by apply list_lookup_middle.
Qed.

Lemma before_filter {A} (P : A → Prop) `{∀ x, Decision (P x)} a b l :
  before a b l → P a → P b → before a b (filter P l).
Proof.
  intros (l1 & l2 & l3 & ->)%before_split Ha Hb. apply before_split.
  exists (filter P l1), (filter P l2), (filter P l3).
  rewrite filter_app, filter_cons, decide_True by done.
  by rewrite filter_app, filter_cons, decide_True by done.
Qed.

Section OrderPreserving.
Context `{Collaborators}.
Hypothesis Erase_keeps_order : ∀ i l, Erase i l = Erase_preserving_order i l.

Lemma quiet_loop_in_order todo : ∀ pre st fuel,
  wf st → _tcp_connecters st = pre ++ todo → length todo ≤ fuel →
  ∃ st' evs,
    CheckCallbacks_loop (λ _ _ _, []) (λ _ _, []) fuel (length pre) st = Done st' ∧
    trace st' = trace st ++ evs ∧
    notified evs = filter (λ p, notifiable (heap st) p = true) todo.
Proof.
  pose proof (Erase_preserving_order_spec Erase_keeps_order) as HErase.
  induction todo as [|x rest IH]; intros pre st fuel Hwf Hreg Hlen.
  - exists st, []. rewrite app_nil_r. split; [|done].
    apply loop_end. rewrite Hreg, app_nil_r. by apply lookup_ge_None.
  - destruct fuel as [|fuel]; [simpl in Hlen; lia|].
    assert (_tcp_connecters st !! length pre = Some x) as Hi
      by (rewrite Hreg; by apply list_lookup_middle).
    destruct Hwf as (Hnd & Hlive & Hlt).
    destruct (Hlive x) as [c Hc]; [by eapply list_elem_of_lookup_2|].
    pose proof (conj Hnd (conj Hlive Hlt) : wf st) as Hwf.
    assert (notifiable (heap st) x = terminal c && negb (killed c)) as Hnx
      by (unfold notifiable; by rewrite Hc).
    rewrite filter_cons.
    destruct (terminal c) eqn:Ht.
    + erewrite loop_reap by done.
      pose proof (reap_quiet_shape (length pre) x c st) as Hshape.
      pose proof (wf_reaped HErase _ _ _ _ _ _ Hwf Hi Hshape) as Hwf1.
      destruct Hshape as (Hr & _ & _ & Htr & Hold & _).
      set (st1 := reap _ _ _ _ _ _) in *.
      assert (_tcp_connecters st1 = pre ++ rest) as Hreg1.
      { rewrite Hr, app_nil_r, Erase_keeps_order, Hreg. unfold Erase_preserving_order.
        rewrite take_app_length. f_equal.
        replace (pre ++ x :: rest) with ((pre ++ [x]) ++ rest) by (by rewrite <- app_assoc).
        rewrite drop_app_length'; [done|]. rewrite length_app; simpl; lia. }
      destruct (IH pre st1 fuel Hwf1 Hreg1) as (st' & evs & Hdone & Htr' & Hnot);
        [simpl in Hlen; lia|].
      exists st', (reap_events x c (Erase (length pre) (_tcp_connecters st)) ++ evs).
      split_and!; [done|by rewrite Htr', Htr, <- app_assoc|].
      rewrite notified_app, notified_reap_events, Hnot.
      assert (filter (λ p, notifiable (heap st1) p = true) rest =
              filter (λ p, notifiable (heap st) p = true) rest) as ->.
      { apply filter_ext_elem. intros q Hq. unfold notifiable.
        assert (q ≠ x) as Hne.
        { intros ->. rewrite Hreg in Hnd. apply NoDup_app in Hnd as (_ & _ & Hnd).
          by apply NoDup_cons in Hnd as [? _]. }
        assert (q < next_ptr st) as Hq'.
        { apply Hlt, Hlive. rewrite Hreg. apply elem_of_app. right. by right. }
        rewrite Hold by lia. by rewrite decide_False. }
      unfold terminal in Ht. rewrite Ht. simpl in *.
      destruct (killed c); simpl in *.
      * by rewrite decide_False by (by rewrite Hnx).
      * by rewrite decide_True by (by rewrite Hnx).
    + erewrite loop_skip by done.
      destruct (IH (pre ++ [x]) st fuel Hwf) as (st' & evs & Hdone & Htr' & Hnot).
      { by rewrite <- app_assoc. }
      { simpl in Hlen; lia. }
      rewrite length_app in Hdone. simpl in Hdone.
      replace (length pre + 1) with (S (length pre)) in Hdone by lia.
      exists st', evs. split_and!; [done..|].
      by rewrite decide_False by (by rewrite Hnx).
Qed.

(** Under such an erase the ordering of the specification holds. *)
Lemma Erase_preserving_order_notifies_in_order st :
  wf st → notified_in_registry_order st.
Proof.
  intros Hwf st' evs a b Hdone Htr Hbefore Ha Hb.
  destruct (quiet_loop_in_order (_tcp_connecters st) [] st (length (_tcp_connecters st)))
    as (st2 & evs2 & Hdone2 & Htr2 & Hnot); [done..|].
  unfold CheckCallbacks in Hdone. simpl in Hdone2. rewrite Hdone in Hdone2.
  injection Hdone2 as <-. rewrite Htr in Htr2. apply app_inv_head in Htr2 as <-.
  rewrite Hnot in Ha, Hb |- *.
  apply list_elem_of_filter in Ha as [Ha _]. apply list_elem_of_filter in Hb as [Hb _].
  by apply before_filter.
Qed.

End OrderPreserving.

(** ** The order of the notifications under the erase of [SmallVector]

    When all registered connecters have finished and none is killed, the
    first is notified first and the others follow from the last to the
    second: each erase brings the last item under the iterator. *)

Section SmallVectorOrder.
Context `{Collaborators}.
Hypothesis Erase_moves_last : ∀ i l, Erase i l = SmallVector_Erase i l.

Lemma quiet_loop_all_finished fuel : ∀ pre todo st,
  wf st → _tcp_connecters st = pre ++ todo → length todo ≤ fuel →
  (∀ p, p ∈ todo → notifiable (heap st) p = true) →
  ∃ st' evs,
    CheckCallbacks_loop (λ _ _ _, []) (λ _ _, []) fuel (length pre) st = Done st' ∧
    trace st' = trace st ++ evs ∧
    notified evs = match todo with [] => [] | x :: rest => x :: reverse rest end.
Proof.
  pose proof (SmallVector_Erase_spec Erase_moves_last) as HErase.
  induction fuel as [|fuel IH]; intros pre todo st Hwf Hreg Hlen Hall.
  - destruct todo; [|simpl in Hlen; lia].
    exists st, []. rewrite app_nil_r. split; [|done].
    apply loop_end. rewrite Hreg, app_nil_r. by apply lookup_ge_None.
  - destruct todo as [|x rest].
    { exists st, []. rewrite app_nil_r. split; [|done].
      apply loop_end. rewrite Hreg, app_nil_r. by apply lookup_ge_None. }
    assert (_tcp_connecters st !! length pre = Some x) as Hi
      by (rewrite Hreg; by apply list_lookup_middle).
    pose proof (Hall x ltac:(by left)) as Hx. unfold notifiable in Hx.
    destruct (heap st !! x) as [c|] eqn:Hc; [|done].
    apply andb_true_iff in Hx as [Ht Hk]. apply negb_true_iff in Hk.
    erewrite loop_reap by done.
    pose proof (reap_quiet_shape (length pre) x c st) as Hshape.
    pose proof (wf_reaped HErase _ _ _ _ _ _ Hwf Hi Hshape) as Hwf1.
    destruct Hshape as (Hr & _ & _ & Htr & Hold & _).
    set (st1 := reap _ _ _ _ _ _) in *.
    assert (notified (reap_events x c (Erase (length pre) (_tcp_connecters st))) = [x])
      as Hnx by (rewrite notified_reap_events; by rewrite Ht, Hk).
    assert (∀ q, q ∈ rest → notifiable (heap st1) q = true) as Hall1.
    { intros q Hq. destruct Hwf as (Hnd & Hlive & Hlt).
      assert (q ≠ x) as Hne.
      { intros ->. rewrite Hreg in Hnd. apply NoDup_app in Hnd as (_ & _ & Hnd).
        by apply NoDup_cons in Hnd as [? _]. }
      assert (q < next_ptr st) as Hq'.
      { apply Hlt, Hlive. rewrite Hreg. apply elem_of_app. right. by right. }
      unfold notifiable. rewrite Hold by lia. rewrite decide_False by done.
      apply (Hall q). by right. }
    destruct (decide (rest = [])) as [->|Hne].
    + assert (_tcp_connecters st1 = pre ++ []) as Hreg1.
      { by rewrite Hr, Erase_moves_last, Hreg, SmallVector_Erase_last, !app_nil_r. }
      destruct (IH pre [] st1 Hwf1 Hreg1) as (st' & evs & Hdone & Htr' & Hnot);
        [simpl; lia|done|].
      exists st', (reap_events x c (Erase (length pre) (_tcp_connecters st)) ++ evs).
      split_and!; [done|by rewrite Htr', Htr, <- app_assoc|].
      by rewrite notified_app, Hnx, Hnot.
    + destruct (exists_last Hne) as [init [y Heq]]; subst rest.
      assert (_tcp_connecters st1 = pre ++ y :: init) as Hreg1.
      { by rewrite Hr, Erase_moves_last, Hreg, SmallVector_Erase_snoc, app_nil_r. }
      destruct (IH pre (y :: init) st1 Hwf1 Hreg1) as (st' & evs & Hdone & Htr' & Hnot).
      { simpl in Hlen. rewrite length_app in Hlen. simpl in *. lia. }
      { intros q Hq. apply Hall1. apply elem_of_cons in Hq as [->|Hq];
          apply elem_of_app; [right; by left|by left]. }
      exists st', (reap_events x c (Erase (length pre) (_tcp_connecters st)) ++ evs).
      split_and!; [done|by rewrite Htr', Htr, <- app_assoc|].
      by rewrite notified_app, Hnx, Hnot, reverse_snoc.
Qed.

Lemma SmallVector_all_finished_order st x rest :
  wf st → _tcp_connecters st = x :: rest →
  (∀ p, p ∈ x :: rest → notifiable (heap st) p = true) →
  ∃ st' evs,
    CheckCallbacks st = Done st' ∧ trace st' = trace st ++ evs ∧
    notified evs = x :: reverse rest.
Proof.
  intros Hwf Hreg Hall. unfold CheckCallbacks.
  by apply (quiet_loop_all_finished (length (_tcp_connecters st)) [] (x :: rest) st);
    [| |rewrite Hreg|].
Qed.

End SmallVectorOrder.

(** ** Whole runs: what stays true from step to step *)

Section Runs.
Context `{Collaborators}.
Implicit Types (st : State) (p cur : nat) (c : TCPConnecter).

(** The cases of the events of one turn. *)
Ltac turn_cases c :=
  destruct ((connected c || aborted c) && killed c) eqn:?;
  [destruct (sock c =? INVALID_SOCKET)%Z eqn:? | destruct (connected c) eqn:?].

Lemma constructed_Pending p addr :
  outcome (constructed p addr) = Pending → ThreadObject_New p = true.
Proof.
  unfold constructed. destruct (ThreadObject_New p); [done|].
  intros Hp. by destruct (Connect_Pending (initial addr)) as [(_ & Ho & _)|(_ & Ho & _)];
    [apply initial_sound|rewrite Hp in Ho..].
Qed.

Lemma deleted_app (tr1 tr2 : list Event) : deleted (tr1 ++ tr2) = deleted tr1 ++ deleted tr2.
Proof. unfold deleted. by rewrite filter_app, fmap_app. Qed.

Lemma deleted_reap_events cur c seen : deleted (reap_events cur c seen) = [cur].
Proof. unfold deleted, reap_events. turn_cases c; done. Qed.

Lemma elem_of_deleted p (tr : list Event) : p ∈ deleted tr ↔ EvDelete p ∈ tr.
Proof.
  unfold deleted. split.
  - intros (e & -> & [He Hin]%list_elem_of_filter)%list_elem_of_fmap. by destruct e.
  - intros Hin. apply list_elem_of_fmap. exists (EvDelete p). split; [done|].
    by apply list_elem_of_filter.
Qed.

Lemma elem_of_about p e (tr : list Event) : e ∈ about p tr ↔ e ∈ tr ∧ subject e = p.
Proof. unfold about. rewrite list_elem_of_filter. tauto. Qed.

(** *** Every live object is registered *)

Lemma all_registered_new addr st : all_registered st → all_registered (TCPConnecter_new addr st).
Proof.
  intros Hall p. rewrite TCPConnecter_new_shape; simpl.
  rewrite lookup_insert. case_decide as Hp.
  - intros _. subst p. apply elem_of_app. right. by left.
  - intros Hlive. apply elem_of_app. left. by apply Hall.
Qed.

Lemma all_registered_thread p st : all_registered st → all_registered (run_thread p st).
Proof.
  intros Hall q. unfold run_thread, ThreadEntry; simpl.
  intros Hq%lookup_alter_is_Some. by apply Hall.
Qed.

Lemma all_registered_KillAll st : all_registered st → all_registered (KillAll st).
Proof.
  intros Hall q. unfold KillAll; simpl. rewrite KillAll_lookup. intros Hq. apply Hall.
  destruct (heap st !! q); [by eexists|]. case_decide; by destruct Hq.
Qed.

Lemma all_registered_reaped (HErase : Erase_spec) i cur c n st st' :
  all_registered st → _tcp_connecters st !! i = Some cur → reaped i cur c n st st' →
  all_registered st'.
Proof.
  intros Hall Hi (Hr & _ & _ & _ & Hold & _) p Hlive. rewrite Hr. apply elem_of_app.
  destruct (decide (next_ptr st ≤ p < next_ptr st + n)) as [Hin|Hout].
  - right. by apply elem_of_seq.
  - left. rewrite Hold in Hlive by done. case_decide as Hp; [by destruct Hlive|].
    eapply Erase_elem_of_ne; [done..|by apply Hall|done].
Qed.

(** *** A connecter with neither flag set has its thread still to run *)

Lemma pending_have_thread_new addr st :
  pending_have_thread st → pending_have_thread (TCPConnecter_new addr st).
Proof.
  intros Hpt p c. rewrite TCPConnecter_new_shape; simpl.
  rewrite lookup_insert. case_decide as Hp.
  - intros [= <-] Hpend%constructed_Pending. subst p. rewrite Hpend.
    apply elem_of_app. right. by left.
  - intros Hc Hpend. apply elem_of_app. left. by eapply Hpt.
Qed.

Lemma pending_have_thread_thread p st :
  sys_inv st → p ∈ threads st → pending_have_thread st → pending_have_thread (run_thread p st).
Proof.
  intros (_ & Hth & _) Hp Hpt q c. unfold run_thread, ThreadEntry; simpl.
  rewrite lookup_alter. case_decide as Hq.
  - subst q. destruct (Hth _ Hp) as (c0 & -> & Hpend0). intros [= <-] Hpend.
    destruct (Connect_Pending c0 Hpend0) as [(_ & Ho & _)|(_ & Ho & _)];
      by rewrite Hpend in Ho.
  - intros Hc Hpend. apply list_elem_of_filter. split; [done|]. by eapply Hpt.
Qed.

Lemma pending_have_thread_KillAll st :
  pending_have_thread st → pending_have_thread (KillAll st).
Proof.
  intros Hpt q c. unfold KillAll; simpl. rewrite KillAll_lookup.
  case_decide; [|by apply Hpt].
  destruct (heap st !! q) as [c0|] eqn:Hc0; [|done]. intros [= <-] Hpend.
  by eapply Hpt.
Qed.

Lemma pending_have_thread_reaped i cur c n st st' :
  sys_inv st → heap st !! cur = Some c →
  pending_have_thread st → reaped i cur c n st st' → pending_have_thread st'.
Proof.
  intros (Hobj & _) Hc Hpt (_ & _ & Hth' & _ & Hold & Hnew) p c' Hc' Hpend.
  destruct (Hobj _ _ Hc) as [Hcur _]. rewrite Hth'. apply elem_of_app.
  destruct (decide (next_ptr st ≤ p < next_ptr st + n)) as [Hin|Hout].
  - right. destruct (Hnew p Hin) as [addr Hp]; [lia|].
    rewrite Hp in Hc'. injection Hc' as <-.
    apply list_elem_of_filter. split; [by eapply constructed_Pending|by apply elem_of_seq].
  - left. rewrite Hold in Hc' by done. case_decide; [done|]. by eapply Hpt.
Qed.

(** *** The trace *)

Lemma trace_inv_new addr st : trace_inv st → trace_inv (TCPConnecter_new addr st).
Proof.
  intros (Hdead & Hrest). rewrite TCPConnecter_new_shape. split; [|done]. simpl.
  intros e He. destruct (Hdead e He) as [Hnone Hlt]. split; [|lia].
  rewrite lookup_insert_ne; [done|lia].
Qed.

Lemma trace_inv_thread p st : trace_inv st → trace_inv (run_thread p st).
Proof.
  intros (Hdead & Hrest). split; [|done]. unfold run_thread, ThreadEntry; simpl.
  intros e He. destruct (Hdead e He) as [Hnone Hlt]. split; [|done].
  rewrite lookup_alter, Hnone. by case_decide; [subst; rewrite Hnone|].
Qed.

Lemma trace_inv_KillAll st : trace_inv st → trace_inv (KillAll st).
Proof.
  intros (Hdead & Hrest). split; [|done]. unfold KillAll; simpl.
  intros e He. destruct (Hdead e He) as [Hnone Hlt]. split; [|done].
  rewrite KillAll_lookup, Hnone. by case_decide.
Qed.

Lemma trace_inv_reaped (HErase : Erase_spec) i cur c n st st' :
  wf st → sys_inv st →
  _tcp_connecters st !! i = Some cur → heap st !! cur = Some c → terminal c = true →
  trace_inv st → reaped i cur c n st st' → trace_inv st'.
Proof.
  intros (Hnd1 & _ & _) (Hobj & _) Hi Hc Ht (Hdead & Hnd & Hndd & Hab)
         (_ & Hn & _ & Htr & Hold & _).
  destruct (Hobj _ _ Hc) as [Hcur Hsound].
  destruct (Erase_NoDup HErase _ _ _ Hi Hnd1) as [Hnotin _].
  assert (∀ e, e ∈ trace st → subject e ≠ cur) as Hfresh.
  { intros e He Heq. destruct (Hdead e He) as [Hnone _]. congruence. }
  unfold trace_inv. rewrite Htr, Hn. split_and!.
  - intros e [He|He]%elem_of_app.
    + destruct (Hdead e He) as [Hnone Hlt]. split; [|lia].
      rewrite Hold by lia. by case_decide.
    + apply subject_reap_events in He as ->. split; [|lia].
      rewrite Hold by lia. by rewrite decide_True.
  - rewrite notified_app, notified_reap_events.
    destruct ((connected c || aborted c) && killed c); [by rewrite app_nil_r|].
    apply NoDup_app. split_and!; [done| |apply NoDup_singleton].
    intros q (e & He & Hsub)%elem_of_notified ->%list_elem_of_singleton.
    by apply (Hfresh e).
  - rewrite deleted_app, deleted_reap_events.
    apply NoDup_app. split_and!; [done| |apply NoDup_singleton].
    intros q Hq%elem_of_deleted ->%list_elem_of_singleton.
    by apply (Hfresh (EvDelete cur)).
  - intros q. rewrite about_app, about_reap_events.
    destruct (decide (cur = q)) as [->|Hne].
    + right. rewrite (about_nil q (trace st)) by done. eauto 10.
    + rewrite app_nil_r. apply Hab.
Qed.

(** *** All of it, in every state the subsystem reaches *)

Section Reached.
Hypothesis HErase : Erase_spec.

Lemma run_inv_step st st' : run_inv st → step st st' → run_inv st'.
Proof.
  intros (Hwf & Hsys & Hall & Hpt & Htr) Hstep.
  destruct Hstep as [addr st|p st Hp|st|OnC OnF fuel st st' Hdone].
  - split_and!; [by apply wf_new|by apply sys_inv_new|by apply all_registered_new|
                 by apply pending_have_thread_new|by apply trace_inv_new].
  - split_and!; [by apply wf_thread|by apply sys_inv_thread|by apply all_registered_thread|
                 by apply pending_have_thread_thread|by apply trace_inv_thread].
  - split_and!; [by apply wf_KillAll|by apply sys_inv_KillAll|by apply all_registered_KillAll|
                 by apply pending_have_thread_KillAll|by apply trace_inv_KillAll].
  - apply (loop_inv_final OnC OnF run_inv) with fuel 0 st; [|done|by rewrite Hdone].
    clear Hwf Hsys Hall Hpt Htr. intros j st1 cur c1 (Hwf & Hsys & Hall & Hpt & Htr) Hi Hc1 Ht1.
    pose proof (reap_shape OnC OnF j cur c1 st1) as Hshape.
    split_and!.
    + by eapply wf_reaped.
    + by eapply sys_inv_reaped.
    + by eapply all_registered_reaped.
    + by eapply pending_have_thread_reaped.
    + by eapply trace_inv_reaped.
Qed.

Lemma run_inv_initial : run_inv initial_state.
Proof.
  split_and!.
  - by apply reachable_wf, rtc_refl.
  - apply sys_inv_initial.
  - intros p [c Hc]. simpl in Hc. by rewrite lookup_empty in Hc.
  - intros p c Hc. simpl in Hc. by rewrite lookup_empty in Hc.
  - unfold trace_inv, initial_state; simpl. split_and!.
    + intros e He. by apply elem_of_nil in He.
    + apply NoDup_nil_2.
    + apply NoDup_nil_2.
    + intros p. by left.
Qed.

Lemma reachable_run_inv st : reachable st → run_inv st.
Proof.
  apply (rtc_ind_r (λ st, run_inv st) initial_state); [apply run_inv_initial|].
  eauto using run_inv_step.
Qed.

End Reached.

End Runs.

(** ** CheckCallbacks and KillAll, one after the other *)

Section Composition.
Context `{Collaborators}.
Implicit Types (st : State) (p cur : nat) (c : TCPConnecter).



Lemma Connect_set_killed c : Connect (set_killed c) = set_killed (Connect c).
Proof.
  unfold Connect, set_killed; simpl.
  by destruct (NetworkAddress_Connect (address c) =? INVALID_SOCKET)%Z.
Qed.

Lemma set_killed_idemp c : set_killed (set_killed c) = set_killed c.
Proof. done. Qed.

(** Property X3.  [KillAll] a second time changes nothing, and [KillAll]
    and the thread of a connecter do not get in each other's way: whether
    the thread runs [Connect] before [KillAll] or after it, the state is
    the same. *)
Theorem X3_KillAll_idempotent_and_commutes_with_thread st p :
  KillAll (KillAll st) = KillAll st ∧
  KillAll (run_thread p st) = run_thread p (KillAll st).
Proof.
  destruct st as [reg h ts nx tr]. unfold KillAll, run_thread, ThreadEntry, set_heap,
    set_threads; simpl. split; f_equal; apply map_eq; intros q.
  - rewrite !KillAll_lookup. case_decide; [|done].
    destruct (h !! q); simpl; by rewrite ?set_killed_idemp.
  - rewrite KillAll_lookup, !lookup_alter, KillAll_lookup.
    destruct (decide (p = q)) as [->|Hne].
    + case_decide; [|done]. destruct (h !! q); simpl; [|done].
      by rewrite Connect_set_killed.
    + by rewrite KillAll_lookup.
Qed.

Section WithErase.
Hypothesis HErase : Erase_spec.



(** Property X5.  A connecter that got a thread: the constructor leaves it
    registered behind all others, with neither flag set, the socket
    invalid, not killed, and its thread outstanding; once the thread has
    run, the next [CheckCallbacks] calls [OnConnect] with the socket that
    [NetworkAddress::Connect] gave, or [OnFailure] when that was
    [INVALID_SOCKET], and deletes the connecter. *)
Theorem X5_constructor_with_thread addr st :
  wf st → ThreadObject_New (next_ptr st) = true →
  let this := next_ptr st in
  let st1 := TCPConnecter_new addr st in
  let st2 := run_thread this st1 in
  _tcp_connecters st1 = _tcp_connecters st ++ [this] ∧
  heap st1 !! this = Some (initial addr) ∧
  threads st1 = threads st ++ [this] ∧
  ∃ st3 evs seen,
    CheckCallbacks st2 = Done st3 ∧ trace st3 = trace st2 ++ evs ∧
    about this evs =
      (if (NetworkAddress_Connect addr =? INVALID_SOCKET)%Z
       then [EvOnFailure this seen; EvDelete this]
       else [EvOnConnect this (NetworkAddress_Connect addr) seen; EvDelete this]) ∧
    (this ∉ _tcp_connecters st3) ∧ heap st3 !! this = None.
Proof.
  intros Hwf Hnew this st1 st2. subst this.
  assert (st1 = mkState (_tcp_connecters st ++ [next_ptr st])
                        (<[next_ptr st := initial addr]> (heap st))
                        (threads st ++ [next_ptr st]) (S (next_ptr st)) (trace st)) as Hst1.
  { subst st1. rewrite TCPConnecter_new_shape. unfold constructed. by rewrite Hnew. }
  assert (wf st2) as Hwf2 by (by apply wf_thread, wf_new).
  split_and!; [by rewrite Hst1|by rewrite Hst1; simpl; rewrite lookup_insert_eq|
               by rewrite Hst1|].
  assert (next_ptr st ∈ _tcp_connecters st2) as Hin.
  { subst st2. rewrite Hst1. simpl. apply elem_of_app. right. by left. }
  assert (heap st2 !! next_ptr st = Some (Connect (initial addr))) as Hc.
  { subst st2. rewrite Hst1. unfold run_thread, ThreadEntry; simpl.
    by rewrite lookup_alter_eq, lookup_insert_eq. }
  destruct (CheckCallbacks_notifies HErase st2 _ (Connect (initial addr)) Hwf2 Hin Hc)
    as (st3 & evs & seen & Hdone & Htr & Hev & _ & Hout & Hgone).
  { unfold Connect, initial, terminal; simpl.
    by destruct (NetworkAddress_Connect addr =? INVALID_SOCKET)%Z. }
  { unfold Connect, initial; simpl.
    by destruct (NetworkAddress_Connect addr =? INVALID_SOCKET)%Z. }
  exists st3, evs, seen. split_and!; [done..| |done|done].
  rewrite Hev. unfold Connect, initial; simpl.
  by destruct (NetworkAddress_Connect addr =? INVALID_SOCKET)%Z.
Qed.

End WithErase.

End Composition.

(** ** Every state the subsystem reaches *)

Section Life.
Context `{Collaborators}.

Section Reached.
Hypothesis HErase : Erase_spec.

(** Property X9.  When no thread is outstanding, one [CheckCallbacks]
    deletes every connecter: the registry and the heap are empty
    afterwards. *)
Theorem X9_all_threads_ended_poll_deletes_all st :
  reachable st → threads st = [] →
  ∃ st' evs,
    CheckCallbacks st = Done st' ∧ trace st' = trace st ++ evs ∧
    _tcp_connecters st' = [] ∧ heap st' = ∅ ∧
    ∀ p, p ∈ _tcp_connecters st → EvDelete p ∈ evs.
Proof.
  intros Hreach Hnone.
  destruct (reachable_run_inv HErase st Hreach) as (Hwf & _ & _ & Hpt & _).
  destruct (CheckCallbacks_Done HErase st Hwf) as (st' & Hdone & Hwf').
  assert (reachable st') as Hreach'.
  { eapply rtc_r; [apply Hreach|]. by eapply step_CheckCallbacks. }
  destruct (reachable_run_inv HErase st' Hreach') as (_ & _ & Hall' & _).
  assert (final (CheckCallbacks st) = Some st') as Hfin by (by rewrite Hdone).
  unfold CheckCallbacks in Hfin, Hdone.
  destruct (loop_trace_grows _ _ _ _ _ _ Hfin) as [evs Htr].
  assert (∀ p c, heap st !! p = Some c → terminal c = true) as Hterm.
  { intros p c Hc. destruct (terminal c) eqn:Ht; [done|].
    apply outcome_Pending in Ht. pose proof (Hpt p c Hc Ht) as Hp.
    rewrite Hnone in Hp. by apply elem_of_nil in Hp. }
  assert (_tcp_connecters st' = []) as Hreg.
  { destruct (_tcp_connecters st') as [|p reg'] eqn:Hreg'; [done|]. exfalso.
    assert (p ∈ _tcp_connecters st') as Hp' by (rewrite Hreg'; by left).
    destruct (quiet_loop_same _ _ _ _ Hfin) as [Hnext _].
    destruct (loop_frame HErase _ _ _ _ _ _ Hfin) as (_ & Hold & _).
    destruct Hwf' as (_ & Hlive' & Hlt').
    assert (p ∈ _tcp_connecters st) as Hp.
    { apply Hold; [done|]. rewrite <- Hnext. by apply Hlt', Hlive'. }
    destruct Hwf as (Hnd & Hlive & Hlt). destruct (Hlive p Hp) as [c Hc].
    pose proof (conj Hnd (conj Hlive Hlt) : wf st) as Hwf.
    destruct (loop_terminal_reaped HErase _ _ p c _ 0 st st' Hwf Hp Hc (Hterm p c Hc) Hdone)
      as (Hnotin & _). done. }
  exists st', evs. split_and!; [done..| |].
  - apply map_empty. intros p. destruct (heap st' !! p) as [c|] eqn:Hc; [|done].
    assert (p ∈ _tcp_connecters st') as Hp by (apply Hall'; by eexists).
    rewrite Hreg in Hp. by apply elem_of_nil in Hp.
  - intros p Hp. destruct Hwf as (Hnd & Hlive & Hlt). destruct (Hlive p Hp) as [c Hc].
    pose proof (conj Hnd (conj Hlive Hlt) : wf st) as Hwf.
    destruct (loop_terminal_reaped HErase _ _ p c _ 0 st st' Hwf Hp Hc (Hterm p c Hc) Hdone)
      as (_ & _ & evs' & seen & Htr' & Hev & _).
    rewrite Htr in Htr'. apply app_inv_head in Htr' as <-.
    assert (EvDelete p ∈ about p evs) as Hin.
    { rewrite Hev. apply elem_of_deleted. rewrite deleted_reap_events. by left. }
    by apply elem_of_about in Hin as [? _].
Qed.

(** When the loop has ended every connecter that is registered is
    unfinished, the ones that handlers have constructed included. *)
Lemma loop_leaves_only_unfinished
    (OnConnect : TCPConnecter_ptr → SOCKET → State → list NetworkAddress)
    (OnFailure : TCPConnecter_ptr → State → list NetworkAddress) fuel st st' :
  wf st → CheckCallbacks_loop OnConnect OnFailure fuel 0 st = Done st' →
  ∀ p, p ∈ _tcp_connecters st' → ∃ c, heap st' !! p = Some c ∧ outcome c = Pending.
Proof.
  intros Hwf Hdone.
  set (I := λ (i : nat) st1, wf st1 ∧
    ∀ j p, j < i → _tcp_connecters st1 !! j = Some p →
           ∃ c, heap st1 !! p = Some c ∧ terminal c = false).
  assert (loop_post I (CheckCallbacks_loop OnConnect OnFailure fuel 0 st)) as Hpost.
  { apply loop_inv.
    - clear Hwf Hdone. subst I. intros i st1 cur c1 (Hwf & Hbefore) Hi Hc1 Ht1.
      pose proof (reap_shape OnConnect OnFailure i cur c1 st1) as Hshape.
      split; [by eapply wf_reaped|].
      destruct Hshape as (Hr & _ & _ & _ & Hold & _).
      destruct (Erase_at HErase _ _ _ Hi) as (post & Herase & _).
      intros j p Hj Hp. rewrite Hr, Herase, <- app_assoc in Hp.
      assert (j < length (take i (_tcp_connecters st1))) as Hjlen.
      { rewrite length_take_le; [done|]. apply lookup_lt_Some in Hi. lia. }
      rewrite lookup_app_l, lookup_take_lt in Hp by done.
      destruct (Hbefore j p Hj Hp) as (c & Hc & Ht). exists c. split; [|done].
      destruct Hwf as (Hnd & _ & Hlt).
      assert (p < next_ptr st1) as Hplt by (apply Hlt; by eexists).
      rewrite Hold by lia. rewrite decide_False; [done|].
      intros <-. assert (i = j) by (by eapply NoDup_lookup). lia.
    - clear Hwf Hdone. subst I. intros i st1 cur c1 (Hwf & Hbefore) Hi Hc1 Ht1.
      split; [done|]. intros j p Hj Hp.
      destruct (decide (j = i)) as [->|Hne]; [|apply (Hbefore j p); [lia|done]].
      assert (p = cur) as -> by congruence. eauto.
    - subst I. split; [done|]. intros j p Hj. lia. }
  rewrite Hdone in Hpost. destruct Hpost as (i' & (_ & Hbefore) & Hend).
  intros p (j & Hj)%list_elem_of_lookup_1.
  apply lookup_ge_None in Hend. pose proof (lookup_lt_Some _ _ _ Hj) as Hlt.
  destruct (Hbefore j p ltac:(lia) Hj) as (c & Hc & Ht).
  exists c. split; [done|]. by apply outcome_Pending.
Qed.

End Reached.

End Life.

(** * The threads and the iterator, step by step: facts *)

Section FineFacts.
Context `{Collaborators} `{Allocation}.

(** ** The steps of a thread *)

Lemma store_flag_store_sock c : store_flag (store_sock c) = Connect c.
Proof. done. Qed.

Lemma thread_step_frame p fs :
  _tcp_connecters (base (thread_step p fs)) = _tcp_connecters (base fs) ∧
  trace (base (thread_step p fs)) = trace (base fs) ∧
  next_ptr (base (thread_step p fs)) = next_ptr (base fs) ∧
  capacity (thread_step p fs) = capacity fs ∧
  reallocs (thread_step p fs) = reallocs fs.
Proof. unfold thread_step. by repeat case_decide. Qed.

Lemma run_threads_frame ps fs :
  _tcp_connecters (base (run_threads ps fs)) = _tcp_connecters (base fs) ∧
  trace (base (run_threads ps fs)) = trace (base fs) ∧
  next_ptr (base (run_threads ps fs)) = next_ptr (base fs) ∧
  capacity (run_threads ps fs) = capacity fs ∧
  reallocs (run_threads ps fs) = reallocs fs.
Proof.
  revert fs. induction ps as [|p ps IH]; intros fs; [done|].
  unfold run_threads in *. cbn [foldl].
  destruct (IH (thread_step p fs)) as (-> & -> & -> & -> & ->).
  apply thread_step_frame.
Qed.

Lemma run_threads_app ps1 ps2 fs :
  run_threads (ps1 ++ ps2) fs = run_threads ps2 (run_threads ps1 fs).
Proof. apply foldl_app. Qed.

(** A thread writes the object of its own connecter only, and of that
    neither [killed] nor the address; it sets no flag back. *)
Lemma thread_step_lookup p q fs :
  heap (base (thread_step p fs)) !! q =
  if decide (p = q) then
    (if decide (p ∈ threads (base fs)) then store_sock
     else if decide (p ∈ connecting fs) then store_flag else id) <$> heap (base fs) !! q
  else heap (base fs) !! q.
Proof.
  unfold thread_step. repeat case_decide; simpl; subst;
    rewrite ?lookup_alter_eq, ?lookup_alter_ne by done; try done.
  by destruct (heap (base fs) !! q).
Qed.

Lemma thread_step_mono p q c fs :
  heap (base fs) !! q = Some c →
  ∃ c', heap (base (thread_step p fs)) !! q = Some c' ∧
        killed c' = killed c ∧ address c' = address c ∧
        (connected c = true → connected c' = true) ∧
        (aborted c = true → aborted c' = true).
Proof.
  intros Hc. rewrite thread_step_lookup, Hc. case_decide; [|eauto 10].
  repeat case_decide; simpl; eexists; (split; [done|]); unfold store_flag; simpl;
    try destruct (_ =? _)%Z; simpl; eauto.
Qed.

Lemma run_threads_mono ps q c fs :
  heap (base fs) !! q = Some c →
  ∃ c', heap (base (run_threads ps fs)) !! q = Some c' ∧
        killed c' = killed c ∧ address c' = address c ∧
        (connected c = true → connected c' = true) ∧
        (aborted c = true → aborted c' = true).
Proof.
  revert c fs. induction ps as [|p ps IH]; intros c fs Hc; [eauto 10|].
  destruct (thread_step_mono p q c fs Hc) as (c1 & Hc1 & Hk1 & Ha1 & Hco1 & Hab1).
  destruct (IH c1 (thread_step p fs) Hc1) as (c2 & Hc2 & Hk2 & Ha2 & Hco2 & Hab2).
  exists c2. split; [done|]. rewrite Hk2, Ha2. split_and!; [done|done|tauto|tauto].
Qed.

Lemma thread_step_dead p q fs :
  heap (base fs) !! q = None → heap (base (thread_step p fs)) !! q = None.
Proof. intros Hq. rewrite thread_step_lookup, Hq. by case_decide. Qed.

Lemma thread_step_live p q fs :
  is_Some (heap (base (thread_step p fs)) !! q) ↔ is_Some (heap (base fs) !! q).
Proof.
  rewrite thread_step_lookup. case_decide; [|done]. by rewrite fmap_is_Some.
Qed.

(** ** The invariant through the steps of a thread *)

Lemma wf_thread_step p fs : wf (base fs) → wf (base (thread_step p fs)).
Proof.
  intros (Hnd & Hlive & Hlt). destruct (thread_step_frame p fs) as (Hr & _ & Hn & _).
  unfold wf. rewrite Hr, Hn. split_and!; [done| |].
  - intros q Hq. apply thread_step_live. by apply Hlive.
  - intros q Hq%thread_step_live. by apply Hlt.
Qed.

Lemma all_registered_thread_step p fs :
  all_registered (base fs) → all_registered (base (thread_step p fs)).
Proof.
  intros Hall q Hq%thread_step_live.
  destruct (thread_step_frame p fs) as (-> & _). by apply Hall.
Qed.

Lemma trace_inv_thread_step p fs :
  trace_inv (base fs) → trace_inv (base (thread_step p fs)).
Proof.
  intros (Hdead & Hrest). destruct (thread_step_frame p fs) as (_ & Ht & Hn & _).
  unfold trace_inv. rewrite Ht, Hn. split; [|done].
  intros e He. destruct (Hdead e He) as [Hnone Hlt]. split; [|done].
  by apply thread_step_dead.
Qed.

Lemma fsound_thread_step p fs : fsound fs → fsound (thread_step p fs).
Proof.
  intros (Hobj & Hth & Hco). unfold thread_step.
  destruct (decide (p ∈ threads (base fs))) as [Hp|Hp].
  - destruct (Hth p Hp) as (Hpc & c & Hc & Ht & Hs).
    unfold fsound; simpl. split_and!.
    + intros q cq. rewrite lookup_alter. case_decide as Hq.
      * subst q. rewrite Hc. intros [= <-]. simpl. unfold terminal in *; simpl.
        rewrite Ht. split; [done|]. intros _. right. apply elem_of_app. right. by left.
      * intros Hcq. destruct (Hobj q cq Hcq) as [Hfin Hpend]. split.
        -- intros Htq. destruct (Hfin Htq) as (? & Hnt & Hnc). split_and!; [done| |].
           ++ intros [_ ?]%list_elem_of_filter. done.
           ++ intros [?|?%list_elem_of_singleton]%elem_of_app; [done|]. by subst.
        -- intros Htq. destruct (Hpend Htq) as [Hin|Hin].
           ++ left. apply list_elem_of_filter. split; [by intros ->|done].
           ++ right. apply elem_of_app. by left.
    + intros q [Hne Hq]%list_elem_of_filter. destruct (Hth q Hq) as (Hqc & cq & Hcq & ?).
      split.
      * intros [?|?%list_elem_of_singleton]%elem_of_app; [done|]. by subst.
      * exists cq. by rewrite lookup_alter_ne.
    + intros q [Hq|Hq%list_elem_of_singleton]%elem_of_app.
      * destruct (Hco q Hq) as (cq & Hcq & ?). exists cq.
        rewrite lookup_alter_ne; [done|]. intros <-. by destruct (Hth p Hp).
      * subst q. exists (store_sock c). rewrite lookup_alter_eq, Hc. done.
  - destruct (decide (p ∈ connecting fs)) as [Hpc|Hpc]; [|done].
    destruct (Hco p Hpc) as (c & Hc & Ht & Hs).
    assert (connected c = false ∧ aborted c = false) as [Hcf Haf].
    { unfold terminal in Ht. by apply orb_false_iff in Ht. }
    unfold fsound; simpl. split_and!.
    + intros q cq. rewrite lookup_alter. case_decide as Hq.
      * subst q. rewrite Hc. intros [= <-]. split.
        -- intros _. split_and!; [|done|].
           ++ unfold store_flag, sound. destruct (sock c =? INVALID_SOCKET)%Z eqn:Hinv; simpl.
              ** apply Z.eqb_eq in Hinv. rewrite Hcf. split; [|done]. by split.
              ** apply Z.eqb_neq in Hinv. by rewrite Haf.
           ++ intros [Hne _]%list_elem_of_filter. by apply Hne.
        -- unfold store_flag, terminal. by destruct (_ =? _)%Z; simpl; rewrite ?orb_true_r.
      * intros Hcq. destruct (Hobj q cq Hcq) as [Hfin Hpend]. split.
        -- intros Htq. destruct (Hfin Htq) as (? & Hnt & Hnc). split_and!; [done|done|].
           intros [_ ?]%list_elem_of_filter. done.
        -- intros Htq. destruct (Hpend Htq) as [Hin|Hin]; [by left|].
           right. apply list_elem_of_filter. split; [by intros ->|done].
    + intros q Hq. destruct (Hth q Hq) as (Hqc & cq & Hcq & ?). split.
      * intros [_ ?]%list_elem_of_filter. done.
      * exists cq. rewrite lookup_alter_ne; [done|]. by intros <-.
    + intros q [Hne Hq]%list_elem_of_filter. destruct (Hco q Hq) as (cq & Hcq & ?).
      exists cq. by rewrite lookup_alter_ne.
Qed.

Lemma finv_thread_step p fs : finv fs → finv (thread_step p fs).
Proof.
  intros (Hwf & Hall & Hs & Htr).
  split_and!; [by apply wf_thread_step|by apply all_registered_thread_step|
               by apply fsound_thread_step|by apply trace_inv_thread_step].
Qed.

Lemma finv_run_threads ps fs : finv fs → finv (run_threads ps fs).
Proof.
  revert fs. induction ps as [|p ps IH]; intros fs Hinv; [done|].
  apply IH. by apply finv_thread_step.
Qed.

Lemma fsound_run_threads ps fs : fsound fs → fsound (run_threads ps fs).
Proof.
  revert fs. induction ps as [|p ps IH]; intros fs Hinv; [done|].
  apply IH. by apply fsound_thread_step.
Qed.

(** A finished connecter is not written any more. *)
Lemma thread_step_finished p q c fs :
  fsound fs → heap (base fs) !! q = Some c → terminal c = true →
  heap (base (thread_step p fs)) !! q = Some c.
Proof.
  intros (Hobj & _) Hc Ht. destruct (Hobj q c Hc) as [Hfin _].
  destruct (Hfin Ht) as (_ & Hnt & Hnc).
  rewrite thread_step_lookup. case_decide; [|done]. subst q.
  rewrite !decide_False by done. by rewrite Hc.
Qed.

Lemma run_threads_finished ps q c fs :
  fsound fs → heap (base fs) !! q = Some c → terminal c = true →
  heap (base (run_threads ps fs)) !! q = Some c.
Proof.
  revert fs. induction ps as [|p ps IH]; intros fs Hs Hc Ht; [done|].
  apply IH; [by apply fsound_thread_step|by apply thread_step_finished|done].
Qed.

End FineFacts.

Section FineInvariant.
Context `{Collaborators} `{Allocation}.

(** ** The invariant through the functions of the main thread *)

Lemma base_new_fine addr fs :
  base (TCPConnecter_new_fine addr fs) = TCPConnecter_new addr (base fs) ∧
  connecting (TCPConnecter_new_fine addr fs) = connecting fs ∧
  reallocs fs ≤ reallocs (TCPConnecter_new_fine addr fs) ∧
  (reallocs (TCPConnecter_new_fine addr fs) = reallocs fs →
   capacity (TCPConnecter_new_fine addr fs) = capacity fs).
Proof.
  unfold TCPConnecter_new_fine.
  destruct (Append_realloc _ _); simpl; split_and!; try done; lia.
Qed.

Lemma base_news_fine addrs fs :
  base (news_fine addrs fs) = news addrs (base fs) ∧
  connecting (news_fine addrs fs) = connecting fs ∧
  reallocs fs ≤ reallocs (news_fine addrs fs) ∧
  (reallocs (news_fine addrs fs) = reallocs fs → capacity (news_fine addrs fs) = capacity fs).
Proof.
  revert fs. induction addrs as [|a addrs IH]; intros fs; [done|].
  unfold news_fine, news in *. cbn [foldl].
  destruct (IH (TCPConnecter_new_fine a fs)) as (-> & -> & Hle & Hcap).
  destruct (base_new_fine a fs) as (-> & -> & Hle1 & Hcap1).
  split_and!; [done|done|lia|]. intros Heq. rewrite Hcap by lia. apply Hcap1. lia.
Qed.

(** The objects and the threads after the main thread has deleted [dead]
    and constructed [n] connecters. *)
Lemma fsound_shape (dead : option TCPConnecter_ptr) n fs st' cap re :
  fsound fs →
  (∀ p, is_Some (heap (base fs) !! p) → p < next_ptr (base fs)) →
  (∀ p, dead = Some p → (p ∉ threads (base fs)) ∧ (p ∉ connecting fs)) →
  threads st' = threads (base fs) ++
                filter (λ p, ThreadObject_New p = true) (seq (next_ptr (base fs)) n) →
  (∀ p, ¬ (next_ptr (base fs) ≤ p < next_ptr (base fs) + n) →
        heap st' !! p = if decide (dead = Some p) then None else heap (base fs) !! p) →
  (∀ p, next_ptr (base fs) ≤ p < next_ptr (base fs) + n → dead ≠ Some p →
        ∃ addr, heap st' !! p = Some (constructed p addr)) →
  (∀ p, dead = Some p → ¬ (next_ptr (base fs) ≤ p < next_ptr (base fs) + n)) →
  fsound (mkFState st' (connecting fs) cap re).
Proof.
  intros (Hobj & Hth & Hco) Hlt Hdead Hth' Hold Hnew Hdold.
  assert (∀ p, p ∈ connecting fs → p < next_ptr (base fs)) as Hcolt.
  { intros p Hp. destruct (Hco p Hp) as (c & Hc & _). apply Hlt. by eexists. }
  assert (∀ p, p ∈ threads (base fs) → p < next_ptr (base fs)) as Hthlt.
  { intros p Hp. destruct (Hth p Hp) as (_ & c & Hc & _). apply Hlt. by eexists. }
  unfold fsound; simpl. rewrite Hth'. split_and!.
  - intros p c Hc.
    destruct (decide (next_ptr (base fs) ≤ p < next_ptr (base fs) + n)) as [Hin|Hout].
    + assert (dead ≠ Some p) as Hnd by (intros Hd; by apply (Hdold p Hd)).
      destruct (Hnew p Hin Hnd) as [addr Hp]. rewrite Hp in Hc. injection Hc as <-.
      destruct (constructed_sound p addr) as [Hs Hpend]. split.
      * intros Ht. split_and!; [done| |].
        -- intros [Hp'|Hp']%elem_of_app; [apply Hthlt in Hp'; lia|].
           apply list_elem_of_filter in Hp' as [Hnew' _]. apply Hpend in Hnew'.
           apply outcome_Pending in Hnew'. congruence.
        -- intros Hp'%Hcolt. lia.
      * intros Ht%outcome_Pending%constructed_Pending. left. apply elem_of_app. right.
        apply list_elem_of_filter. split; [done|]. by apply elem_of_seq.
    + rewrite Hold in Hc by done. case_decide; [done|].
      destruct (Hobj p c Hc) as [Hfin Hpend]. split.
      * intros Ht. destruct (Hfin Ht) as (? & Hnt & Hnc). split_and!; [done| |done].
        intros [?|Hp'%list_elem_of_filter]%elem_of_app; [done|].
        destruct Hp' as [_ Hp'%elem_of_seq]. lia.
      * intros Ht. destruct (Hpend Ht); [left; apply elem_of_app; by left|by right].
  - intros p [Hp|Hp]%elem_of_app.
    + destruct (Hth p Hp) as (Hpc & c & Hc & Ht & Hs). split; [done|].
      exists c. rewrite Hold by (apply Hthlt in Hp; lia).
      rewrite decide_False; [done|]. intros Hd. by destruct (Hdead p Hd).
    + apply list_elem_of_filter in Hp as [Hp Hin%elem_of_seq]. split.
      * intros Hp'%Hcolt. lia.
      * assert (dead ≠ Some p) as Hnd by (intros Hd; apply (Hdold p Hd); lia).
        destruct (Hnew p ltac:(lia) Hnd) as [addr Hc]. exists (constructed p addr).
        split; [done|]. unfold constructed. by rewrite Hp.
  - intros p Hp. destruct (Hco p Hp) as (c & Hc & Ht & Hs). exists c.
    rewrite Hold by (apply Hcolt in Hp; lia).
    rewrite decide_False; [done|]. intros Hd. by destruct (Hdead p Hd).
Qed.

Lemma finv_new addr fs : finv fs → finv (TCPConnecter_new_fine addr fs).
Proof.
  intros (Hwf & Hall & Hs & Htr).
  destruct (base_new_fine addr fs) as (Hb & Hc & _).
  unfold finv. rewrite Hb. split_and!;
    [by apply wf_new|by apply all_registered_new| |by apply trace_inv_new].
  destruct (news_shape [addr] (base fs)) as (_ & _ & _ & Hth & Hold & Hnew).
  destruct Hwf as (_ & _ & Hlt).
  replace (TCPConnecter_new_fine addr fs) with
    (mkFState (TCPConnecter_new addr (base fs)) (connecting fs)
              (capacity (TCPConnecter_new_fine addr fs))
              (reallocs (TCPConnecter_new_fine addr fs))).
  2: { destruct (TCPConnecter_new_fine addr fs); simpl in *. by subst. }
  apply (fsound_shape None 1).
  - done.
  - done.
  - by intros p [=].
  - exact Hth.
  - intros p Hp. rewrite decide_False by done. by apply Hold.
  - intros p Hp _. by apply Hnew.
  - by intros p [=].
Qed.

Lemma finv_KillAll fs : finv fs → finv (KillAll_fine fs).
Proof.
  intros (Hwf & Hall & (Hobj & Hth & Hco) & Htr).
  split_and!; [by apply wf_KillAll|by apply all_registered_KillAll| |by apply trace_inv_KillAll].
  assert (∀ p c', heap (KillAll (base fs)) !! p = Some c' →
            ∃ c, heap (base fs) !! p = Some c ∧ terminal c' = terminal c ∧
                 sock c' = sock c ∧ address c' = address c ∧ (sound c → sound c')) as Hback.
  { intros p c'. unfold KillAll; simpl. rewrite KillAll_lookup.
    destruct (heap (base fs) !! p) as [c|]; [|by case_decide].
    case_decide; intros [= <-]; exists c; eauto 10. }
  assert (∀ p c, heap (base fs) !! p = Some c →
            ∃ c', heap (KillAll (base fs)) !! p = Some c' ∧ terminal c' = terminal c ∧
                  sock c' = sock c ∧ address c' = address c) as Hforth.
  { intros p c Hc. unfold KillAll; simpl. rewrite KillAll_lookup, Hc.
    case_decide; eexists; eauto. }
  unfold fsound, KillAll_fine; simpl. split_and!.
  - intros p c' Hc'. destruct (Hback p c' Hc') as (c & Hc & Ht & _ & _ & Hs).
    rewrite Ht. destruct (Hobj p c Hc) as [Hfin Hpend]. split; [|done].
    intros Htc. destruct (Hfin Htc) as (? & ? & ?). eauto.
  - intros p Hp. destruct (Hth p Hp) as (Hpc & c & Hc & Ht & Hs). split; [done|].
    destruct (Hforth p c Hc) as (c' & Hc' & Ht' & Hs' & _). exists c'.
    by rewrite Ht', Hs'.
  - intros p Hp. destruct (Hco p Hp) as (c & Hc & Ht & Hs).
    destruct (Hforth p c Hc) as (c' & Hc' & Ht' & Hs' & Ha'). exists c'.
    by rewrite Ht', Hs', Ha'.
Qed.

(** The trace after one turn of the loop; [c] is the object as the test
    that applied has seen it. *)
Lemma trace_inv_turn (HErase : Erase_spec) i cur c0 c n st st' :
  wf st → _tcp_connecters st !! i = Some cur → heap st !! cur = Some c0 →
  sound c → terminal c = true →
  trace_inv st → reaped i cur c n st st' → trace_inv st'.
Proof.
  intros (Hnd1 & _ & Hlt) Hi Hc Hsound Ht (Hdead & Hnd & Hndd & Hab)
         (_ & Hn & _ & Htr & Hold & _).
  assert (cur < next_ptr st) as Hcur by (apply Hlt; by eexists).
  destruct (Erase_NoDup HErase _ _ _ Hi Hnd1) as [Hnotin _].
  assert (∀ e, e ∈ trace st → subject e ≠ cur) as Hfresh.
  { intros e He Heq. destruct (Hdead e He) as [Hnone _]. congruence. }
  unfold trace_inv. rewrite Htr, Hn. split_and!.
  - intros e [He|He]%elem_of_app.
    + destruct (Hdead e He) as [Hnone Hlt']. split; [|lia].
      rewrite Hold by lia. by case_decide.
    + apply subject_reap_events in He as ->. split; [|lia].
      rewrite Hold by lia. by rewrite decide_True.
  - rewrite notified_app, notified_reap_events.
    destruct ((connected c || aborted c) && killed c); [by rewrite app_nil_r|].
    apply NoDup_app. split_and!; [done| |apply NoDup_singleton].
    intros q (e & He & Hsub)%elem_of_notified ->%list_elem_of_singleton.
    by apply (Hfresh e).
  - rewrite deleted_app, deleted_reap_events.
    apply NoDup_app. split_and!; [done| |apply NoDup_singleton].
    intros q Hq%elem_of_deleted ->%list_elem_of_singleton.
    by apply (Hfresh (EvDelete cur)).
  - intros q. rewrite about_app, about_reap_events.
    destruct (decide (cur = q)) as [->|Hne].
    + right. rewrite (about_nil q (trace st)) by done. eauto 10.
    + rewrite app_nil_r. apply Hab.
Qed.

Lemma view_sound b c : sound c → terminal c = true → branch_ok b c → sound (view b c).
Proof.
  intros [Hs Hex] Ht Hb. destruct b; simpl in *; [done| |].
  - unfold sound; simpl. split; [|done]. split; [done|]. intros _. by apply Hs.
  - unfold sound; simpl. split; [|done]. split; [|done]. intros Hv.
    apply Hs in Hv. specialize (Hex Hv). congruence.
Qed.

Lemma view_terminal b c : terminal c = true → terminal (view b c) = true.
Proof. by destruct b. Qed.

(** One turn of the loop that reaps keeps the invariant. *)
Lemma finv_turn (HErase : Erase_spec) OnConnect OnFailure i cur c b fs fs' :
  finv fs → _tcp_connecters (base fs) !! i = Some cur → heap (base fs) !! cur = Some c →
  terminal c = true → branch_ok b c →
  base fs' = reap OnConnect OnFailure i cur (view b c) (base fs) →
  connecting fs' = connecting fs →
  finv fs'.
Proof.
  intros (Hwf & Hall & Hs & Htr) Hi Hc Ht Hb Hbase Hconn.
  pose proof (reap_shape OnConnect OnFailure i cur (view b c) (base fs)) as Hshape.
  rewrite <- Hbase in Hshape.
  destruct (proj1 Hs cur c Hc) as [Hfin _]. destruct (Hfin Ht) as (Hsound & Hnt & Hnc).
  assert (cur < next_ptr (base fs)) as Hcur.
  { destruct Hwf as (_ & _ & Hlt). apply Hlt. by eexists. }
  unfold finv. split_and!.
  - by eapply wf_reaped.
  - by eapply all_registered_reaped.
  - destruct Hshape as (_ & _ & Hth & _ & Hold & Hnew).
    replace fs' with (mkFState (base fs') (connecting fs) (capacity fs') (reallocs fs')).
    2: { destruct fs'; simpl in *. by subst. }
    apply (fsound_shape (Some cur) (reap_news OnConnect OnFailure i cur (view b c) (base fs))).
    + done.
    + by destruct Hwf as (_ & _ & ?).
    + by intros p [= <-].
    + done.
    + intros p Hp. rewrite Hold by done. by repeat case_decide; simplify_eq.
    + intros p Hp Hne. apply Hnew; [done|]. by intros ->.
    + intros p [= <-]. lia.
  - eapply (trace_inv_turn HErase); [done..|by apply view_sound|by apply view_terminal|done|done].
Qed.

End FineInvariant.

Section FineLoop.
Context `{Collaborators} `{Allocation}.

(** ** The reads of the loop *)

Lemma tsteps_refl fs : tsteps fs fs.
Proof. by exists []. Qed.

Lemma tsteps_trans fs1 fs2 fs3 : tsteps fs1 fs2 → tsteps fs2 fs3 → tsteps fs1 fs3.
Proof. intros [ps1 ->] [ps2 ->]. exists (ps1 ++ ps2). by rewrite run_threads_app. Qed.

Lemma tsteps_frame fs fs' :
  tsteps fs fs' →
  _tcp_connecters (base fs') = _tcp_connecters (base fs) ∧
  trace (base fs') = trace (base fs) ∧ next_ptr (base fs') = next_ptr (base fs) ∧
  capacity fs' = capacity fs ∧ reallocs fs' = reallocs fs.
Proof. intros [ps ->]. apply run_threads_frame. Qed.

Lemma tsteps_fsound fs fs' : tsteps fs fs' → fsound fs → fsound fs'.
Proof. intros [ps ->]. apply fsound_run_threads. Qed.

Lemma tsteps_finv fs fs' : tsteps fs fs' → finv fs → finv fs'.
Proof. intros [ps ->]. apply finv_run_threads. Qed.

Lemma tsteps_finished fs fs' q c :
  tsteps fs fs' → fsound fs → heap (base fs) !! q = Some c → terminal c = true →
  heap (base fs') !! q = Some c.
Proof. intros [ps ->]. apply run_threads_finished. Qed.

Lemma tsteps_mono fs fs' q c :
  tsteps fs fs' → heap (base fs) !! q = Some c →
  ∃ c', heap (base fs') !! q = Some c' ∧
        killed c' = killed c ∧ address c' = address c ∧
        (connected c = true → connected c' = true) ∧
        (aborted c = true → aborted c' = true).
Proof. intros [ps ->]. apply run_threads_mono. Qed.

Lemma thread_step_lift_connecters f p fs :
  thread_step p (lift (set_connecters f) fs) = lift (set_connecters f) (thread_step p fs).
Proof. unfold thread_step, lift; simpl. by repeat case_decide. Qed.

Lemma run_threads_lift_connecters f ps fs :
  run_threads ps (lift (set_connecters f) fs) = lift (set_connecters f) (run_threads ps fs).
Proof.
  revert fs. induction ps as [|p ps IH]; intros fs; [done|].
  unfold run_threads in *. cbn [foldl]. by rewrite thread_step_lift_connecters, IH.
Qed.

Lemma pop_tsteps sched fs : tsteps fs (pop sched fs).2.
Proof. destruct sched as [|ps sched]; simpl; [apply tsteps_refl|by exists ps]. Qed.

(** A read of a live connecter. *)
Lemma read_live {A} (field : TCPConnecter → A) cur sched fs c :
  heap (base fs) !! cur = Some c →
  ∃ c' sched' fs',
    read field cur sched fs = Some (field c', sched', fs') ∧
    tsteps fs fs' ∧ heap (base fs') !! cur = Some c'.
Proof.
  intros Hc. unfold read. pose proof (pop_tsteps sched fs) as Hsteps.
  destruct (pop sched fs) as [sched' fs']. simpl in Hsteps.
  destruct (tsteps_mono _ _ _ _ Hsteps Hc) as (c' & Hc' & _).
  exists c', sched', fs'. by rewrite Hc'.
Qed.

(** A read behind the erase of the item: the threads do not see the
    registry. *)
Lemma read_erased {A} (field : TCPConnecter → A) iter cur sched fs c :
  heap (base fs) !! cur = Some c →
  ∃ c' sched' fs',
    read field cur sched (lift (set_connecters (Erase iter)) fs) =
      Some (field c', sched', lift (set_connecters (Erase iter)) fs') ∧
    tsteps fs fs' ∧ heap (base fs') !! cur = Some c'.
Proof.
  intros Hc. unfold read. destruct sched as [|ps sched]; simpl.
  - rewrite Hc. simpl. exists c, [], fs. split_and!; [done|apply tsteps_refl|done].
  - rewrite run_threads_lift_connecters. simpl.
    destruct (run_threads_mono ps cur c fs Hc) as (c' & Hc' & _). rewrite Hc'. simpl.
    exists c', sched, (run_threads ps fs). split_and!; [done|by exists ps|done].
Qed.

(** ** One turn of the loop *)

Section Turn.
Variable OnConnect : TCPConnecter_ptr → SOCKET → State → list NetworkAddress.
Variable OnFailure : TCPConnecter_ptr → State → list NetworkAddress.

Lemma turn_killed_spec iter cur sched fs c :
  fsound fs → heap (base fs) !! cur = Some c → terminal c = true → killed c = true →
  reaped_by OnConnect OnFailure iter cur Silent fs (turn_killed iter cur sched fs).
Proof.
  intros Hs Hc Ht Hk. unfold turn_killed.
  destruct (read_erased sock iter cur sched fs c Hc) as (c1 & sched1 & fs1 & -> & Hst1 & Hc1).
  rewrite (tsteps_finished _ _ _ _ Hst1 Hs Hc Ht) in Hc1. injection Hc1 as <-.
  pose proof (tsteps_finished _ _ _ _ Hst1 Hs Hc Ht) as Hc1.
  destruct (tsteps_frame _ _ Hst1) as (_ & _ & _ & Hcap1 & Hre1).
  destruct (sock c =? INVALID_SOCKET)%Z eqn:Hsock.
  - simpl. exists fs1, c. split_and!; try done.
    unfold reap, closesocket_if_open; simpl. unfold terminal in Ht. by rewrite Ht, Hk, Hsock.
  - pose proof (tsteps_fsound _ _ Hst1 Hs) as Hs1.
    destruct (read_erased sock iter cur sched1 fs1 c Hc1)
      as (c2 & sched2 & fs2 & -> & Hst2 & Hc2).
    rewrite (tsteps_finished _ _ _ _ Hst2 Hs1 Hc1 Ht) in Hc2. injection Hc2 as <-.
    pose proof (tsteps_finished _ _ _ _ Hst2 Hs1 Hc1 Ht) as Hc2.
    destruct (tsteps_frame _ _ Hst2) as (_ & _ & _ & Hcap2 & Hre2).
    simpl. exists fs2, c. split_and!; try done; try congruence.
    + by eapply tsteps_trans.
    + unfold reap, closesocket_if_open; simpl. unfold terminal in Ht. by rewrite Ht, Hk, Hsock.
Qed.

Lemma continue_after_spec iter cur b c sched fs1 fs2 st :
  heap (base fs1) !! cur = Some c → terminal c = true → branch_ok b c → b ≠ Silent →
  base fs2 = st → connecting fs2 = connecting fs1 →
  (reallocs fs2 = reallocs fs1 → capacity fs2 = capacity fs1) →
  delete_obj cur st = reap OnConnect OnFailure iter cur (view b c) (base fs1) →
  (reallocs fs2 ≠ reallocs fs1 →
   ∃ fs3 addrs, reallocs (news_fine addrs fs3) ≠ reallocs fs3 ∧
     ((∃ s st, addrs = OnConnect cur s st) ∨ (∃ st, addrs = OnFailure cur st))) →
  reaped_by OnConnect OnFailure iter cur b fs1 (continue_after (reallocs fs1) cur sched fs2).
Proof.
  intros Hc Ht Hb Hne Hbase Hconn Hcap Hreap Hundef. unfold continue_after; simpl.
  case_decide as Hre; simpl.
  - exists fs1, c. split_and!; try done; [apply tsteps_refl|by rewrite Hbase|by apply Hcap].
  - split; [done|]. by apply Hundef.
Qed.

Lemma reaped_by_tsteps iter cur b fs fs1 t :
  tsteps fs fs1 →
  reaped_by OnConnect OnFailure iter cur b fs1 t →
  reaped_by OnConnect OnFailure iter cur b fs t.
Proof.
  intros Hst. destruct (tsteps_frame _ _ Hst) as (_ & _ & _ & Hcap & Hre).
  destruct t as [|?|sched' fs']; simpl; [done|done|].
  intros (fs2 & c & Hst2 & ? & ? & ? & ? & ? & ? & ?).
  exists fs2, c. split_and!; try done; try congruence. by eapply tsteps_trans.
Qed.

Lemma turn_connected_spec iter cur sched fs c :
  fsound fs → heap (base fs) !! cur = Some c → connected c = true →
  reaped_by OnConnect OnFailure iter cur Success fs (turn_connected OnConnect iter cur sched fs).
Proof.
  intros Hs Hc Hco. unfold turn_connected.
  assert (terminal c = true) as Ht by (unfold terminal; by rewrite Hco).
  destruct (read_erased sock iter cur sched fs c Hc) as (c1 & sched1 & fs1 & -> & Hst1 & Hc1).
  rewrite (tsteps_finished _ _ _ _ Hst1 Hs Hc Ht) in Hc1. injection Hc1 as <-.
  pose proof (tsteps_finished _ _ _ _ Hst1 Hs Hc Ht) as Hc1.
  apply (reaped_by_tsteps _ _ _ _ fs1); [done|].
  set (fsE := lift (set_connecters (Erase iter)) fs1).
  destruct (base_news_fine (OnConnect cur (sock c) (base fsE))
              (lift (emit (EvOnConnect cur (sock c) (_tcp_connecters (base fsE)))) fsE))
    as (Hb & Hconn & Hle & Hcap).
  change (reallocs fsE) with (reallocs fs1).
  apply (continue_after_spec iter cur Success c sched1 fs1 _
           (call_OnConnect OnConnect cur (sock c) (base fsE))).
  - done.
  - done.
  - done.
  - done.
  - unfold call_OnConnect_fine, call_OnConnect. by rewrite Hb.
  - unfold call_OnConnect_fine. by rewrite Hconn.
  - unfold call_OnConnect_fine. apply Hcap.
  - unfold reap. simpl. done.
  - intros Hre. eexists _, _. split; [exact Hre|]. left. eauto.
Qed.

Lemma turn_aborted_spec iter cur sched fs c :
  fsound fs → heap (base fs) !! cur = Some c → aborted c = true →
  reaped_by OnConnect OnFailure iter cur Failure fs (turn_aborted OnFailure iter cur sched fs).
Proof.
  intros Hs Hc Hab. unfold turn_aborted.
  assert (terminal c = true) as Ht by (unfold terminal; by rewrite Hab, orb_true_r).
  set (fsE := lift (set_connecters (Erase iter)) fs).
  destruct (base_news_fine (OnFailure cur (base fsE))
              (lift (emit (EvOnFailure cur (_tcp_connecters (base fsE)))) fsE))
    as (Hb & Hconn & Hle & Hcap).
  change (reallocs fsE) with (reallocs fs).
  apply (continue_after_spec iter cur Failure c sched fs _
           (call_OnFailure OnFailure cur (base fsE))).
  - done.
  - done.
  - done.
  - done.
  - unfold call_OnFailure_fine, call_OnFailure. by rewrite Hb.
  - unfold call_OnFailure_fine. by rewrite Hconn.
  - unfold call_OnFailure_fine. apply Hcap.
  - unfold reap. simpl. done.
  - intros Hre. eexists _, _. split; [exact Hre|]. right. eauto.
Qed.

Lemma turn_post_reaped iter cur b fs fs0 fs1 t :
  tsteps fs fs0 → tsteps fs0 fs1 →
  (b ≠ Silent →
     (∃ c, heap (base fs1) !! cur = Some c ∧ killed c = false) ∨
     (∃ c, heap (base fs0) !! cur = Some c ∧ terminal c = false)) →
  reaped_by OnConnect OnFailure iter cur b fs1 t →
  turn_post OnConnect OnFailure iter cur fs t.
Proof. intros ? ? ? Hr. destruct t; simpl in *; [eauto 10|done|eauto 10]. Qed.

(** The three tests, with the threads in between. *)
Lemma turn_spec iter cur sched fs c0 :
  fsound fs → heap (base fs) !! cur = Some c0 →
  turn_post OnConnect OnFailure iter cur fs (turn OnConnect OnFailure iter cur sched fs).
Proof.
  intros Hs Hc0. unfold turn.
  destruct (read_live connected cur sched fs c0 Hc0) as (c1 & sched1 & fs1 & -> & Hst1 & Hc1).
  pose proof (tsteps_fsound _ _ Hst1 Hs) as Hs1.
  destruct (connected c1) eqn:Hco1; cbv beta iota.
  - (* connected at the first test *)
    assert (terminal c1 = true) as Ht1 by (unfold terminal; by rewrite Hco1).
    destruct (read_live killed cur sched1 fs1 c1 Hc1) as (c2 & sched2 & fs2 & -> & Hst2 & Hc2).
    rewrite (tsteps_finished _ _ _ _ Hst2 Hs1 Hc1 Ht1) in Hc2. injection Hc2 as <-.
    pose proof (tsteps_finished _ _ _ _ Hst2 Hs1 Hc1 Ht1) as Hc2.
    pose proof (tsteps_fsound _ _ Hst2 Hs1) as Hs2.
    pose proof (tsteps_trans _ _ _ Hst1 Hst2) as Hst02.
    destruct (killed c1) eqn:Hk1; cbv beta iota.
    + apply (turn_post_reaped iter cur Silent fs fs fs2); [apply tsteps_refl|done|done|].
      by apply (turn_killed_spec iter cur sched2 fs2 c1).
    + destruct (read_live connected cur sched2 fs2 c1 Hc2)
        as (c3 & sched3 & fs3 & -> & Hst3 & Hc3).
      rewrite (tsteps_finished _ _ _ _ Hst3 Hs2 Hc2 Ht1) in Hc3. injection Hc3 as <-.
      pose proof (tsteps_finished _ _ _ _ Hst3 Hs2 Hc2 Ht1) as Hc3.
      rewrite Hco1. cbv beta iota.
      apply (turn_post_reaped iter cur Success fs fs fs3);
        [apply tsteps_refl|by eapply tsteps_trans|by eauto|].
      apply (turn_connected_spec iter cur sched3 fs3 c1); [by eapply tsteps_fsound|done|done].
  - destruct (read_live aborted cur sched1 fs1 c1 Hc1) as (c2 & sched2 & fs2 & -> & Hst2 & Hc2).
    pose proof (tsteps_fsound _ _ Hst2 Hs1) as Hs2.
    pose proof (tsteps_trans _ _ _ Hst1 Hst2) as Hst02.
    destruct (aborted c2) eqn:Hab2; cbv beta iota.
    + (* aborted at the first test *)
      assert (terminal c2 = true) as Ht2 by (unfold terminal; by rewrite Hab2, orb_true_r).
      assert (connected c2 = false) as Hco2.
      { destruct (proj1 Hs2 cur c2 Hc2) as [Hfin _]. destruct (Hfin Ht2) as ([_ Hex] & _).
        destruct (connected c2); [|done]. specialize (Hex eq_refl). congruence. }
      destruct (read_live killed cur sched2 fs2 c2 Hc2) as (c3 & sched3 & fs3 & -> & Hst3 & Hc3).
      rewrite (tsteps_finished _ _ _ _ Hst3 Hs2 Hc2 Ht2) in Hc3. injection Hc3 as <-.
      pose proof (tsteps_finished _ _ _ _ Hst3 Hs2 Hc2 Ht2) as Hc3.
      pose proof (tsteps_fsound _ _ Hst3 Hs2) as Hs3.
      pose proof (tsteps_trans _ _ _ Hst02 Hst3) as Hst03.
      destruct (killed c2) eqn:Hk2; cbv beta iota.
      * apply (turn_post_reaped iter cur Silent fs fs fs3); [apply tsteps_refl|done|done|].
        by apply (turn_killed_spec iter cur sched3 fs3 c2).
      * destruct (read_live connected cur sched3 fs3 c2 Hc3)
          as (c4 & sched4 & fs4 & -> & Hst4 & Hc4).
        rewrite (tsteps_finished _ _ _ _ Hst4 Hs3 Hc3 Ht2) in Hc4. injection Hc4 as <-.
        pose proof (tsteps_finished _ _ _ _ Hst4 Hs3 Hc3 Ht2) as Hc4.
        pose proof (tsteps_fsound _ _ Hst4 Hs3) as Hs4.
        rewrite Hco2. cbv beta iota.
        destruct (read_live aborted cur sched4 fs4 c2 Hc4)
          as (c5 & sched5 & fs5 & -> & Hst5 & Hc5).
        rewrite (tsteps_finished _ _ _ _ Hst5 Hs4 Hc4 Ht2) in Hc5. injection Hc5 as <-.
        pose proof (tsteps_finished _ _ _ _ Hst5 Hs4 Hc4 Ht2) as Hc5.
        rewrite Hab2. cbv beta iota.
        apply (turn_post_reaped iter cur Failure fs fs fs5);
          [apply tsteps_refl|by eauto using tsteps_trans|by eauto|].
        apply (turn_aborted_spec iter cur sched5 fs5 c2); [by eapply tsteps_fsound|done|done].
    + (* not finished at the first test *)
      assert (terminal c1 = false) as Ht1.
      { unfold terminal. rewrite Hco1. simpl. destruct (aborted c1) eqn:Hab1; [|done].
        destruct (tsteps_mono _ _ _ _ Hst2 Hc1) as (c2' & Hc2' & _ & _ & _ & Hmono).
        rewrite Hc2 in Hc2'. injection Hc2' as <-. rewrite Hmono in Hab2; done. }
      destruct (read_live connected cur sched2 fs2 c2 Hc2)
        as (c3 & sched3 & fs3 & -> & Hst3 & Hc3).
      pose proof (tsteps_fsound _ _ Hst3 Hs2) as Hs3.
      pose proof (tsteps_trans _ _ _ Hst2 Hst3) as Hst13.
      destruct (connected c3) eqn:Hco3; cbv beta iota.
      * apply (turn_post_reaped iter cur Success fs fs1 fs3); [done|done|by eauto|].
        by apply (turn_connected_spec iter cur sched3 fs3 c3).
      * destruct (read_live aborted cur sched3 fs3 c3 Hc3)
          as (c4 & sched4 & fs4 & -> & Hst4 & Hc4).
        pose proof (tsteps_fsound _ _ Hst4 Hs3) as Hs4.
        pose proof (tsteps_trans _ _ _ Hst13 Hst4) as Hst14.
        destruct (aborted c4) eqn:Hab4; cbv beta iota.
        -- apply (turn_post_reaped iter cur Failure fs fs1 fs4); [done|done|by eauto|].
           by apply (turn_aborted_spec iter cur sched4 fs4 c4).
        -- simpl. exists fs3, c3, c4. split_and!; try done.
           exact (tsteps_trans _ _ _ Hst1 Hst13).
Qed.

End Turn.

(** ** The loop *)

Section Loop.
Variable OnConnect : TCPConnecter_ptr → SOCKET → State → list NetworkAddress.
Variable OnFailure : TCPConnecter_ptr → State → list NetworkAddress.

Local Abbreviation floop := (CheckCallbacks_fine OnConnect OnFailure).

(** An invariant of the loop: it holds through the steps of the threads,
    through a turn that reaps and through a turn that goes on. *)
Lemma fine_loop_inv (I : nat → FState → Prop) :
  (∀ i fs, I i fs → fsound fs ∧ wf (base fs)) →
  (∀ i fs p, I i fs → I i (thread_step p fs)) →
  (∀ i fs0 fs1 fs' cur c b,
     I i fs0 → I i fs1 → tsteps fs0 fs1 →
     _tcp_connecters (base fs1) !! i = Some cur → heap (base fs1) !! cur = Some c →
     terminal c = true → branch_ok b c →
     (b ≠ Silent → killed c = false ∨
        ∃ c', heap (base fs0) !! cur = Some c' ∧ terminal c' = false) →
     base fs' = reap OnConnect OnFailure i cur (view b c) (base fs1) →
     connecting fs' = connecting fs1 → reallocs fs' = reallocs fs1 →
     capacity fs' = capacity fs1 → I i fs') →
  (∀ i fs0 fs cur c0 c,
     I i fs0 → I i fs → tsteps fs0 fs → _tcp_connecters (base fs) !! i = Some cur →
     heap (base fs0) !! cur = Some c0 → connected c0 = false →
     heap (base fs) !! cur = Some c → aborted c = false → I (S i) fs) →
  ∀ fuel sched i fs, I i fs → fine_post OnConnect OnFailure I (floop fuel sched i fs).
Proof.
  intros Hsound Hthread Hreap Hskip fuel.
  assert (∀ i fs fs', tsteps fs fs' → I i fs → I i fs') as Hsteps.
  { intros i fs fs' [ps ->]. revert fs. induction ps as [|p ps IH]; intros fs HI; [done|].
    apply IH. by apply Hthread. }
  induction fuel as [|fuel IH]; intros sched i fs HI.
  - simpl. destruct (_tcp_connecters (base fs) !! i) eqn:Hi; simpl; eauto.
  - simpl. destruct (_tcp_connecters (base fs) !! i) as [cur|] eqn:Hi; [|simpl; eauto].
    destruct (Hsound i fs HI) as [Hs (Hnd & Hlive & Hlt)].
    destruct (Hlive cur) as [c0 Hc0]; [by eapply list_elem_of_lookup_2|].
    pose proof (turn_spec OnConnect OnFailure i cur sched fs c0 Hs Hc0) as Hturn.
    destruct (turn OnConnect OnFailure i cur sched fs) as [|sched' fs'|sched' fs'];
      simpl in Hturn.
    + destruct Hturn as (fs0 & fs1 & b & _ & _ & _ & _ & fs2 & addrs & Hre & Hh).
      simpl. eauto.
    + destruct Hturn as (fs0 & c1 & c2 & Hst0 & Hst1 & Hc1 & Hco1 & Hc2 & Hab2).
      assert (tsteps fs fs') as Hst by (by eapply tsteps_trans).
      apply IH. apply (Hskip i fs0 fs' cur c1 c2); try done.
      * by apply (Hsteps i fs).
      * by apply (Hsteps i fs).
      * destruct (tsteps_frame _ _ Hst) as (-> & _). done.
    + destruct Hturn as (fs0 & fs1 & b & Hst0 & Hst1 & Hinfo & fs2 & c & Hst2 & Hc & Ht & Hb &
                         Hbase & Hconn & Hre & Hcap).
      apply IH.
      assert (tsteps fs0 fs2) as Hst02 by (by eapply tsteps_trans).
      assert (tsteps fs fs2) as Hst by (by eapply tsteps_trans).
      destruct (tsteps_frame _ _ Hst2) as (Hr2 & _ & _ & Hcap2 & Hre2).
      destruct (tsteps_frame _ _ Hst) as (Hr & _).
      apply (Hreap i fs0 fs2 fs' cur c b); try done; try congruence.
      * by apply (Hsteps i fs).
      * by apply (Hsteps i fs).
      * intros Hne. destruct (Hinfo Hne) as [(c1 & Hc1 & Hk1)|?]; [|by right].
        left. destruct (tsteps_mono _ _ _ _ Hst2 Hc1) as (c2 & Hc2 & Hk2 & _).
        rewrite Hc in Hc2. injection Hc2 as <-. congruence.
Qed.

Lemma fine_loop_inv_final (I : FState → Prop) :
  (∀ fs, I fs → fsound fs ∧ wf (base fs)) →
  (∀ fs p, I fs → I (thread_step p fs)) →
  (∀ i fs0 fs1 fs' cur c b,
     I fs0 → I fs1 → tsteps fs0 fs1 →
     _tcp_connecters (base fs1) !! i = Some cur → heap (base fs1) !! cur = Some c →
     terminal c = true → branch_ok b c →
     (b ≠ Silent → killed c = false ∨
        ∃ c', heap (base fs0) !! cur = Some c' ∧ terminal c' = false) →
     base fs' = reap OnConnect OnFailure i cur (view b c) (base fs1) →
     connecting fs' = connecting fs1 → reallocs fs' = reallocs fs1 →
     capacity fs' = capacity fs1 → I fs') →
  ∀ fuel sched i fs fs', I fs → ffinal (floop fuel sched i fs) = Some fs' → I fs'.
Proof.
  intros Hsound Hthread Hreap fuel sched i fs fs' HI Hfin.
  pose proof (fine_loop_inv (λ _, I) (λ _, Hsound) (λ _, Hthread) Hreap ltac:(done)
                fuel sched i fs HI) as Hpost.
  destruct (floop fuel sched i fs) as [fs2|i2 sched2 fs2|]; simpl in *.
  - injection Hfin as ->. by destruct Hpost as (? & ? & _).
  - by injection Hfin as ->.
  - done.
Qed.

End Loop.

End FineLoop.

Section FineRuns.
Context `{Collaborators} `{Allocation}.
Hypothesis HErase : Erase_spec.

(** ** The invariant in every state the code reaches *)

Lemma finv_loop OnConnect OnFailure fuel sched i fs fs' :
  finv fs → ffinal (CheckCallbacks_fine OnConnect OnFailure fuel sched i fs) = Some fs' →
  finv fs'.
Proof.
  apply (fine_loop_inv_final OnConnect OnFailure finv).
  - by intros fs1 (? & _ & ? & _).
  - intros fs1 p. apply finv_thread_step.
  - intros j fs0 fs1 fs2 cur c b _ Hinv _ Hi Hc Ht Hb _ Hbase Hconn _ _.
    by eapply (finv_turn HErase).
Qed.

Lemma finv_fstep fs fs' : finv fs → fstep fs fs' → finv fs'.
Proof.
  intros Hinv Hstep. destruct Hstep as [addr fs|p fs|fs|OnC OnF fuel sched fs fs' Hdone].
  - by apply finv_new.
  - by apply finv_thread_step.
  - by apply finv_KillAll.
  - eapply finv_loop; [done|]. by rewrite Hdone.
Qed.

Lemma finv_finitial : finv finitial.
Proof.
  split_and!.
  - by apply (reachable_wf HErase), rtc_refl.
  - intros p [c Hc]. simpl in Hc. by rewrite lookup_empty in Hc.
  - unfold fsound, finitial; simpl. split_and!.
    + intros p c Hc. by rewrite lookup_empty in Hc.
    + intros p Hp. by apply elem_of_nil in Hp.
    + intros p Hp. by apply elem_of_nil in Hp.
  - unfold trace_inv, initial_state; simpl. split_and!.
    + intros e He. by apply elem_of_nil in He.
    + apply NoDup_nil_2.
    + apply NoDup_nil_2.
    + intros p. by left.
Qed.

Lemma finv_fsteps fs fs' : finv fs → rtc fstep fs fs' → finv fs'.
Proof. intros Hinv Hsteps. induction Hsteps; eauto using finv_fstep. Qed.

Lemma freachable_finv fs : freachable fs → finv fs.
Proof. apply finv_fsteps, finv_finitial. Qed.

(** ** The loop with handlers that construct nothing *)

Local Abbreviation quiet_floop := (CheckCallbacks_fine (λ _ _ _, []) (λ _ _, [])).

(** It ends, whatever the threads do: every turn erases an item or
    advances the iterator, and no handler makes the buffer move. *)
Lemma fine_quiet_Done fuel : ∀ sched i fs,
  finv fs → length (_tcp_connecters (base fs)) ≤ i + fuel →
  ∃ fs', quiet_floop fuel sched i fs = FDone fs'.
Proof.
  induction fuel as [|fuel IH]; intros sched i fs Hinv Hlen; simpl.
  - rewrite (proj2 (lookup_ge_None _ _)) by lia. eauto.
  - destruct (_tcp_connecters (base fs) !! i) as [cur|] eqn:Hi; [|eauto].
    pose proof Hinv as ((Hnd & Hlive & Hlt) & _ & Hs & _).
    destruct (Hlive cur) as [c0 Hc0]; [by eapply list_elem_of_lookup_2|].
    pose proof (turn_spec (λ _ _ _, []) (λ _ _, []) i cur sched fs c0 Hs Hc0) as Hturn.
    destruct (turn _ _ i cur sched fs) as [|sched' fs'|sched' fs']; simpl in Hturn.
    + destruct Hturn as (fs0 & fs1 & b & _ & _ & _ & _ & fs2 & addrs & Hre & [(?&?&->)|(?&->)]);
        by destruct Hre.
    + destruct Hturn as (fs0 & c1 & c2 & Hst0 & Hst1 & _).
      assert (tsteps fs fs') as Hst by (by eapply tsteps_trans).
      apply IH; [by eapply tsteps_finv|].
      destruct (tsteps_frame _ _ Hst) as (-> & _). lia.
    + destruct Hturn as (fs0 & fs1 & b & Hst0 & Hst1 & _ & fs2 & c & Hst2 & Hc & Ht & Hb &
                         Hbase & Hconn & _).
      assert (tsteps fs fs2) as Hst by (eauto using tsteps_trans).
      pose proof (tsteps_finv _ _ Hst Hinv) as Hinv2.
      destruct (tsteps_frame _ _ Hst) as (Hr & _).
      apply IH.
      * eapply (finv_turn HErase); [exact Hinv2|by rewrite Hr|done..].
      * rewrite Hbase.
        destruct (reap_quiet_shape i cur (view b c) (base fs2)) as (-> & _).
        rewrite length_app, Hr; simpl.
        pose proof (Erase_length HErase _ _ _ Hi). lia.
Qed.

(** ** The trace of a run *)


(** The events of a turn on a finished connecter are the ones of the
    object, whichever test has applied, but for a killed connecter that a
    handler has been called for. *)
Lemma reap_events_view b c seen cur :
  sound c → terminal c = true → branch_ok b c → (b ≠ Silent → killed c = false) →
  (killed c = true → b = Silent) →
  reap_events cur (view b c) seen = reap_events cur c seen.
Proof.
  intros [Hs Hex] Ht Hb Hnk Hk. unfold terminal in Ht.
  destruct b; simpl in *; [done| |].
  - unfold reap_events; simpl. by rewrite Hb, (Hnk ltac:(done)).
  - unfold reap_events; simpl. rewrite (Hnk ltac:(done)), andb_false_r.
    destruct (connected c) eqn:Hco; [|done].
    specialize (Hex eq_refl). congruence.
Qed.

(** A connecter that has finished when the loop comes to it, or before, is
    reaped by the loop, whatever the threads and the handlers do: it is
    erased and deleted, and the events about it are those of one turn. *)
Lemma fine_terminal_reaped OnConnect OnFailure p c fuel sched i fs fs' :
  finv fs → p ∈ drop i (_tcp_connecters (base fs)) → heap (base fs) !! p = Some c →
  terminal c = true →
  CheckCallbacks_fine OnConnect OnFailure fuel sched i fs = FDone fs' →
  (p ∉ _tcp_connecters (base fs')) ∧ heap (base fs') !! p = None ∧
  ∃ evs seen, trace (base fs') = trace (base fs) ++ evs ∧
              about p evs = reap_events p c seen ∧ (p ∉ seen).
Proof.
  intros Hinv Hp Hc Ht Hdone.
  set (I := λ (j : nat) fs1, finv fs1 ∧ p < next_ptr (base fs1) ∧
    ∃ evs, trace (base fs1) = trace (base fs) ++ evs ∧
      ((p ∈ drop j (_tcp_connecters (base fs1)) ∧ heap (base fs1) !! p = Some c ∧
        about p evs = []) ∨
       ((p ∉ _tcp_connecters (base fs1)) ∧ heap (base fs1) !! p = None ∧
        ∃ seen, about p evs = reap_events p c seen ∧ (p ∉ seen)))).
  assert (fine_post OnConnect OnFailure I
            (CheckCallbacks_fine OnConnect OnFailure fuel sched i fs)) as Hpost.
  { apply fine_loop_inv.
    - subst I. by intros j fs1 ((? & _ & ? & _) & _).
    - subst I. intros j fs1 q (Hinv1 & Hlt & evs & Htr & Hcase).
      destruct (thread_step_frame q fs1) as (Hr & Ht' & Hn & _).
      rewrite Hr, Ht', Hn. split_and!; [by apply finv_thread_step|done|].
      exists evs. split; [done|]. destruct Hcase as [(Hin & Hc1 & Hev)|(Hout & Hc1 & Hev)].
      + left. split_and!; [done| |done].
        apply thread_step_finished; [by destruct Hinv1 as (_ & _ & ? & _)|done..].
      + right. split_and!; [done| |done]. by apply thread_step_dead.
    - clear Hinv Hp Hc Hdone. subst I.
      intros j fs0 fs1 fs2 cur c1 b (Hinv0 & _ & evs0 & _ & Hcase0)
             (Hinv1 & Hlt & evs & Htr & Hcase) Hst Hi Hc1 Ht1 Hb Hinfo Hbase Hconn _ _.
      pose proof (reap_shape OnConnect OnFailure j cur (view b c1) (base fs1)) as Hshape.
      rewrite <- Hbase in Hshape.
      pose proof (finv_turn HErase _ _ _ _ _ _ _ _ Hinv1 Hi Hc1 Ht1 Hb Hbase Hconn) as Hinv2.
      destruct Hshape as (Hr & Hn & _ & Htr' & Hold & _).
      destruct Hinv1 as ((Hnd & Hlive & Hnext) & _ & Hs1 & _).
      destruct (Erase_NoDup HErase _ _ _ Hi Hnd) as [Hnotin _].
      split_and!; [done|lia|].
      exists (evs ++ reap_events cur (view b c1) (Erase j (_tcp_connecters (base fs1)))).
      split; [by rewrite Htr', Htr, app_assoc|].
      rewrite about_app, about_reap_events, Hr, Hold by lia.
      destruct Hcase as [(Hin & Hc & Hev)|(Hout & Hc & Hev)].
      + rewrite Hev. destruct (decide (cur = p)) as [->|Hne].
        * right. split_and!; [|done|].
          -- intros [?|?%elem_of_seq]%elem_of_app; [done|lia].
          -- assert (c1 = c) as Heq1 by congruence. subst c1.
             exists (Erase j (_tcp_connecters (base fs1))). split; [|done].
             destruct (proj1 Hs1 p c Hc) as [Hfin _]. destruct (Hfin Ht1) as (Hsound & _).
             apply reap_events_view; try done.
             ++ intros Hne. destruct (Hinfo Hne) as [?|(c' & Hc' & Ht')]; [done|].
                destruct Hcase0 as [(_ & Hc0 & _)|(Hout0 & _)].
                ** congruence.
                ** exfalso. apply Hout0. destruct (tsteps_frame _ _ Hst) as (<- & _).
                   by eapply list_elem_of_lookup_2.
             ++ intros Hk. destruct b; [done| |].
                ** destruct (Hinfo ltac:(done)) as [?|(c' & Hc' & Ht')]; [congruence|].
                   destruct Hcase0 as [(_ & Hc0 & _)|(Hout0 & _)]; [congruence|].
                   exfalso. apply Hout0. destruct (tsteps_frame _ _ Hst) as (<- & _).
                   by eapply list_elem_of_lookup_2.
                ** destruct (Hinfo ltac:(done)) as [?|(c' & Hc' & Ht')]; [congruence|].
                   destruct Hcase0 as [(_ & Hc0 & _)|(Hout0 & _)]; [congruence|].
                   exfalso. apply Hout0. destruct (tsteps_frame _ _ Hst) as (<- & _).
                   by eapply list_elem_of_lookup_2.
        * left. split_and!; [|done..].
          rewrite (Erase_drop HErase) by done. apply elem_of_app. left.
          rewrite (drop_S _ cur) in Hin by done.
          apply elem_of_cons in Hin. by destruct Hin.
      + destruct (decide (cur = p)) as [->|Hne].
        { exfalso. apply Hout. by eapply list_elem_of_lookup_2. }
        rewrite app_nil_r. right. split_and!; [|done..].
        intros [?%(Erase_elem_of HErase _ _ cur)|?%elem_of_seq]%elem_of_app; [done|done|lia].
    - clear Hinv Hp Hc Hdone. subst I.
      intros j fs0 fs1 cur c1 c2 (_ & _ & evs0 & _ & Hcase0) (Hinv1 & Hlt & evs & Htr & Hcase)
             Hst Hi Hc1 Hco1 Hc2 Hab2.
      split_and!; [done..|]. exists evs. split; [done|].
      destruct Hcase as [(Hin & Hc & Hev)|?]; [left|by right].
      split_and!; [|done..].
      rewrite (drop_S _ cur) in Hin by done.
      apply elem_of_cons in Hin. destruct Hin as [->|?]; [|done].
      exfalso. assert (c2 = c) as Heq2 by congruence. rewrite Heq2 in Hab2.
      destruct Hcase0 as [(_ & Hc0 & _)|(Hout0 & _)].
      + assert (c1 = c) as Heq1 by congruence. rewrite Heq1 in Hco1. unfold terminal in Ht.
        by rewrite Hco1, Hab2 in Ht.
      + apply Hout0. destruct (tsteps_frame _ _ Hst) as (<- & _).
        by eapply list_elem_of_lookup_2.
    - subst I. split_and!; [done| |].
      + destruct Hinv as ((_ & _ & Hlt) & _). apply Hlt. by eexists.
      + exists []. rewrite app_nil_r. split; [done|]. left. done. }
  rewrite Hdone in Hpost. simpl in Hpost.
  destruct Hpost as (i' & (_ & _ & evs & Htr & Hcase) & Hend).
  destruct Hcase as [(Hin & _)|(? & ? & seen & ? & ?)].
  - rewrite drop_ge in Hin by (by apply lookup_ge_None). by apply elem_of_nil in Hin.
  - eauto 10.
Qed.

End FineRuns.

Section FineQuiet.
Context `{Collaborators} `{Allocation}.

(** ** No thread runs during the call: the loop of the first part *)

Lemma read_quiet {A} (field : TCPConnecter → A) cur fs :
  read field cur [] fs = c ← heap (base fs) !! cur; Some (field c, [], fs).
Proof. done. Qed.

Ltac read_now Hc := rewrite read_quiet; simpl; rewrite Hc; simpl.

(** One turn under the empty schedule: the three tests see one object. *)
Lemma turn_quiet OnConnect OnFailure i cur fs c :
  heap (base fs) !! cur = Some c →
  turn OnConnect OnFailure i cur [] fs =
  let fsE := lift (set_connecters (Erase i)) fs in
  if (connected c || aborted c) && killed c then
    TurnAgain [] (lift (delete_obj cur) (lift (closesocket_if_open cur (sock c)) fsE))
  else if connected c then
    continue_after (reallocs fs) cur [] (call_OnConnect_fine OnConnect cur (sock c) fsE)
  else if aborted c then
    continue_after (reallocs fs) cur [] (call_OnFailure_fine OnFailure cur fsE)
  else TurnNext [] fs.
Proof.
  intros Hc. unfold turn. read_now Hc.
  destruct (connected c) eqn:Hco; simpl.
  - read_now Hc. destruct (killed c) eqn:Hk; simpl.
    + unfold turn_killed, closesocket_if_open. read_now Hc.
      destruct (sock c =? INVALID_SOCKET)%Z; [done|]. by read_now Hc.
    + read_now Hc. rewrite Hco. unfold turn_connected. by read_now Hc.
  - read_now Hc. destruct (aborted c) eqn:Hab; simpl.
    + read_now Hc. destruct (killed c) eqn:Hk; simpl.
      * unfold turn_killed, closesocket_if_open. read_now Hc.
        destruct (sock c =? INVALID_SOCKET)%Z; [done|]. by read_now Hc.
      * read_now Hc. rewrite Hco. read_now Hc. by rewrite Hab.
    + read_now Hc. rewrite Hco. read_now Hc. by rewrite Hab.
Qed.

(** Under the empty schedule [CheckCallbacks_fine] does what
    [CheckCallbacks_loop] does, as long as no handler makes the buffer
    move. *)
Lemma CheckCallbacks_fine_quiet OnConnect OnFailure fuel : ∀ i fs,
  match CheckCallbacks_fine OnConnect OnFailure fuel [] i fs with
  | FDone fs' =>
      CheckCallbacks_loop OnConnect OnFailure fuel i (base fs) = Done (base fs') ∧
      connecting fs' = connecting fs
  | FMore i' _ fs' =>
      CheckCallbacks_loop OnConnect OnFailure fuel i (base fs) = More i' (base fs') ∧
      connecting fs' = connecting fs
  | FUndefined => True
  end.
Proof.
  induction fuel as [|fuel IH]; intros i fs; simpl.
  { by destruct (_tcp_connecters (base fs) !! i). }
  destruct (_tcp_connecters (base fs) !! i) as [cur|] eqn:Hi; [|done].
  destruct (heap (base fs) !! cur) as [c|] eqn:Hc.
  2: { unfold turn. rewrite read_quiet, Hc. done. }
  rewrite (turn_quiet OnConnect OnFailure i cur fs c Hc). cbv zeta.
  destruct ((connected c || aborted c) && killed c).
  { specialize (IH i (lift (delete_obj cur) (lift (closesocket_if_open cur (sock c))
                        (lift (set_connecters (Erase i)) fs)))).
    by destruct (CheckCallbacks_fine _ _ fuel [] i _). }
  destruct (connected c).
  { unfold continue_after. case_decide as Hre; [|done].
    set (fs1 := lift (delete_obj cur) _) in *. specialize (IH i fs1).
    destruct (base_news_fine
                (OnConnect cur (sock c) (set_connecters (Erase i) (base fs)))
                (lift (emit (EvOnConnect cur (sock c) (Erase i (_tcp_connecters (base fs)))))
                      (lift (set_connecters (Erase i)) fs))) as (Hb & Hconn & _).
    assert (base fs1 = delete_obj cur (call_OnConnect OnConnect cur (sock c)
                         (set_connecters (Erase i) (base fs)))) as Hbase.
    { subst fs1. unfold call_OnConnect_fine, call_OnConnect. simpl. by rewrite Hb. }
    assert (connecting fs1 = connecting fs) as Hconn1.
    { subst fs1. unfold call_OnConnect_fine. simpl. by rewrite Hconn. }
    rewrite <- Hbase, <- Hconn1. by destruct (CheckCallbacks_fine _ _ fuel [] i fs1). }
  destruct (aborted c).
  { unfold continue_after. case_decide as Hre; [|done].
    set (fs1 := lift (delete_obj cur) _) in *. specialize (IH i fs1).
    destruct (base_news_fine
                (OnFailure cur (set_connecters (Erase i) (base fs)))
                (lift (emit (EvOnFailure cur (Erase i (_tcp_connecters (base fs)))))
                      (lift (set_connecters (Erase i)) fs))) as (Hb & Hconn & _).
    assert (base fs1 = delete_obj cur (call_OnFailure OnFailure cur
                         (set_connecters (Erase i) (base fs)))) as Hbase.
    { subst fs1. unfold call_OnFailure_fine, call_OnFailure. simpl. by rewrite Hb. }
    assert (connecting fs1 = connecting fs) as Hconn1.
    { subst fs1. unfold call_OnFailure_fine. simpl. by rewrite Hconn. }
    rewrite <- Hbase, <- Hconn1. by destruct (CheckCallbacks_fine _ _ fuel [] i fs1). }
  specialize (IH (S i) fs). by destruct (CheckCallbacks_fine _ _ fuel [] (S i) fs).
Qed.

(** The two steps of a thread, one after the other, are [ThreadEntry]. *)
Lemma thread_steps_run_thread p fs :
  p ∈ threads (base fs) → (p ∉ connecting fs) →
  base (thread_step p (thread_step p fs)) = run_thread p (base fs) ∧
  connecting (thread_step p (thread_step p fs)) = connecting fs.
Proof.
  intros Hp Hnc.
  assert (thread_step p fs =
          mkFState (set_threads (filter (λ q, q ≠ p)) (set_heap (alter store_sock p) (base fs)))
                   (connecting fs ++ [p]) (capacity fs) (reallocs fs)) as ->.
  { unfold thread_step. by rewrite decide_True. }
  unfold thread_step; simpl.
  destruct (decide (p ∈ filter (λ q, q ≠ p) (threads (base fs)))) as [Hin|_].
  { apply list_elem_of_filter in Hin as [Hne _]. done. }
  rewrite decide_True by (apply elem_of_app; right; by left). simpl. split.
  - unfold run_thread, ThreadEntry, set_threads, set_heap. simpl. f_equal.
    apply map_eq. intros q. rewrite !lookup_alter. case_decide; [|done].
    subst q. rewrite decide_True by done. by destruct (heap (base fs) !! p).
  - rewrite filter_app, filter_cons, decide_False, filter_nil, app_nil_r by (by intros Hne).
    clear Hp. induction (connecting fs) as [|q l IH]; [done|].
    rewrite filter_cons. apply not_elem_of_cons in Hnc as [Hne Hnc].
    rewrite decide_True by done. f_equal. by apply IH.
Qed.

End FineQuiet.

Section FineSkip.
Context `{Collaborators} `{Allocation}.

(** ** Connecters whose threads are not scheduled *)






End FineSkip.

Section FineReached.
Context `{Collaborators} `{Allocation}.

Lemma freachable_fstep fs fs' : freachable fs → fstep fs fs' → freachable fs'.
Proof. intros Hreach Hstep. by eapply rtc_r. Qed.

Lemma freachable_run_threads ps fs : freachable fs → freachable (run_threads ps fs).
Proof.
  revert fs. induction ps as [|p ps IH]; intros fs Hreach; [done|].
  apply IH. eapply freachable_fstep; [done|apply fstep_thread].
Qed.

Lemma freachable_news addrs fs : freachable fs → freachable (news_fine addrs fs).
Proof.
  revert fs. induction addrs as [|a addrs IH]; intros fs Hreach; [done|].
  apply IH. eapply freachable_fstep; [done|apply fstep_new].
Qed.

Lemma freachable_KillAll fs : freachable fs → freachable (KillAll_fine fs).
Proof. intros Hreach. eapply freachable_fstep; [done|apply fstep_KillAll]. Qed.

End FineReached.

(** An element that is not in a list written out. *)
Ltac in_list H :=
  repeat (apply elem_of_cons in H as [H|H]; [discriminate H|]); by apply elem_of_nil in H.

Section FineClaims.
Context `{Collaborators} `{Allocation}.
Hypothesis HErase : Erase_spec.

Local Abbreviation quiet_floop := (CheckCallbacks_fine (λ _ _ _, []) (λ _ _, [])).



(** Claim C7, amended.  The initialisers leave the socket invalid and
    neither flag set.  [Connect] stores the socket first and the flag
    second: after the first statement the connecter has the socket that
    [NetworkAddress::Connect] gave and neither flag, after the second it
    has a valid socket and [connected], or an invalid socket and
    [aborted].  In every state that the code reaches, a connected
    connecter has a valid socket and an aborted one an invalid socket, and
    a connecter with neither flag has an invalid socket unless its thread
    is between the two statements; the sockets that [CheckCallbacks] has
    closed or handed to [OnConnect] were valid. *)
Theorem C7_socket_valid_iff_Connected_once_finished :
  (∀ addr, sock (initial addr) = INVALID_SOCKET ∧ outcome (initial addr) = Pending) ∧
  (∀ c, outcome c = Pending →
     outcome (store_sock c) = Pending ∧
     sock (store_sock c) = NetworkAddress_Connect (address c) ∧
     store_flag (store_sock c) = Connect c ∧
     ((sock (Connect c) ≠ INVALID_SOCKET ∧ outcome (Connect c) = Connected) ∨
      (sock (Connect c) = INVALID_SOCKET ∧ outcome (Connect c) = Aborted))) ∧
  (∀ fs p c, freachable fs → heap (base fs) !! p = Some c →
     (outcome c = Connected → sock c ≠ INVALID_SOCKET) ∧
     (outcome c = Aborted → sock c = INVALID_SOCKET) ∧
     (outcome c = Pending → sock c ≠ INVALID_SOCKET →
        p ∈ connecting fs ∧ sock c = NetworkAddress_Connect (address c))) ∧
  (∀ fs cur s, freachable fs →
     (∀ seen, EvOnConnect cur s seen ∈ trace (base fs) → s ≠ INVALID_SOCKET) ∧
     (EvClosesocket cur s ∈ trace (base fs) → s ≠ INVALID_SOCKET)).
Proof.
  split_and!.
  - done.
  - intros c Hp. split_and!; [done|done|done|].
    destruct (Connect_Pending c Hp) as [(? & ? & _)|(? & ? & _)]; eauto.
  - intros fs p c Hreach Hc.
    destruct (freachable_finv HErase fs Hreach) as (_ & _ & (Hobj & Hth & Hco) & _).
    destruct (Hobj p c Hc) as [Hfin Hpend]. split_and!.
    + intros Ho. assert (terminal c = true) as Ht by (apply outcome_terminal; by rewrite Ho).
      destruct (Hfin Ht) as (Hsound & _). by apply sound_iff.
    + intros Ho. assert (terminal c = true) as Ht by (apply outcome_terminal; by rewrite Ho).
      destruct (Hfin Ht) as (Hsound & _). apply sound_iff in Hsound.
      destruct (decide (sock c = INVALID_SOCKET)) as [?|Hv]; [done|].
      apply Hsound in Hv. congruence.
    + intros Ho%outcome_Pending Hv. destruct (Hpend Ho) as [Hin|Hin].
      * destruct (Hth p Hin) as (_ & c' & Hc' & _ & Hs). congruence.
      * split; [done|]. destruct (Hco p Hin) as (c' & Hc' & _ & Hs). congruence.
  - intros fs cur s Hreach.
    destruct (freachable_finv HErase fs Hreach) as (_ & _ & _ & _ & _ & _ & Hab).
    assert (∀ e, e ∈ trace (base fs) → subject e = cur →
              ∃ c seen, e ∈ reap_events cur c seen ∧ sound c) as Hev.
    { intros e He Hsub. destruct (Hab cur) as [Hnil|(c & seen & Heq & _ & Hsound & _)].
      - assert (e ∈ about cur (trace (base fs))) as Hin by (by apply elem_of_about).
        rewrite Hnil in Hin. by apply elem_of_nil in Hin.
      - exists c, seen. split; [|done]. rewrite <- Heq. by apply elem_of_about. }
    split.
    + intros seen He. destruct (Hev _ He eq_refl) as (c & seen' & Hin & [Hv _]).
      unfold reap_events in Hin.
      destruct ((connected c || aborted c) && killed c).
      { destruct (sock c =? INVALID_SOCKET)%Z; simpl in Hin; by in_list Hin. }
      destruct (connected c) eqn:Hco; [|by in_list Hin].
      apply elem_of_cons in Hin as [[= -> ->]|Hin]; [by apply Hv|by in_list Hin].
    + intros He. destruct (Hev _ He eq_refl) as (c & seen' & Hin & [Hv _]).
      unfold reap_events in Hin.
      destruct ((connected c || aborted c) && killed c).
      * destruct (sock c =? INVALID_SOCKET)%Z eqn:Hinv; simpl in Hin; [by in_list Hin|].
        apply elem_of_cons in Hin as [[= ->]|Hin]; [by apply Z.eqb_neq|by in_list Hin].
      * destruct (connected c); by in_list Hin.
Qed.

End FineClaims.

Section FineExtras.
Context `{Collaborators} `{Allocation}.
Hypothesis HErase : Erase_spec.

(** A finished and killed connecter has no handler event in the events of
    its turn. *)
Lemma reap_events_killed p c seen :
  terminal c = true → killed c = true →
  reap_events p c seen =
  (if (sock c =? INVALID_SOCKET)%Z then [] else [EvClosesocket p (sock c)]) ++ [EvDelete p].
Proof. intros Ht Hk. unfold reap_events, terminal in *. by rewrite Ht, Hk. Qed.

Lemma not_notified_about p (evs : list Event) : notified (about p evs) = [] → p ∉ notified evs.
Proof.
  intros Hnil Hp. rewrite <- notified_about in Hnil.
  assert (p ∈ filter (λ q, q = p) (notified evs)) as Hin by (by apply list_elem_of_filter).
  rewrite Hnil in Hin. by apply elem_of_nil in Hin.
Qed.

(** Property X6.  A connecter that has finished and is killed when
    [CheckCallbacks] begins is reaped without a handler call, whatever the
    threads do during the call and whatever the handlers of the other
    connecters construct: its socket is closed when it is valid, it is
    deleted, and it is neither registered nor live afterwards.  With
    handlers that construct nothing the call ends under every schedule. *)
Theorem X6_finished_and_killed_is_reaped_silently fs p c sched :
  freachable fs → heap (base fs) !! p = Some c → outcome c ≠ Pending → killed c = true →
  (∃ fs', CheckCallbacks_fine (λ _ _ _, []) (λ _ _, [])
            (length (_tcp_connecters (base fs))) sched 0 fs = FDone fs') ∧
  ∀ OnConnect OnFailure fuel fs',
    CheckCallbacks_fine OnConnect OnFailure fuel sched 0 fs = FDone fs' →
    (p ∉ _tcp_connecters (base fs')) ∧ heap (base fs') !! p = None ∧
    ∃ evs, trace (base fs') = trace (base fs) ++ evs ∧
      about p evs =
        (if (sock c =? INVALID_SOCKET)%Z then [] else [EvClosesocket p (sock c)]) ++
        [EvDelete p] ∧
      (p ∉ notified evs).
Proof.
  intros Hinv%(freachable_finv HErase) Hc Ht%outcome_terminal Hk. split.
  { apply (fine_quiet_Done HErase); [done|lia]. }
  intros OnConnect OnFailure fuel fs' Hdone.
  pose proof Hinv as (_ & Hall & _).
  destruct (fine_terminal_reaped HErase OnConnect OnFailure p c fuel sched 0 fs fs' Hinv)
    as (Hout & Hgone & evs & seen & Htr & Hev & _); [by apply Hall|done..|].
  split_and!; [done..|]. exists evs.
  rewrite reap_events_killed in Hev by done. split_and!; [done..|].
  apply not_notified_about. rewrite Hev.
  by destruct (sock c =? INVALID_SOCKET)%Z.
Qed.

(** Property X18.  A connecter that has finished and is not killed when
    [CheckCallbacks] begins gets exactly one handler call in that call,
    whatever the threads do during the call and whatever the handlers
    construct: [OnConnect] with its socket when it is connected,
    [OnFailure] when not, in a registry that does not hold it, followed by
    its deletion; it is neither registered nor live afterwards.  With
    handlers that construct nothing the call ends under every schedule. *)
Theorem X18_finished_is_notified_once_under_any_schedule fs p c sched :
  freachable fs → heap (base fs) !! p = Some c → outcome c ≠ Pending → killed c = false →
  (∃ fs', CheckCallbacks_fine (λ _ _ _, []) (λ _ _, [])
            (length (_tcp_connecters (base fs))) sched 0 fs = FDone fs') ∧
  ∀ OnConnect OnFailure fuel fs',
    CheckCallbacks_fine OnConnect OnFailure fuel sched 0 fs = FDone fs' →
    (p ∉ _tcp_connecters (base fs')) ∧ heap (base fs') !! p = None ∧
    ∃ evs seen, trace (base fs') = trace (base fs) ++ evs ∧ (p ∉ seen) ∧
      about p evs =
        (if connected c then [EvOnConnect p (sock c) seen; EvDelete p]
         else [EvOnFailure p seen; EvDelete p]) ∧
      filter (λ q, q = p) (notified evs) = [p].
Proof.
  intros Hinv%(freachable_finv HErase) Hc Ht%outcome_terminal Hk. split.
  { apply (fine_quiet_Done HErase); [done|lia]. }
  intros OnConnect OnFailure fuel fs' Hdone.
  pose proof Hinv as (_ & Hall & _).
  destruct (fine_terminal_reaped HErase OnConnect OnFailure p c fuel sched 0 fs fs' Hinv)
    as (Hout & Hgone & evs & seen & Htr & Hev & Hseen); [by apply Hall|done..|].
  split_and!; [done..|]. exists evs, seen.
  assert (reap_events p c seen =
          if connected c then [EvOnConnect p (sock c) seen; EvDelete p]
          else [EvOnFailure p seen; EvDelete p]) as Heq.
  { unfold reap_events. by rewrite Hk, andb_false_r. }
  split_and!; [done|done|by rewrite Hev|].
  rewrite notified_about, Hev, Heq. by destruct (connected c).
Qed.

(** Property X8.  In every state that the code reaches with threads that
    take their steps at any time, short of a run in which the iterator
    dangles, the registry holds exactly the live connecters, each once,
    and a live connecter has neither flag set exactly when its thread has
    still to begin or is between the two statements of [Connect]: no
    connecter is lost to [CheckCallbacks], none is registered after its
    deletion, and no thread is left with a deleted connecter. *)
Theorem X8_registry_is_the_live_set fs :
  freachable fs →
  NoDup (_tcp_connecters (base fs)) ∧
  (∀ p, p ∈ _tcp_connecters (base fs) ↔ is_Some (heap (base fs) !! p)) ∧
  (∀ p, p ∈ threads (base fs) ∨ p ∈ connecting fs ↔
        ∃ c, heap (base fs) !! p = Some c ∧ outcome c = Pending) ∧
  (∀ p, p ∈ threads (base fs) → p ∉ connecting fs).
Proof.
  intros ((Hnd & Hlive & _) & Hall & (Hobj & Hth & Hco) & _)%(freachable_finv HErase).
  split_and!; [done| | |].
  - intros p. split; [apply Hlive|apply Hall].
  - intros p. split.
    + intros [(_ & c & Hc & Ht & _)%Hth|(c & Hc & Ht & _)%Hco];
        exists c; by rewrite outcome_Pending.
    + intros (c & Hc & Ht%outcome_Pending). by apply (Hobj p c).
  - intros p Hp. by apply Hth.
Qed.

(** Property X10.  The whole life of a connecter, in every state that the
    code reaches with threads that take their steps at any time, short of
    a run in which the iterator dangles: the events about it are none (it
    has not been reaped), or one handler call followed by its deletion,
    or, for a killed one, its deletion with the socket closed before when
    there was one.  A socket handed to [OnConnect] is a valid one and is
    never closed by this file, [OnConnect] and [OnFailure] are never both
    called, and a handler does not find its own connecter registered. *)
Theorem X10_life_of_a_connecter fs p :
  freachable fs →
  about p (trace (base fs)) = [] ∨
  (∃ s seen, s ≠ INVALID_SOCKET ∧ (p ∉ seen) ∧
             about p (trace (base fs)) = [EvOnConnect p s seen; EvDelete p]) ∨
  (∃ seen, (p ∉ seen) ∧ about p (trace (base fs)) = [EvOnFailure p seen; EvDelete p]) ∨
  (∃ s, s ≠ INVALID_SOCKET ∧ about p (trace (base fs)) = [EvClosesocket p s; EvDelete p]) ∨
  about p (trace (base fs)) = [EvDelete p].
Proof.
  intros (_ & _ & _ & _ & _ & _ & Hab)%(freachable_finv HErase).
  destruct (Hab p) as [Hnil|(c & seen & Hev & Hseen & [Hsock Hexcl] & Hterm)]; [by left|].
  right. rewrite Hev. unfold reap_events, terminal in *. rewrite Hterm. simpl.
  destruct (killed c).
  - right. right. destruct (sock c =? INVALID_SOCKET)%Z eqn:Hs.
    + by right.
    + left. exists (sock c). split; [by apply Z.eqb_neq|done].
  - destruct (connected c) eqn:Hconn.
    + left. exists (sock c), seen. split_and!; [by apply Hsock|done|done].
    + right. left. by exists seen.
Qed.

(** Property X11.  In every state that the code reaches with threads that
    take their steps at any time, short of a run in which the iterator
    dangles, no connecter has been deleted twice or notified twice, and
    whatever [CheckCallbacks] has done it has done to a connecter that it
    has deleted too, which is not live, not registered and has no thread
    that runs. *)
Theorem X11_deleted_once_and_gone fs :
  freachable fs →
  NoDup (deleted (trace (base fs))) ∧ NoDup (notified (trace (base fs))) ∧
  ∀ e, e ∈ trace (base fs) →
    EvDelete (subject e) ∈ trace (base fs) ∧ heap (base fs) !! subject e = None ∧
    (subject e ∉ _tcp_connecters (base fs)) ∧ (subject e ∉ threads (base fs)) ∧
    (subject e ∉ connecting fs).
Proof.
  intros ((_ & Hlive & _) & _ & (_ & Hth & Hco) & Hdead & Hnn & Hnd & Hab)%(freachable_finv HErase).
  split_and!; [done|done|].
  intros e He. destruct (Hdead e He) as [Hnone _]. split_and!; [|done| | |].
  - destruct (Hab (subject e)) as [Hnil|(c & seen & Hev & _)].
    + assert (e ∈ about (subject e) (trace (base fs))) as Hin by (by apply elem_of_about).
      rewrite Hnil in Hin. by apply elem_of_nil in Hin.
    + assert (EvDelete (subject e) ∈ about (subject e) (trace (base fs))) as Hin.
      { rewrite Hev. apply elem_of_deleted. rewrite deleted_reap_events. by left. }
      by apply elem_of_about in Hin as [? _].
  - intros [c Hc]%Hlive. congruence.
  - intros (_ & c & Hc & _)%Hth. congruence.
  - intros (c & Hc & _)%Hco. congruence.
Qed.

(** Property X12.  When no thread takes a step during the call and the
    connecters that the handlers construct fit the buffer, every connecter
    that is registered when the loop has ended is unfinished, the ones that
    the handlers have constructed included: a connecter that a handler
    constructs and that finishes in its constructor is reaped by the same
    [CheckCallbacks]. *)
Theorem X12_loop_leaves_only_unfinished
    (OnConnect : TCPConnecter_ptr → SOCKET → State → list NetworkAddress)
    (OnFailure : TCPConnecter_ptr → State → list NetworkAddress) fuel fs fs' :
  freachable fs → CheckCallbacks_fine OnConnect OnFailure fuel [] 0 fs = FDone fs' →
  CheckCallbacks_loop OnConnect OnFailure fuel 0 (base fs) = Done (base fs') ∧
  ∀ p, p ∈ _tcp_connecters (base fs') →
       ∃ c, heap (base fs') !! p = Some c ∧ outcome c = Pending ∧
            (p ∈ threads (base fs') ∨ p ∈ connecting fs').
Proof.
  intros Hreach Hdone.
  pose proof (freachable_finv HErase fs Hreach) as (Hwf & _).
  pose proof (CheckCallbacks_fine_quiet OnConnect OnFailure fuel 0 fs) as Hq.
  rewrite Hdone in Hq. destruct Hq as [Hloop _]. split; [done|].
  assert (freachable fs') as Hreach'.
  { eapply rtc_r; [apply Hreach|]. by eapply fstep_CheckCallbacks. }
  destruct (freachable_finv HErase fs' Hreach') as (_ & _ & (Hobj & _) & _).
  intros p Hp.
  destruct (loop_leaves_only_unfinished HErase OnConnect OnFailure fuel (base fs) (base fs')
              Hwf Hloop p Hp) as (c & Hc & Hpend).
  exists c. split_and!; [done..|]. apply (Hobj p c Hc). by apply outcome_Pending.
Qed.

End FineExtras.

Section FineKilled.
Context `{Collaborators} `{Allocation}.
Hypothesis HErase : Erase_spec.

Lemma set_killed_killed c : killed c = true → set_killed c = c.
Proof. destruct c; simpl. by intros ->. Qed.

(** The object of [p] as it was, when [p] is live. *)
Local Abbreviation same_object p c fs :=
  (∀ c', heap (base fs) !! p = Some c' → c' = c).

Lemma same_object_thread_step p c q fs :
  fsound fs → terminal c = true → same_object p c fs → same_object p c (thread_step q fs).
Proof.
  intros Hs Ht Hsame c' Hc'.
  destruct (heap (base fs) !! p) as [c0|] eqn:Hc0.
  - rewrite (Hsame c0 eq_refl) in Hc0.
    rewrite (thread_step_finished q p c fs Hs Hc0 Ht) in Hc'. congruence.
  - by rewrite (thread_step_dead q p fs Hc0) in Hc'.
Qed.

(** The events of a turn on a connecter other than [p], or on [p] when the
    first test has applied, notify no [p]. *)
Lemma not_notified_turn p cur b c seen (evs : list Event) :
  (p ∉ notified evs) → (cur = p → b = Silent) → terminal c = true → branch_ok b c →
  p ∉ notified (evs ++ reap_events cur (view b c) seen).
Proof.
  intros Hn Hb Ht Hok. rewrite notified_app, notified_reap_events.
  intros [Hp|Hp]%elem_of_app; [done|].
  destruct ((connected (view b c) || aborted (view b c)) && killed (view b c)) eqn:Hq;
    [by apply elem_of_nil in Hp|].
  apply list_elem_of_singleton in Hp. rewrite (Hb (eq_sym Hp)) in Hq, Hok. simpl in *.
  unfold terminal in Ht. by rewrite Ht, Hok in Hq.
Qed.

(** A finished and killed connecter through one step of the subsystem. *)
Lemma finished_killed_fstep p c fs fs' :
  finv fs → fstep fs fs' → p < next_ptr (base fs) → terminal c = true → killed c = true →
  same_object p c fs →
  p < next_ptr (base fs') ∧ same_object p c fs' ∧
  ∃ evs, trace (base fs') = trace (base fs) ++ evs ∧ (p ∉ notified evs).
Proof.
  intros Hinv Hstep Hlt Ht Hk Hsame.
  assert (∀ st0 : State, ∃ evs, trace st0 = trace st0 ++ evs ∧ (p ∉ notified evs)) as Hnone.
  { intros st0. exists []. rewrite app_nil_r. split; [done|]. apply not_elem_of_nil. }
  destruct Hstep as [addr fs|q fs|fs|OnC OnF fuel sched fs fs' Hdone].
  - destruct (base_new_fine addr fs) as (-> & _). rewrite TCPConnecter_new_shape; simpl.
    split_and!; [lia| |apply Hnone].
    intros c'. rewrite lookup_insert_ne by lia. apply Hsame.
  - destruct (thread_step_frame q fs) as (_ & -> & -> & _).
    split_and!; [done| |apply Hnone].
    apply same_object_thread_step; [apply Hinv|done..].
  - unfold KillAll_fine, lift, KillAll; simpl. split_and!; [done| |apply Hnone].
    intros c'. rewrite KillAll_lookup. case_decide; [|apply Hsame].
    destruct (heap (base fs) !! p) as [c0|]; [|done]. intros [= <-].
    rewrite (Hsame c0 eq_refl). by apply set_killed_killed.
  - set (I := λ fs1, finv fs1 ∧ p < next_ptr (base fs1) ∧ same_object p c fs1 ∧
      ∃ evs, trace (base fs1) = trace (base fs) ++ evs ∧ (p ∉ notified evs)).
    enough (I fs') as (_ & ? & ? & ?) by done.
    apply (fine_loop_inv_final OnC OnF I) with fuel sched 0 fs; [| | | |by rewrite Hdone].
    + intros fs1 (Hinv1 & _). split; apply Hinv1.
    + intros fs1 q (Hinv1 & Hlt1 & Hsame1 & evs & Htr & Hn).
      destruct (thread_step_frame q fs1) as (_ & Htr1 & Hn1 & _).
      split_and!; [by apply finv_thread_step|by rewrite Hn1| |].
      * apply same_object_thread_step; [apply Hinv1|done..].
      * exists evs. by rewrite Htr1.
    + clear Hdone. intros i fs0 fs1 fs2 cur c1 b (_ & _ & Hsame0 & _)
        (Hinv1 & Hlt1 & Hsame1 & evs & Htr & Hn) _ Hi Hc1 Ht1 Hb Hinfo Hbase Hconn _ _.
      pose proof (reap_shape OnC OnF i cur (view b c1) (base fs1)) as Hshape.
      rewrite <- Hbase in Hshape. destruct Hshape as (_ & Hnext & _ & Htr2 & Hold & _).
      split_and!.
      * by eapply (finv_turn HErase).
      * lia.
      * intros c'. rewrite Hold by lia. case_decide; [done|apply Hsame1].
      * exists (evs ++ reap_events cur (view b c1) (Erase i (_tcp_connecters (base fs1)))).
        split; [by rewrite Htr2, Htr, app_assoc|].
        apply not_notified_turn; [done| |done..].
        intros ->. rewrite (Hsame1 c1 Hc1) in *.
        assert (b = Silent ∨ b ≠ Silent) as [?|Hne] by (destruct b; [by left|by right..]);
          [done|].
        destruct (Hinfo Hne) as [?|(c' & Hc' & Ht')]; [congruence|].
        rewrite (Hsame0 c' Hc') in Ht'. congruence.
    + split_and!; [done..|apply Hnone].
Qed.

(** Property X7.  A connecter that has finished and is killed is never
    notified: through every further step of the subsystem, whatever the
    threads do and whatever the handlers of the [CheckCallbacks] in between
    construct, no handler is called for it, and as long as it is live its
    object is as it was. *)
Theorem X7_finished_and_killed_is_never_notified fs fs' p c :
  freachable fs → heap (base fs) !! p = Some c → outcome c ≠ Pending → killed c = true →
  rtc fstep fs fs' →
  ∃ evs,
    trace (base fs') = trace (base fs) ++ evs ∧ (p ∉ notified evs) ∧
    ∀ c', heap (base fs') !! p = Some c' → c' = c.
Proof.
  intros Hinv%(freachable_finv HErase) Hc Ht%outcome_terminal Hk Hsteps.
  assert (p < next_ptr (base fs)) as Hlt.
  { destruct Hinv as ((_ & _ & Hnx) & _). apply Hnx. by eexists. }
  assert (same_object p c fs) as Hsame by (intros c'; congruence).
  clear Hc. revert Hinv Hlt Hsame.
  induction Hsteps as [fs|fs y z Hstep Hsteps IH]; intros Hinv Hlt Hsame.
  - exists []. rewrite app_nil_r. split_and!; [done|apply not_elem_of_nil|done].
  - destruct (finished_killed_fstep p c fs y Hinv Hstep Hlt Ht Hk Hsame)
      as (Hlt' & Hsame' & evs1 & Htr1 & Hn1).
    destruct (IH (finv_fstep HErase _ _ Hinv Hstep) Hlt' Hsame') as (evs2 & Htr2 & Hn2 & Hsame2).
    exists (evs1 ++ evs2). split_and!; [by rewrite Htr2, Htr1, app_assoc| |done].
    rewrite notified_app. by intros [?|?]%elem_of_app.
Qed.

(** The connecters that were there when [CheckCallbacks] began, all of
    them killed: they stay killed, and one that has not finished had not
    finished then. *)
Local Abbreviation old_killed fs fs1 :=
  (∀ p c1, p < next_ptr (base fs) → heap (base fs1) !! p = Some c1 →
     killed c1 = true ∧
     (terminal c1 = false → ∃ c, heap (base fs) !! p = Some c ∧ terminal c = false)).

Lemma old_killed_thread_step fs fs1 q :
  old_killed fs fs1 → old_killed fs (thread_step q fs1).
Proof.
  intros Hold p c1' Hp Hc1'.
  assert (is_Some (heap (base fs1) !! p)) as [c1 Hc1].
  { apply (thread_step_live q). by eexists. }
  destruct (thread_step_mono q p c1 fs1 Hc1) as (c2 & Hc2 & Hk2 & _ & Hco & Hab).
  assert (c2 = c1') as -> by congruence.
  destruct (Hold p c1 Hp Hc1) as [Hk Hpend]. split; [congruence|].
  intros Ht. apply Hpend. unfold terminal in *.
  destruct (connected c1); [by rewrite Hco in Ht|].
  destruct (aborted c1); [|done]. rewrite Hab in Ht by done. by rewrite orb_true_r in Ht.
Qed.

(** Property X4.  [CheckCallbacks] after [KillAll]: the first connecter
    that is notified, when there is one, had not finished when the call
    began, so its thread has ended during the call; every connecter that is
    notified is such a one or has been constructed by a handler during the
    call.  When every connecter had finished, no handler is called. *)
Theorem X4_after_KillAll_only_threads_that_end_in_the_call_notify
    (OnConnect : TCPConnecter_ptr → SOCKET → State → list NetworkAddress)
    (OnFailure : TCPConnecter_ptr → State → list NetworkAddress) fuel sched fs fs' :
  freachable fs →
  CheckCallbacks_fine OnConnect OnFailure fuel sched 0 (KillAll_fine fs) = FDone fs' →
  ∃ evs,
    trace (base fs') = trace (base fs) ++ evs ∧
    (∀ p, p ∈ notified evs →
       (∃ c, heap (base fs) !! p = Some c ∧ outcome c = Pending) ∨ next_ptr (base fs) ≤ p) ∧
    (∀ p rest, notified evs = p :: rest →
       ∃ c, heap (base fs) !! p = Some c ∧ outcome c = Pending) ∧
    ((∀ p c, heap (base fs) !! p = Some c → outcome c ≠ Pending) → notified evs = []).
Proof.
  intros Hinv%(freachable_finv HErase) Hdone.
  set (N := next_ptr (base fs)).
  set (was_pending := λ p, ∃ c, heap (base fs) !! p = Some c ∧ outcome c = Pending).
  set (I := λ fs1, finv fs1 ∧ N ≤ next_ptr (base fs1) ∧ old_killed fs fs1 ∧
    ∃ evs, trace (base fs1) = trace (base fs) ++ evs ∧
      (notified evs = [] → next_ptr (base fs1) = N) ∧
      (∀ p, p ∈ notified evs → was_pending p ∨ N ≤ p) ∧
      (∀ p rest, notified evs = p :: rest → was_pending p)).
  enough (I fs') as (_ & _ & _ & evs & Htr & _ & Hall & Hfirst).
  { exists evs. split_and!; [done..|]. intros Hfin.
    destruct (notified evs) as [|p rest] eqn:Hn; [done|].
    destruct (Hfirst p rest eq_refl) as (c & Hc & Hpend). by destruct (Hfin p c Hc). }
  apply (fine_loop_inv_final OnConnect OnFailure I) with fuel sched 0 (KillAll_fine fs);
    [| | | |by rewrite Hdone].
  - intros fs1 (Hinv1 & _). split; apply Hinv1.
  - intros fs1 q (Hinv1 & Hlt1 & Hold1 & evs & Htr & Hn).
    destruct (thread_step_frame q fs1) as (_ & Htr1 & Hn1 & _).
    split_and!; [by apply finv_thread_step|by rewrite Hn1|by apply old_killed_thread_step|].
    exists evs. by rewrite Htr1, Hn1.
  - clear Hdone. intros i fs0 fs1 fs2 cur c1 b (_ & _ & Hold0 & _)
      (Hinv1 & Hlt1 & Hold1 & evs & Htr & Hnil & Hall & Hfirst) _ Hi Hc1 Ht1 Hb Hinfo
      Hbase Hconn _ _.
    pose proof (reap_shape OnConnect OnFailure i cur (view b c1) (base fs1)) as Hshape.
    rewrite <- Hbase in Hshape. destruct Hshape as (_ & Hnext & _ & Htr2 & Hheap & _).
    assert (cur < next_ptr (base fs1)) as Hcur.
    { destruct Hinv1 as ((_ & _ & Hnx) & _). apply Hnx. by eexists. }
    split_and!.
    + by eapply (finv_turn HErase).
    + lia.
    + intros p c2 Hp. rewrite Hheap by (unfold N in *; lia).
      case_decide; [done|]. by apply Hold1.
    + exists (evs ++ reap_events cur (view b c1) (Erase i (_tcp_connecters (base fs1)))).
      split; [by rewrite Htr2, Htr, app_assoc|].
      rewrite notified_app, notified_reap_events.
      assert (b = Silent ∨ b ≠ Silent) as [->|Hne] by (destruct b; [by left|by right..]).
      * simpl in *. unfold terminal in Ht1. rewrite Ht1, Hb, app_nil_r. simpl.
        unfold reap_news in Hnext. simpl in Hnext. rewrite Ht1, Hb in Hnext. simpl in Hnext.
        split_and!; [|done|done]. intros Hn. rewrite Hnext, Hnil by done. lia.
      * assert ((connected (view b c1) || aborted (view b c1)) && killed (view b c1) = false)
          as -> by (by destruct b).
        assert (was_pending cur ∨ N ≤ cur) as Hcase.
        { destruct (decide (cur < N)) as [Hlt|]; [left|right; lia].
          destruct (Hinfo Hne) as [Hk|(c' & Hc' & Ht')].
          - destruct (Hold1 cur c1 Hlt Hc1). congruence.
          - destruct (Hold0 cur c' Hlt Hc') as [_ Hpend].
            destruct (Hpend Ht') as (c & Hc & Ht). exists c. by rewrite outcome_Pending. }
        split_and!.
        -- intros Hn. by destruct (notified evs).
        -- intros p [Hp|Hp%list_elem_of_singleton]%elem_of_app; [by apply Hall|by subst].
        -- intros p rest Heq. destruct (notified evs) as [|q rest'] eqn:Hn.
           ++ simpl in Heq. injection Heq as <- <-.
              destruct Hcase as [?|Hge]; [done|]. rewrite Hnil in Hcur by done. lia.
           ++ simpl in Heq. injection Heq as <- <-. by apply (Hfirst q rest').
  - split_and!.
    + by apply finv_KillAll.
    + done.
    + intros p c1 Hp. unfold KillAll_fine, lift, KillAll; simpl. rewrite KillAll_lookup.
      destruct Hinv as (_ & Hall & _).
      destruct (heap (base fs) !! p) as [c|] eqn:Hc; [|by case_decide].
      rewrite decide_True by (apply Hall; by eexists). simpl. intros [= <-].
      split; [done|]. intros Ht. by exists c.
    + exists []. rewrite app_nil_r. split_and!; [done|done| |done].
      intros p Hp. by apply elem_of_nil in Hp.
Qed.

End FineKilled.

(** * newgrf_debug_gui.cpp *)

Section NewGRFDebugGUIFacts.
Context `{GUICollaborators}.
Hypothesis HBitMath : BitMath_spec.
Local Open Scope Z_scope.

Lemma GB_low x n : 0 ≤ n → GB x 0 n = x mod 2 ^ n.
Proof.
  intros Hn. destruct HBitMath as [HGB _].
  by rewrite HGB, Z.shiftr_0_r, Z.land_ones.
Qed.

Lemma GB_high x s n : 0 ≤ s → 0 ≤ n → GB x s n = (x / 2 ^ s) mod 2 ^ n.
Proof.
  intros Hs Hn. destruct HBitMath as [HGB _].
  by rewrite HGB, Z.shiftr_div_pow2, Z.land_ones.
Qed.

(** The feature and the index do not overlap: to or them is to add them. *)
Lemma lor_feature_index feature index :
  0 ≤ index < 2 ^ 24 → Z.lor (Z.shiftl feature 24) index = feature * 2 ^ 24 + index.
Proof.
  intros Hi.
  assert (Z.land (Z.shiftl feature 24) index = 0) as Hland.
  { apply Z.bits_inj'. intros n Hn. rewrite Z.land_spec, Z.bits_0.
    destruct (decide (n < 24)) as [Hlt|Hge].
    - by rewrite Z.shiftl_spec_low.
    - assert (Z.testbit index n = false) as ->; [|by rewrite andb_false_r].
      apply Z.testbit_false; [done|]. rewrite Z.div_small; [done|]. split; [lia|].
      apply Z.lt_le_trans with (2 ^ 24); [lia|]. apply Z.pow_le_mono_r; lia. }
  rewrite <- Z.lxor_lor by done. rewrite <- Z.add_nocarry_lxor by done.
  by rewrite Z.shiftl_mul_pow2.
Qed.

Lemma GetInspectWindowNumber_value feature index :
  0 ≤ feature < 2 ^ 8 → 0 ≤ index < 2 ^ 24 →
  GetInspectWindowNumber feature index = Some (feature * 2 ^ 24 + index).
Proof.
  intros Hf Hi. unfold GetInspectWindowNumber.
  rewrite Z.shiftr_div_pow2, Z.div_small by lia. simpl.
  rewrite lor_feature_index by done. unfold uint. f_equal.
  apply Z.mod_small. lia.
Qed.

Lemma decode_window_number feature index :
  0 ≤ feature < 2 ^ 8 → 0 ≤ index < 2 ^ 24 →
  GetFeatureIndex (feature * 2 ^ 24 + index) = index ∧
  GB (feature * 2 ^ 24 + index) 24 8 = feature.
Proof.
  intros Hf Hi. unfold GetFeatureIndex. rewrite GB_low, GB_high by lia. split.
  - rewrite Z.add_comm, Z.mod_add by lia. apply Z.mod_small. lia.
  - rewrite Z.add_comm, Z.div_add, Z.div_small by lia. apply Z.mod_small. lia.
Qed.

Lemma decode_range x :
  0 ≤ x < 2 ^ 32 →
  0 ≤ GB x 24 8 < 2 ^ 8 ∧ 0 ≤ GetFeatureIndex x < 2 ^ 24 ∧
  GB x 24 8 * 2 ^ 24 + GetFeatureIndex x = x.
Proof.
  intros Hx. unfold GetFeatureIndex. rewrite GB_low, GB_high by lia.
  assert (0 ≤ x / 2 ^ 24 < 2 ^ 8) as Hq.
  { split; [apply Z.div_pos; lia|]. apply Z.div_lt_upper_bound; lia. }
  rewrite (Z.mod_small (x / 2 ^ 24)) by done.
  pose proof (Z.mod_pos_bound x (2 ^ 24)).
  pose proof (Z.div_mod x (2 ^ 24)). lia.
Qed.

(** Property X13.  The number of an inspect window encodes the feature and
    the index without loss: [GetFeatureIndex] and the [GB] of [GetFeature]
    and [OnClick] give back the index and the feature the number was made
    of, so two inspected items share a window only when they are the same;
    an index of more than 24 bits fails the assertion. *)
Theorem X13_window_number_round_trip feature index :
  0 ≤ feature < 2 ^ 8 → 0 ≤ index < 2 ^ 32 →
  (index < 2 ^ 24 →
   ∃ wno, GetInspectWindowNumber feature index = Some wno ∧ 0 ≤ wno < 2 ^ 32 ∧
          GetFeatureIndex wno = index ∧ GB wno 24 8 = feature) ∧
  (2 ^ 24 ≤ index → GetInspectWindowNumber feature index = None) ∧
  (∀ feature' index', 0 ≤ feature' < 2 ^ 8 → 0 ≤ index' < 2 ^ 24 →
     GetInspectWindowNumber feature' index' = GetInspectWindowNumber feature index →
     feature' = feature ∧ index' = index).
Proof.
  intros Hf Hi. split_and!.
  - intros Hlt. exists (feature * 2 ^ 24 + index).
    rewrite GetInspectWindowNumber_value by lia.
    destruct (decode_window_number feature index) as [Hidx Hfeat]; [lia..|].
    split_and!; [done|lia|lia|done|done].
  - intros Hge. unfold GetInspectWindowNumber. rewrite Z.shiftr_div_pow2 by lia.
    destruct (index / 2 ^ 24 =? 0) eqn:Hq; [|done].
    apply Z.eqb_eq in Hq. apply Z.div_small_iff in Hq; lia.
  - intros feature' index' Hf' Hi' Heq.
    rewrite GetInspectWindowNumber_value in Heq by done.
    destruct (Z_lt_le_dec index (2 ^ 24)) as [Hlt|Hge].
    + rewrite GetInspectWindowNumber_value in Heq by lia. injection Heq as Heq. lia.
    + unfold GetInspectWindowNumber in Heq. rewrite Z.shiftr_div_pow2 in Heq by lia.
      destruct (index / 2 ^ 24 =? 0) eqn:Hq; [|done].
      apply Z.eqb_eq in Hq. apply Z.div_small_iff in Hq; lia.
Qed.

(** To show the window of a decoded window number is to show that very
    window. *)
Lemma ShowNewGRFInspectWindow_decoded x :
  0 ≤ x < 2 ^ 32 →
  ShowNewGRFInspectWindow (GB x 24 8) (GetFeatureIndex x) =
  Some (match GetFeature x with
        | Some nif =>
            if IsInspectable (helper nif) (GetFeatureIndex x)
            then [EvAllocateWindowDescFront x] else []
        | None => []
        end).
Proof.
  intros Hx. destruct (decode_range x Hx) as (Hf & Hi & Heq).
  unfold ShowNewGRFInspectWindow, IsNewGRFInspectable.
  rewrite GetInspectWindowNumber_value, Heq by done. simpl.
  destruct (GetFeature x) as [nif|]; simpl; [|done].
  by destruct (IsInspectable _ _).
Qed.

(** Property X14.  A click on the parent button never fails the assertion
    of [GetInspectWindowNumber], whatever number [GetParent] gives: the
    number is taken apart and put together again to the same number, and
    the window that is shown, if any, is the window of that number.  None
    is shown when the feature of the number has no entry in the table or
    the helper of the feature says that the item is not inspectable. *)
Theorem X14_parent_button_shows_parent w nif :
  GetFeature (window_number w) = Some nif →
  let parent := uint (GetParent (helper nif) (GetFeatureIndex (window_number w))) in
  GetInspectWindowNumber (GB parent 24 8) (GetFeatureIndex parent) = Some parent ∧
  OnClick_NIW_PARENT w =
  Some (match GetFeature parent with
        | Some pnif =>
            if IsInspectable (helper pnif) (GetFeatureIndex parent)
            then [EvAllocateWindowDescFront parent] else []
        | None => []
        end).
Proof.
  intros Hnif parent.
  assert (0 ≤ parent < 2 ^ 32) as Hp by (apply Z.mod_pos_bound; lia).
  destruct (decode_range parent Hp) as (Hf & Hi & Heq). split.
  - by rewrite GetInspectWindowNumber_value, Heq.
  - unfold OnClick_NIW_PARENT, GetFeatureHelper. rewrite Hnif. simpl.
    by apply ShowNewGRFInspectWindow_decoded.
Qed.

(** Property X15.  [ShowNewGRFInspectWindow] opens a window exactly for a
    feature below [GSF_FAKE_END] that has an entry in the table and whose
    helper says the item is inspectable; the table is read at the feature
    itself; and [DeleteNewGRFInspectWindow] deletes the window with the
    number [ShowNewGRFInspectWindow] has opened. *)
Theorem X15_show_and_delete feature index :
  0 ≤ feature < 2 ^ 8 → 0 ≤ index < 2 ^ 24 → GSF_FAKE_END ≤ GSF_INVALID →
  let wno := feature * 2 ^ 24 + index in
  (ShowNewGRFInspectWindow feature index = Some [EvAllocateWindowDescFront wno] ∨
   ShowNewGRFInspectWindow feature index = Some []) ∧
  (ShowNewGRFInspectWindow feature index = Some [EvAllocateWindowDescFront wno] ↔
   feature < GSF_FAKE_END ∧
   ∃ nif, _nifeatures feature = Some nif ∧ IsInspectable (helper nif) index = true) ∧
  (ShowNewGRFInspectWindow feature index = Some [EvAllocateWindowDescFront wno] →
   ∃ more, DeleteNewGRFInspectWindow feature index = Some (EvDeleteWindowById wno :: more)).
Proof.
  intros Hf Hi Hend wno.
  destruct (decode_window_number feature index Hf Hi) as [Hidx Hfeat].
  assert (ShowNewGRFInspectWindow feature index =
          Some (if feature <? GSF_FAKE_END then
                  match _nifeatures feature with
                  | Some nif =>
                      if IsInspectable (helper nif) index
                      then [EvAllocateWindowDescFront wno] else []
                  | None => []
                  end
                else [])) as Hshow.
  { unfold ShowNewGRFInspectWindow, IsNewGRFInspectable, GetFeature.
    rewrite GetInspectWindowNumber_value by done. simpl.
    rewrite Hfeat, (Z.mod_small feature) by lia.
    destruct (feature <? GSF_FAKE_END); [|done].
    destruct (_nifeatures feature) as [nif|]; [|done].
    by destruct (IsInspectable _ _). }
  assert (ShowNewGRFInspectWindow feature index = Some [EvAllocateWindowDescFront wno] ↔
          feature < GSF_FAKE_END ∧
          ∃ nif, _nifeatures feature = Some nif ∧ IsInspectable (helper nif) index = true)
    as Hiff.
  { rewrite Hshow. destruct (feature <? GSF_FAKE_END) eqn:Hlt.
    - apply Z.ltb_lt in Hlt. destruct (_nifeatures feature) as [nif|].
      + destruct (IsInspectable (helper nif) index) eqn:Hins.
        * split; [eauto|done].
        * split; [done|]. intros (_ & nif' & [= <-] & Hins'). congruence.
      + split; [done|]. by intros (_ & nif' & ? & _).
    - apply Z.ltb_ge in Hlt. split; [done|]. lia. }
  split_and!.
  - rewrite Hshow. destruct (feature <? GSF_FAKE_END); [|by right].
    destruct (_nifeatures feature) as [nif|]; [|by right].
    destruct (IsInspectable _ _); [by left|by right].
  - done.
  - intros (Hlt & _)%Hiff. unfold DeleteNewGRFInspectWindow.
    destruct (feature =? GSF_INVALID) eqn:Hinv; [apply Z.eqb_eq in Hinv; lia|].
    rewrite GetInspectWindowNumber_value by done. simpl. eauto.
Qed.

Lemma HasVariableParameter_iff v :
  0 ≤ v < 2 ^ 32 → HasVariableParameter v = true ↔ 0x60 ≤ v < 0x80.
Proof.
  intros Hv. destruct HBitMath as [_ HBS]. unfold HasVariableParameter.
  rewrite HBS, Z.ltb_lt. unfold uint.
  destruct (Z_lt_le_dec v 0x60) as [Hlt|Hge].
  - replace ((v - 0x60) mod 2 ^ 32) with (v - 0x60 + 2 ^ 32); [lia|].
    symmetry. rewrite <- (Z.mod_add _ 1) by lia. rewrite Z.mul_1_l.
    apply Z.mod_small. lia.
  - rewrite Z.mod_small by lia. lia.
Qed.

(** What the loop of [OnClick] does, from any line on: it asks for at most
    one parameter, and when it asks, [current_edit_param] is a variable of
    the list with a number from 0x60 to 0x7F. *)
Lemma OnClick_find_shape niv : ∀ line w evs w' evs',
  Forall (λ v, 0 ≤ var v < 2 ^ 8) niv →
  OnClick_find niv line w evs = Some (w', evs') →
  (w' = w ∧ evs' = evs) ∨
  (1 ≤ line ∧ ∃ v, niv !! Z.to_nat (line - 1) = Some v ∧ 0x60 ≤ var v < 0x80 ∧
     w' = set_current_edit_param (var v) w ∧ current_edit_param w' = var v ∧
     evs' = evs ++ [EvShowQueryString]).
Proof.
  induction niv as [|v niv IH]; intros line w evs w' evs' Hvars Hrun; simpl in Hrun.
  - left. by injection Hrun as <- <-.
  - apply Forall_cons in Hvars as [Hv Hvars].
    destruct (line =? 1) eqn:Hline; simpl in Hrun.
    + apply Z.eqb_eq in Hline as ->.
      destruct (HasVariableParameter (var v)) eqn:Hpar; simpl in Hrun.
      * apply HasVariableParameter_iff in Hpar; [|lia].
        destruct (IH _ _ _ _ _ Hvars Hrun) as [[-> ->]|(Hle & _)]; [|lia].
        right. split; [lia|]. exists v. split_and!; [done|lia|lia|done| |done].
        simpl. apply Z.mod_small. lia.
      * left. by injection Hrun as <- <-.
    + apply Z.eqb_neq in Hline.
      destruct (line =? - 2 ^ 31) eqn:Hmin; [done|].
      destruct (IH _ _ _ _ _ Hvars Hrun) as [?|(Hle & v' & Hv' & ?)]; [by left|].
      right. split; [lia|]. exists v'. split; [|done].
      replace (Z.to_nat (line - 1)) with (S (Z.to_nat (line - 1 - 1))) by lia. done.
Qed.

(** The loop ends without an overflow of [line] when the list is not longer
    than the way down to the least [int]. *)
Lemma OnClick_find_defined niv : ∀ line w evs,
  - 2 ^ 31 + Z.of_nat (length niv) ≤ line →
  ∃ r, OnClick_find niv line w evs = Some r.
Proof.
  induction niv as [|v niv IH]; intros line w evs Hline; simpl.
  - eauto.
  - cbn [length] in Hline. rewrite Nat2Z.inj_succ in Hline.
    destruct (line =? 1) eqn:H1; simpl.
    + apply Z.eqb_eq in H1 as ->.
      destruct (HasVariableParameter (var v)); simpl; [|eauto]. apply IH. lia.
    + destruct (line =? - 2 ^ 31) eqn:Hmin; [apply Z.eqb_eq in Hmin; lia|].
      apply IH. lia.
Qed.

(** Property X16.  A click on the main panel of a window whose feature has
    variables is well defined and asks for at most one parameter: for the
    variable on the line of the click (the first line is the heading), and
    only when the number of that variable is from 0x60 to 0x7F; the text
    that is then entered is stored into [var60params] at an index below
    0x20, that is, inside the array, and no other item of the array
    changes. *)
Theorem X16_edited_parameter_is_inside_the_array line w nif niv str var60params :
  GetFeature (window_number w) = Some nif → variables nif = Some niv →
  Forall (λ v, 0 ≤ var v < 2 ^ 8) niv → length var60params = 0x20%nat →
  - 2 ^ 31 + Z.of_nat (length niv) ≤ line + vscroll_position w < 2 ^ 31 →
  ∃ w' evs,
    OnClick_NIW_MAINPANEL line w = Some (w', evs) ∧
    ((w' = w ∧ evs = []) ∨
     (evs = [EvShowQueryString] ∧ line < vscroll_capacity w ∧
      ∃ v i, niv !! Z.to_nat (line + vscroll_position w - 1) = Some v ∧
        current_edit_param w' = var v ∧ var v = 0x60 + Z.of_nat i ∧ (i < 0x20)%nat ∧
        ∃ var60params',
          OnQueryTextFinished str w' var60params =
            Some (var60params', if StrEmpty str then [] else [EvSetDirty]) ∧
          length var60params' = 0x20%nat ∧
          (∀ j, j ≠ i → var60params' !! j = var60params !! j) ∧
          var60params' !! i =
            if StrEmpty str then var60params !! i else Some (strtol_16 str mod 2 ^ 8))).
Proof.
  intros Hnif Hniv Hvars Hlen Hline.
  unfold OnClick_NIW_MAINPANEL. rewrite Hnif. simpl. rewrite Hniv.
  destruct (vscroll_capacity w <=? line) eqn:Hcap.
  { exists w, []. split; [done|]. by left. }
  apply Z.leb_gt in Hcap.
  destruct ((line + vscroll_position w <? - 2 ^ 31) || (2 ^ 31 <=? line + vscroll_position w))
    eqn:Hint.
  { apply orb_true_iff in Hint as [Hint|Hint]; [apply Z.ltb_lt in Hint|apply Z.leb_le in Hint];
      lia. }
  destruct (OnClick_find_defined niv (line + vscroll_position w) w []) as [[w' evs] Hrun];
    [lia|].
  exists w', evs. split; [done|].
  destruct (OnClick_find_shape niv _ _ _ _ _ Hvars Hrun)
    as [[-> ->]|(Hle & v & Hv & Hrange & -> & Hcur & ->)]; [by left|].
  right. split_and!; [done|done|].
  exists v, (Z.to_nat (var v - 0x60)). split_and!; [done|done|lia|lia|].
  unfold OnQueryTextFinished. rewrite Hcur.
  destruct (StrEmpty str).
  { exists var60params. split_and!; done. }
  destruct ((0 <=? var v - 0x60) && (var v - 0x60 <? 0x20)) eqn:Hin.
  2: { apply andb_false_iff in Hin as [Hin|Hin];
         [apply Z.leb_gt in Hin|apply Z.ltb_ge in Hin]; lia. }
  eexists. split_and!; [done| | |].
  - by rewrite length_insert.
  - intros j Hj. by rewrite list_lookup_insert_ne.
  - apply list_lookup_insert_eq. lia.
Qed.

End NewGRFDebugGUIFacts.

(** * music/os2_m.cpp *)

Section OS2MusicFacts.
Context `{MCICollaborators}.
Local Open Scope Z_scope.

(** Property X17.  [SetVolume] sends one command, and the volume in it is
    0 for every [vol] below 127, 100 for a [vol] from 127 to 253, and 200
    for 254 and 255: the division is the one of integers, and it is done
    before the multiplication. *)
Theorem X17_SetVolume_three_levels vol sent :
  0 ≤ vol < 2 ^ 8 →
  ∃ level,
    SetVolume vol sent = sent ++ [vseprintf 512 "set song audio volume %d" [ArgInt level]] ∧
    (vol < 127 → level = 0) ∧
    (127 ≤ vol < 254 → level = 100) ∧
    (254 ≤ vol → level = 200).
Proof.
  intros Hvol. exists ((vol ÷ 127) * 100). split; [done|].
  rewrite Z.quot_div_nonneg by lia.
  assert (vol < 127 ∨ 127 ≤ vol < 254 ∨ 254 ≤ vol) as [Hlow|[Hmid|Hhigh]] by lia.
  - rewrite Z.div_small by lia. lia.
  - replace (vol `div` 127) with 1; [lia|].
    apply Z.div_unique with (vol - 127); lia.
  - replace (vol `div` 127) with 2; [lia|].
    apply Z.div_unique with (vol - 254); lia.
Qed.

End OS2MusicFacts.

(** ** The definitions evaluated on a run *)

#[local] Existing Instance stub.

Lemma stub_Erase_spec : @Erase_spec stub.
Proof. by apply SmallVector_Erase_spec. Qed.

Lemma reachable_three_started : reachable three_started.
Proof.
  unfold reachable, three_started.
  eapply rtc_r; [eapply rtc_r; [eapply rtc_r; [apply rtc_refl|]|]|]; apply step_new.
Qed.

Lemma reachable_three_connected : reachable three_connected.
Proof.
  unfold reachable, three_connected.
  eapply rtc_r; [eapply rtc_r; [eapply rtc_r; [apply reachable_three_started|]|]|];
    apply step_thread; vm_compute; set_solver.
Qed.

Lemma three_connected_state :
  _tcp_connecters three_connected = [0; 1; 2] ∧
  heap three_connected !! 0 = Some (mkTCPConnecter true false false 10 10) ∧
  heap three_connected !! 1 = Some (mkTCPConnecter true false false 20 20) ∧
  heap three_connected !! 2 = Some (mkTCPConnecter true false false 30 30) ∧
  threads three_connected = [] ∧ next_ptr three_connected = 3 ∧ trace three_connected = [].
Proof. by vm_compute. Qed.




Lemma C1_witness :
  wf three_connected ∧
  0 ∈ _tcp_connecters three_connected ∧
  heap three_connected !! 0 = Some (mkTCPConnecter (H := stub) true false false 10 10) ∧
  ∃ st' evs seen,
    CheckCallbacks three_connected = Done st' ∧
    trace st' = trace three_connected ++ evs ∧
    about 0 evs = [EvOnConnect 0 10 seen; EvDelete 0] ∧
    filter (λ q, q = 0) (notified evs) = [0] ∧
    (0 ∉ _tcp_connecters st') ∧ heap st' !! 0 = None.
Proof.
  assert (wf three_connected) as Hwf
    by apply (reachable_wf stub_Erase_spec), reachable_three_connected.
  assert (0 ∈ _tcp_connecters three_connected) as Hin by (vm_compute; set_solver).
  split_and!; [done|done|reflexivity|].
  apply (C1_finished_notified_once stub_Erase_spec three_connected 0
           (mkTCPConnecter (H := stub) true false false 10 10));
    [done|done|reflexivity|discriminate|reflexivity].
Defined.



Lemma C6_witness :
  wf three_connected ∧
  ThreadObject_New (next_ptr three_connected) = false ∧
  3 ∈ _tcp_connecters (TCPConnecter_new (H := stub) 40 three_connected) ∧
  threads (TCPConnecter_new (H := stub) 40 three_connected) = threads three_connected ∧
  ∃ c, heap (TCPConnecter_new (H := stub) 40 three_connected) !! 3 = Some c ∧
       sock c = 40%Z ∧ killed c = false ∧ outcome c = Connected ∧
       ∃ st2 evs seen,
         CheckCallbacks (TCPConnecter_new (H := stub) 40 three_connected) = Done st2 ∧
         trace st2 = trace (TCPConnecter_new (H := stub) 40 three_connected) ++ evs ∧
         about 3 evs =
           match outcome c with
           | Connected => [EvOnConnect 3 (sock c) seen; EvDelete 3]
           | _ => [EvOnFailure 3 seen; EvDelete 3]
           end.
Proof.
  assert (wf three_connected) as Hwf
    by apply (reachable_wf stub_Erase_spec), reachable_three_connected.
  split; [done|]. split; [reflexivity|].
  by apply (C6_constructor_connects_without_thread stub_Erase_spec 40 three_connected).
Defined.

Lemma C8_witness :
  reachable three_connected ∧
  rtc step three_connected (KillAll three_connected) ∧
  ∀ c', heap (KillAll three_connected) !! 1 = Some c' →
        connected c' = true ∧ aborted c' = false ∧ outcome c' = Connected.
Proof.
  split_and!; [apply reachable_three_connected|apply rtc_once, step_KillAll|].
  intros c' Hc'.
  apply (proj2 (proj2 (C8_outcome_assigned_once (H := stub)))
           three_connected (KillAll three_connected) 1
           (mkTCPConnecter (H := stub) true false false 20 20) c');
    [apply reachable_three_connected|apply rtc_once, step_KillAll|reflexivity|discriminate|done].
Defined.

(** ** The properties of whole runs, on the same states *)

Lemma three_connected_poll : CheckCallbacks three_connected = Done three_polled.
Proof. by vm_compute. Qed.




Lemma X5_witness :
  wf initial_state ∧ ThreadObject_New (next_ptr initial_state) = true ∧
  _tcp_connecters (TCPConnecter_new 10 initial_state) = [0] ∧
  heap (TCPConnecter_new 10 initial_state) !! 0 = Some (initial 10) ∧
  threads (TCPConnecter_new 10 initial_state) = [0] ∧
  ∃ st3 evs seen,
    CheckCallbacks (run_thread 0 (TCPConnecter_new 10 initial_state)) = Done st3 ∧
    trace st3 = trace (run_thread 0 (TCPConnecter_new 10 initial_state)) ++ evs ∧
    about 0 evs = [EvOnConnect 0 10 seen; EvDelete 0] ∧
    (0 ∉ _tcp_connecters st3) ∧ heap st3 !! 0 = None.
Proof.
  assert (wf initial_state) as Hwf by apply (reachable_wf stub_Erase_spec), rtc_refl.
  split_and!; [done|reflexivity|..];
    by apply (X5_constructor_with_thread stub_Erase_spec 10 initial_state).
Defined.

Lemma X9_witness :
  reachable three_connected ∧ threads three_connected = [] ∧
  ∃ st' evs,
    CheckCallbacks three_connected = Done st' ∧ trace st' = trace three_connected ++ evs ∧
    _tcp_connecters st' = [] ∧ heap st' = ∅ ∧
    ∀ p, p ∈ _tcp_connecters three_connected → EvDelete p ∈ evs.
Proof.
  split_and!; [apply reachable_three_connected|reflexivity|].
  apply (X9_all_threads_ended_poll_deletes_all stub_Erase_spec three_connected);
    [apply reachable_three_connected|reflexivity].
Defined.

(** ** The threads and the iterator, on the same connecters *)

#[local] Existing Instance stub_alloc.

Lemma freachable_one_started : freachable one_started.
Proof. eapply freachable_fstep; [apply rtc_refl|apply fstep_new]. Qed.

Lemma freachable_three_with_threads : freachable three_with_threads.
Proof. apply freachable_news, rtc_refl. Qed.

(** Claim C2.  The claim is that a killed connecter is never notified.  The
    loop reads the flags anew in each of its tests: a connecter that is
    killed and whose thread sets [connected] after the test of line 57 and
    before the test of line 63 is taken by the second test, and
    [OnConnect] is called for it.  When the same thread ends before the
    first read, or takes no step during the call, no handler is called. *)
Theorem C2_killed_is_notified_when_its_thread_ends_between_the_tests :
  freachable one_killed ∧
  heap (base one_killed) !! 0 = Some (mkTCPConnecter (H := stub) false false true (-1) 10) ∧
  CheckCallbacks_fine (λ _ _ _, []) (λ _ _, []) 1 (ends_before_read 2 0) 0 one_killed =
    FDone (polled 1 (ends_before_read 2 0) one_killed) ∧
  trace (base (polled 1 (ends_before_read 2 0) one_killed)) =
    [EvOnConnect 0 10 []; EvDelete 0] ∧
  trace (base (polled 1 (ends_before_read 0 0) one_killed)) =
    [EvClosesocket 0 10; EvDelete 0] ∧
  polled 1 [] one_killed = one_killed.
Proof.
  split_and!; [|by vm_compute..].
  apply freachable_KillAll, freachable_one_started.
Qed.

(** Claim C10.  The claim is that a handler that constructs connecters
    cannot make the loop come back to the connecter it has notified.
    [Erase] is called before the handler, and the handler does not find
    its connecter registered; but the iterator is a pointer into the
    buffer, and when the handler constructs two connecters the second
    [Append] reallocates the buffer of [SmallVector<TCPConnecter *, 1>]:
    the loop goes on with an iterator into the buffer that has been
    freed, and what it does then is undefined.  With one connecter
    constructed the buffer has room, and the loop ends. *)
Theorem C10_handler_that_constructs_two_leaves_the_iterator_dangling :
  freachable one_connected ∧
  heap (base one_connected) !! 0 = Some (mkTCPConnecter (H := stub) true false false 10 10) ∧
  CheckCallbacks_fine OnConnect_two (λ _ _, []) 5 [] 0 one_connected = FUndefined ∧
  ∃ fs', CheckCallbacks_fine OnConnect_again (λ _ _, []) 5 [] 0 one_connected = FDone fs' ∧
         trace (base fs') = [EvOnConnect 0 10 []; EvDelete 0] ∧
         _tcp_connecters (base fs') = [1].
Proof.
  split_and!.
  - apply (freachable_run_threads (H := stub) [0; 0]), freachable_one_started.
  - by vm_compute.
  - by vm_compute.
  - eexists. split_and!; by vm_compute.
Qed.

(** Claim C7 as it stands.  The thread of the connecter has stored the
    socket and not yet the flag: the socket is valid, and the connecter is
    not connected. *)
Lemma C7_counterexample :
  freachable one_connecting ∧
  heap (base one_connecting) !! 0 = Some (mkTCPConnecter (H := stub) false false false 10 10) ∧
  ¬ @socket_valid_iff_Connected stub stub_alloc.
Proof.
  assert (freachable one_connecting) as Hreach.
  { eapply freachable_fstep; [apply freachable_one_started|apply fstep_thread]. }
  split_and!; [done|by vm_compute|]. intros Hclaim.
  destruct (Hclaim one_connecting 0 (mkTCPConnecter (H := stub) false false false 10 10)
              Hreach eq_refl) as [Hv _].
  assert (outcome (mkTCPConnecter (H := stub) false false false 10 10) = Connected) as Ho
    by (by apply Hv).
  discriminate Ho.
Qed.

Lemma C7_amended_witness :
  Erase_spec ∧
  freachable one_connecting ∧
  heap (base one_connecting) !! 0 = Some (mkTCPConnecter (H := stub) false false false 10 10) ∧
  0 ∈ connecting one_connecting ∧
  freachable one_connected ∧
  heap (base one_connected) !! 0 = Some (mkTCPConnecter (H := stub) true false false 10 10) ∧
  sock (mkTCPConnecter (H := stub) true false false 10 10) ≠ INVALID_SOCKET.
Proof.
  assert (freachable one_connecting) as Hreach.
  { eapply freachable_fstep; [apply freachable_one_started|apply fstep_thread]. }
  assert (freachable one_connected) as Hreach'.
  { eapply freachable_fstep; [apply Hreach|apply fstep_thread]. }
  destruct (C7_socket_valid_iff_Connected_once_finished stub_Erase_spec)
    as (_ & _ & Hstate & _).
  destruct (Hstate one_connecting 0 _ Hreach eq_refl) as (_ & _ & Hbetween).
  destruct (Hstate one_connected 0 _ Hreach' eq_refl) as (Hvalid & _).
  split_and!; [apply stub_Erase_spec|done|reflexivity| |done|reflexivity|].
  - by apply Hbetween.
  - by apply Hvalid.
Defined.

Lemma freachable_second_connected : freachable second_connected.
Proof. apply freachable_run_threads, freachable_three_with_threads. Qed.

Lemma freachable_first_connected : freachable first_connected.
Proof. apply freachable_run_threads, freachable_three_with_threads. Qed.


Lemma X4_witness :
  Erase_spec ∧
  freachable first_connected ∧
  CheckCallbacks_fine (λ _ _ _, []) (λ _ _, []) 3 (ends_before_read 10 1) 0
    (KillAll_fine first_connected) =
    FDone (polled 3 (ends_before_read 10 1) (KillAll_fine first_connected)) ∧
  notified (trace (base (polled 3 (ends_before_read 10 1) (KillAll_fine first_connected)))) =
    [1] ∧
  ∃ evs,
    trace (base (polled 3 (ends_before_read 10 1) (KillAll_fine first_connected))) =
      trace (base first_connected) ++ evs ∧
    (∀ p, p ∈ notified evs →
       (∃ c, heap (base first_connected) !! p = Some c ∧ outcome c = Pending) ∨
       next_ptr (base first_connected) ≤ p) ∧
    (∀ p rest, notified evs = p :: rest →
       ∃ c, heap (base first_connected) !! p = Some c ∧ outcome c = Pending) ∧
    ((∀ p c, heap (base first_connected) !! p = Some c → outcome c ≠ Pending) →
     notified evs = []).
Proof.
  split_and!; [apply stub_Erase_spec|apply freachable_first_connected|by vm_compute..|].
  apply (X4_after_KillAll_only_threads_that_end_in_the_call_notify stub_Erase_spec
           (λ _ _ _, []) (λ _ _, []) 3 (ends_before_read 10 1) first_connected);
    [apply freachable_first_connected|by vm_compute].
Defined.

Lemma X6_witness :
  Erase_spec ∧
  freachable (KillAll_fine first_connected) ∧
  heap (base (KillAll_fine first_connected)) !! 0 =
    Some (mkTCPConnecter (H := stub) true false true 10 10) ∧
  (∃ fs', CheckCallbacks_fine (λ _ _ _, []) (λ _ _, [])
            (length (_tcp_connecters (base (KillAll_fine first_connected))))
            (ends_before_read 10 1) 0 (KillAll_fine first_connected) = FDone fs') ∧
  ∀ OnConnect OnFailure fuel fs',
    CheckCallbacks_fine OnConnect OnFailure fuel (ends_before_read 10 1) 0
      (KillAll_fine first_connected) = FDone fs' →
    (0 ∉ _tcp_connecters (base fs')) ∧ heap (base fs') !! 0 = None ∧
    ∃ evs, trace (base fs') = trace (base (KillAll_fine first_connected)) ++ evs ∧
      about 0 evs = [EvClosesocket 0 10; EvDelete 0] ∧ (0 ∉ notified evs).
Proof.
  assert (freachable (KillAll_fine first_connected)) as Hreach
    by apply freachable_KillAll, freachable_first_connected.
  split_and!; [apply stub_Erase_spec|done|reflexivity|..];
    apply (X6_finished_and_killed_is_reaped_silently stub_Erase_spec
             (KillAll_fine first_connected) 0
             (mkTCPConnecter (H := stub) true false true 10 10) (ends_before_read 10 1));
    [done|reflexivity|discriminate|reflexivity|done|reflexivity|discriminate|reflexivity].
Defined.

Lemma second_killed_first_late_polled :
  CheckCallbacks_fine (λ _ _ _, []) (λ _ _, []) 3 (ends_before_read 2 0) 0
    (KillAll_fine second_connected) = FDone second_killed_first_late.
Proof. by vm_compute. Qed.

Lemma freachable_second_killed_first_late : freachable second_killed_first_late.
Proof.
  eapply freachable_fstep;
    [apply freachable_KillAll, freachable_second_connected|].
  eapply fstep_CheckCallbacks, second_killed_first_late_polled.
Qed.

Lemma X7_witness :
  Erase_spec ∧
  freachable (KillAll_fine second_connected) ∧
  heap (base (KillAll_fine second_connected)) !! 1 =
    Some (mkTCPConnecter (H := stub) true false true 20 20) ∧
  rtc fstep (KillAll_fine second_connected) second_killed_first_late ∧
  notified (trace (base second_killed_first_late)) = [0] ∧
  ∃ evs,
    trace (base second_killed_first_late) = trace (base (KillAll_fine second_connected)) ++ evs ∧
    (1 ∉ notified evs) ∧
    ∀ c', heap (base second_killed_first_late) !! 1 = Some c' →
          c' = mkTCPConnecter (H := stub) true false true 20 20.
Proof.
  assert (freachable (KillAll_fine second_connected)) as Hreach
    by apply freachable_KillAll, freachable_second_connected.
  assert (rtc fstep (KillAll_fine second_connected) second_killed_first_late) as Hsteps.
  { apply rtc_once. eapply fstep_CheckCallbacks, second_killed_first_late_polled. }
  split_and!; [apply stub_Erase_spec|done|reflexivity|done|by vm_compute|].
  apply (X7_finished_and_killed_is_never_notified stub_Erase_spec
           (KillAll_fine second_connected) second_killed_first_late 1
           (mkTCPConnecter (H := stub) true false true 20 20));
    [done|reflexivity|discriminate|reflexivity|done].
Defined.

Lemma freachable_three_mixed : freachable three_mixed.
Proof. apply freachable_run_threads, freachable_three_with_threads. Qed.

Lemma X8_witness :
  Erase_spec ∧
  freachable three_mixed ∧
  _tcp_connecters (base three_mixed) = [0; 1; 2] ∧
  threads (base three_mixed) = [2] ∧ connecting three_mixed = [1] ∧
  NoDup (_tcp_connecters (base three_mixed)) ∧
  (∀ p, p ∈ _tcp_connecters (base three_mixed) ↔ is_Some (heap (base three_mixed) !! p)) ∧
  (∀ p, p ∈ threads (base three_mixed) ∨ p ∈ connecting three_mixed ↔
        ∃ c, heap (base three_mixed) !! p = Some c ∧ outcome c = Pending) ∧
  (∀ p, p ∈ threads (base three_mixed) → p ∉ connecting three_mixed).
Proof.
  split_and!; [apply stub_Erase_spec|apply freachable_three_mixed|reflexivity..| | | |];
    by apply (X8_registry_is_the_live_set stub_Erase_spec three_mixed),
         freachable_three_mixed.
Defined.

Lemma X10_witness :
  Erase_spec ∧
  freachable second_killed_first_late ∧
  trace (base second_killed_first_late) =
    [EvOnConnect 0 10 [2; 1]; EvDelete 0; EvClosesocket 1 20; EvDelete 1] ∧
  (about 0 (trace (base second_killed_first_late)) = [] ∨
   (∃ s seen, s ≠ INVALID_SOCKET ∧ (0 ∉ seen) ∧
      about 0 (trace (base second_killed_first_late)) = [EvOnConnect 0 s seen; EvDelete 0]) ∨
   (∃ seen, (0 ∉ seen) ∧
      about 0 (trace (base second_killed_first_late)) = [EvOnFailure 0 seen; EvDelete 0]) ∨
   (∃ s, s ≠ INVALID_SOCKET ∧
      about 0 (trace (base second_killed_first_late)) = [EvClosesocket 0 s; EvDelete 0]) ∨
   about 0 (trace (base second_killed_first_late)) = [EvDelete 0]).
Proof.
  split_and!; [apply stub_Erase_spec|apply freachable_second_killed_first_late|
               by vm_compute|].
  apply (X10_life_of_a_connecter stub_Erase_spec second_killed_first_late 0),
    freachable_second_killed_first_late.
Defined.

Lemma X11_witness :
  Erase_spec ∧
  freachable second_killed_first_late ∧
  deleted (trace (base second_killed_first_late)) = [0; 1] ∧
  NoDup (deleted (trace (base second_killed_first_late))) ∧
  NoDup (notified (trace (base second_killed_first_late))) ∧
  ∀ e, e ∈ trace (base second_killed_first_late) →
    EvDelete (subject e) ∈ trace (base second_killed_first_late) ∧
    heap (base second_killed_first_late) !! subject e = None ∧
    (subject e ∉ _tcp_connecters (base second_killed_first_late)) ∧
    (subject e ∉ threads (base second_killed_first_late)) ∧
    (subject e ∉ connecting second_killed_first_late).
Proof.
  split_and!; [apply stub_Erase_spec|apply freachable_second_killed_first_late|
               by vm_compute|..];
    by apply (X11_deleted_once_and_gone stub_Erase_spec second_killed_first_late),
         freachable_second_killed_first_late.
Defined.

Lemma freachable_first_and_third_connected : freachable first_and_third_connected.
Proof. apply freachable_run_threads, freachable_three_with_threads. Qed.

Lemma X12_witness :
  Erase_spec ∧
  freachable first_and_third_connected ∧
  CheckCallbacks_fine OnConnect_again (λ _ _, []) 10 [] 0
    first_and_third_connected =
    FDone first_and_third_again ∧
  notified (trace (base first_and_third_again)) = [0; 2; 3; 4] ∧
  _tcp_connecters (base first_and_third_again) = [1] ∧
  CheckCallbacks_loop OnConnect_again (λ _ _, []) 10 0
    (base first_and_third_connected) =
    Done (base first_and_third_again) ∧
  ∀ p, p ∈ _tcp_connecters (base first_and_third_again) →
       ∃ c, heap (base first_and_third_again) !! p = Some c ∧
            outcome c = Pending ∧
            (p ∈ threads (base first_and_third_again) ∨
             p ∈ connecting first_and_third_again).
Proof.
  split_and!; [apply stub_Erase_spec|apply freachable_first_and_third_connected|
               by vm_compute..| |];
    by apply (X12_loop_leaves_only_unfinished stub_Erase_spec OnConnect_again (λ _ _, []) 10
                first_and_third_connected);
      [apply freachable_first_and_third_connected|by vm_compute].
Defined.

Lemma X18_witness :
  Erase_spec ∧
  freachable second_connected ∧
  heap (base second_connected) !! 1 = Some (mkTCPConnecter (H := stub) true false false 20 20) ∧
  (∃ fs', CheckCallbacks_fine (λ _ _ _, []) (λ _ _, [])
            (length (_tcp_connecters (base second_connected))) [[2; 2]] 0 second_connected =
          FDone fs') ∧
  ∀ OnConnect OnFailure fuel fs',
    CheckCallbacks_fine OnConnect OnFailure fuel [[2; 2]] 0 second_connected = FDone fs' →
    (1 ∉ _tcp_connecters (base fs')) ∧ heap (base fs') !! 1 = None ∧
    ∃ evs seen, trace (base fs') = trace (base second_connected) ++ evs ∧ (1 ∉ seen) ∧
      about 1 evs = [EvOnConnect 1 20 seen; EvDelete 1] ∧
      filter (λ q, q = 1) (notified evs) = [1].
Proof.
  split_and!; [apply stub_Erase_spec|apply freachable_second_connected|reflexivity|..];
    apply (X18_finished_is_notified_once_under_any_schedule stub_Erase_spec second_connected 1
             (mkTCPConnecter (H := stub) true false false 20 20) [[2; 2]]);
    [apply freachable_second_connected|reflexivity|discriminate|reflexivity|
     apply freachable_second_connected|reflexivity|discriminate|reflexivity].
Defined.

(** ** The inspect window on a table of two features *)

#[local] Existing Instance gui_stub.
#[local] Existing Instance mci_stub.

Lemma gui_stub_BitMath : BitMath_spec.
Proof. by split. Qed.

Lemma X13_witness :
  BitMath_spec ∧ (0 ≤ 1 < 2 ^ 8)%Z ∧ (0 ≤ 2 < 2 ^ 32)%Z ∧ (2 < 2 ^ 24)%Z ∧
  ∃ wno, GetInspectWindowNumber 1 2 = Some wno ∧ (0 ≤ wno < 2 ^ 32)%Z ∧
         GetFeatureIndex wno = 2%Z ∧ GB wno 24 8 = 1%Z.
Proof.
  split_and!; [apply gui_stub_BitMath|lia..|].
  apply (X13_window_number_round_trip gui_stub_BitMath 1 2); lia.
Defined.

Lemma X14_witness :
  BitMath_spec ∧
  GetFeature (window_number window_0_1) = Some feature_0 ∧
  GetInspectWindowNumber 1 2 = Some 0x01000002%Z ∧
  OnClick_NIW_PARENT window_0_1 = Some [EvAllocateWindowDescFront 0x01000002].
Proof.
  split_and!; [apply gui_stub_BitMath|reflexivity|..];
    by apply (X14_parent_button_shows_parent gui_stub_BitMath window_0_1 feature_0).
Defined.

Lemma X15_witness :
  BitMath_spec ∧ (0 ≤ 0 < 2 ^ 8)%Z ∧ (0 ≤ 5 < 2 ^ 24)%Z ∧
  (GSF_FAKE_END ≤ GSF_INVALID)%Z ∧
  (ShowNewGRFInspectWindow 0 5 = Some [EvAllocateWindowDescFront 5] ↔
   (0 < GSF_FAKE_END)%Z ∧
   ∃ nif, _nifeatures 0 = Some nif ∧ IsInspectable (helper nif) 5 = true).
Proof.
  assert (GSF_FAKE_END ≤ GSF_INVALID)%Z as Hend by (vm_compute; discriminate).
  split_and!; [apply gui_stub_BitMath|lia..|exact Hend|].
  apply (X15_show_and_delete gui_stub_BitMath 0 5); [lia|lia|exact Hend].
Defined.

Lemma X16_witness :
  BitMath_spec ∧
  GetFeature (window_number window_0_1) = Some feature_0 ∧
  (- 2 ^ 31 + 4 ≤ 2 + vscroll_position window_0_1 < 2 ^ 31)%Z ∧
  ∃ w' evs,
    OnClick_NIW_MAINPANEL 2 window_0_1 = Some (w', evs) ∧
    ((w' = window_0_1 ∧ evs = []) ∨
     (evs = [EvShowQueryString] ∧ (2 < vscroll_capacity window_0_1)%Z ∧
      ∃ v i,
        [mkNIVariable "a" 0x40; mkNIVariable "b" 0x60; mkNIVariable "c" 0x7F;
         mkNIVariable "d" 0x80] !! Z.to_nat (2 + vscroll_position window_0_1 - 1) = Some v ∧
        current_edit_param w' = var v ∧ var v = (0x60 + Z.of_nat i)%Z ∧ i < 0x20 ∧
        ∃ var60params',
          OnQueryTextFinished "1f" w' (replicate 0x20 0%Z) =
            Some (var60params', if StrEmpty "1f" then [] else [EvSetDirty]) ∧
          length var60params' = 0x20 ∧
          (∀ j, j ≠ i → var60params' !! j = replicate 0x20 0%Z !! j) ∧
          var60params' !! i =
            if StrEmpty "1f" then replicate 0x20 0%Z !! i
            else Some (strtol_16 "1f" mod 2 ^ 8)%Z)).
Proof.
  split_and!; [apply gui_stub_BitMath|reflexivity|simpl; lia|simpl; lia|].
  apply (X16_edited_parameter_is_inside_the_array gui_stub_BitMath
           2 window_0_1 feature_0
           [mkNIVariable "a" 0x40; mkNIVariable "b" 0x60; mkNIVariable "c" 0x7F;
            mkNIVariable "d" 0x80]);
    [reflexivity|reflexivity| |reflexivity|simpl; lia].
  repeat (apply Forall_cons; split; [simpl; lia|]). apply Forall_nil_2.
Defined.

(** ** The volume on an MCI that takes every command *)

Lemma X17_witness :
  (0 ≤ 200 < 2 ^ 8)%Z ∧
  ∃ level,
    SetVolume 200 [] =
      [] ++ [vseprintf 512 "set song audio volume %d" [ArgInt level]] ∧
    ((200 < 127)%Z → level = 0%Z) ∧
    ((127 ≤ 200 < 254)%Z → level = 100%Z) ∧
    ((254 ≤ 200)%Z → level = 200%Z).
Proof.
  split; [lia|].
  apply (X17_SetVolume_three_levels 200 []). lia.
Defined.
